(** * EmberCRM: contact identity, heat scoring, agent routing, decision engine
    and the per-message pipeline, as a shallow embedding.

    Sources embedded here:
      - src/lib/ember/memoria/merger.ts: normalizePhoneNumber,
        levenshteinDistance, calculateSimilarity, detectDuplicateContacts,
        mergeTags, mergeCustomFields, mergeContacts,
        autoMergeHighConfidenceDuplicates; and, from the queries that follow
        in the same listing, findOrCreateContact
      - src/lib/ember/memoria/scoring.ts: calculateHeatScore,
        recalculateHeatScore, calculateAverageResponseTime,
        batchRecalculateHeatScores, getHeatScoreDistribution
      - src/lib/ember/agents/manager.ts: AgentManager.selectBestAgent,
        assignAgentToConversation, unassignAgent, getCurrentAssignment,
        getAgentWorkload, findBestAvailableAgent
      - the decision maker (second half of core/context-builder.ts):
        decideActions, detectIntent, extractUrls, shouldEscalate, extractTags,
        detectDocumentType
      - the action handlers (actions/handlers/update-tags.ts,
        src/unnamed/part_003 to part_005): the validate of each handler
      - the engine (src/unnamed/part_002): processMessage, getOrAssignAgent,
        getConversationHistory, callAIModel
      - the schema (src/lib/db/schema/tables.ts): the integer columns, the
        references and the indexes of the tables written here

    Conventions.
      - A JavaScript string is the list of its UTF-16 code units.
      - Integer columns and integer-valued JavaScript numbers are [Z]; counts
        that index arrays are [nat].  An [integer] column holds 32 bits:
        where the code writes a sum or an increment to one, the statement is
        refused when the value does not fit ([Db.int4]).  The counters read
        from such columns are small enough for JavaScript to add them
        exactly.
      - The confidence arithmetic of the duplicate detector is carried out on
        exact rationals [Q]; every bound proved below only uses monotone
        steps (a quotient of non-negative numbers, a product with 0.7, a
        minimum with 0.95), which IEEE rounding preserves.
      - Tables are lists of rows; a query is a filter over that list; a
        transaction either commits its final store or leaves the store it
        started from.  The order of a list stands for the order in which
        the store returns rows to a query without orderBy; for the message
        table, which is only appended to, it is the order of insertion.
        Where the code passes a reference on unchecked, an insert whose row
        refers to a row that does not exist is refused.
      - A text column that holds JSON is the document JSON.parse returns for
        it; where the source guards the parse with try/catch the column may
        also be unparseable.
      - The clock is a parameter: [now] is the reading of one call, and a
        loop that reads the clock in every iteration takes a reading per
        iteration.  A key the store generates for an inserted row is a
        parameter as well.
      - Host functions whose tables or patterns are not reproduced
        (String.prototype.toLowerCase, the regular expressions of helpers
        that only fill in action parameters) are Section variables: what is
        proved holds for every behaviour of them.  So are the credit
        deduction, whose module is not among the sources, and the concurrent
        execution of the action handlers of one message.

    The first part of the file holds the embedding, the vocabulary of the
    properties and the concrete data of the examples; the second part the
    lemmas and theorems. *)

From Stdlib Require Import List ZArith NArith QArith Qround Bool Lia Ascii String.
From Stdlib Require Import DecimalString Lqa.
From Stdlib Require Import Sorting.Permutation Sorting.Sorted.
Import ListNotations.

Local Open Scope Z_scope.

(* ------------------------------------------------------------------ *)
(** ** JavaScript strings *)

Module Js.

Definition codeUnit := N.
Definition jsstring := list codeUnit.

(** A string literal of the source whose characters are all Basic Latin. *)
Definition js (s : string) : jsstring :=
  List.map N_of_ascii (list_ascii_of_string s).

(** [a === b] on strings. *)
Fixpoint eqb (a b : jsstring) : bool :=
  match a, b with
  | [], [] => true
  | x :: a', y :: b' => N.eqb x y && eqb a' b'
  | _, _ => false
  end.

(** Truthiness of a string: non-empty. *)
Definition truthy (s : jsstring) : bool :=
  match s with [] => false | _ => true end.

(** Truthiness of a nullable string column. *)
Definition truthyOpt (o : option jsstring) : bool :=
  match o with Some s => truthy s | None => false end.

(** [s.startsWith(p)]. *)
Fixpoint startsWith (s p : jsstring) : bool :=
  match p, s with
  | [], _ => true
  | y :: p', x :: s' => N.eqb x y && startsWith s' p'
  | _ :: _, [] => false
  end.

(** [s.includes(p)]. *)
Fixpoint includes (s p : jsstring) : bool :=
  startsWith s p ||
  match s with
  | [] => false
  | _ :: s' => includes s' p
  end.

(** [arr.includes(x)] on an array of strings. *)
Definition arrayIncludes (arr : list jsstring) (x : jsstring) : bool :=
  existsb (eqb x) arr.

(** [s.slice(k)] for a non-negative literal [k]. *)
Definition sliceFrom (k : nat) (s : jsstring) : jsstring := skipn k s.

(** [s.slice(-k)] for a positive literal [k]. *)
Definition sliceLast (k : nat) (s : jsstring) : jsstring :=
  skipn (List.length s - k) s.

(** The class [\d] (without the unicode flag): 0-9. *)
Definition isDigit (c : codeUnit) : bool :=
  (N.leb 48 c && N.leb c 57)%N.

(** The class [\s]: WhiteSpace and LineTerminator of ECMAScript. *)
Definition isWhiteSpace (c : codeUnit) : bool :=
  ((N.leb 9 c && N.leb c 13) || N.eqb c 32 || N.eqb c 160 || N.eqb c 5760
   || (N.leb 8192 c && N.leb c 8202) || N.eqb c 8232 || N.eqb c 8233
   || N.eqb c 8239 || N.eqb c 8287 || N.eqb c 12288 || N.eqb c 65279)%N.

(** [s.replace(/\D/g, '')]: the digits of [s]. *)
Definition stripNonDigits (s : jsstring) : jsstring := filter isDigit s.

(** [s.split(sep)[0]] for a one-code-unit separator. *)
Fixpoint splitHead (sep : codeUnit) (s : jsstring) : jsstring :=
  match s with
  | [] => []
  | c :: s' => if N.eqb c sep then [] else c :: splitHead sep s'
  end.

Fixpoint trimStart (s : jsstring) : jsstring :=
  match s with
  | c :: s' => if isWhiteSpace c then trimStart s' else s
  | [] => []
  end.

(** [s.trim()]. *)
Definition trim (s : jsstring) : jsstring :=
  rev (trimStart (rev (trimStart s))).

(** A lower-casing that agrees with String.prototype.toLowerCase on
    strings of Basic Latin code units; used to run examples. *)
Definition lowerBasicLatin (s : jsstring) : jsstring :=
  List.map (fun c => if (N.leb 65 c && N.leb c 90)%N then (c + 32)%N else c) s.

End Js.

(* ------------------------------------------------------------------ *)
(** ** Array.prototype.sort with a numeric comparator

    The engine's sort is stable.  [after x y] is [compare(x, y) > 0]:
    [x] has to be placed behind [y]. *)

Module StableSort.
Section Sort.
Context {A : Type}.
Variable after : A -> A -> bool.

Fixpoint insert (x : A) (l : list A) : list A :=
  match l with
  | [] => [x]
  | y :: l' => if after x y then y :: insert x l' else x :: l
  end.

Fixpoint sort (l : list A) : list A :=
  match l with
  | [] => []
  | x :: l' => insert x (sort l')
  end.
End Sort.

(** [(a, b) => key(b) - key(a)] on integer keys: descending. *)
Definition sortDescZ {A : Type} (key : A -> Z) : list A -> list A :=
  sort (fun x y => Z.ltb (key x) (key y)).

(** [(a, b) => key(b) - key(a)] on rational keys: descending. *)
Definition sortDescQ {A : Type} (key : A -> Q) : list A -> list A :=
  sort (fun x y => negb (Qle_bool (key y) (key x))).

(** [(a, b) => key(a) - key(b)] on integer keys: ascending. *)
Definition sortAscZ {A : Type} (key : A -> Z) : list A -> list A :=
  sort (fun x y => Z.ltb (key y) (key x)).

(** The order of a list sorted by descending key. *)
Definition descending {A : Type} (key : A -> Z) (a b : A) : Prop :=
  key b <= key a.

(** The order of a list sorted by ascending key. *)
Definition ascending {A : Type} (key : A -> Z) (a b : A) : Prop :=
  key a <= key b.


End StableSort.

(* ------------------------------------------------------------------ *)
(** ** Similarity engine (merger.ts, lines 30-98) *)

Module Similarity.
Import Js.

(** merger.ts: normalizePhoneNumber. *)
Definition normalizePhoneNumber (phone : jsstring) : jsstring :=
  let normalized := stripNonDigits phone in
  let normalized :=
    if startsWith normalized (js "1") && Nat.eqb (List.length normalized) 11
    then sliceFrom 1 normalized else normalized in
  let normalized :=
    if startsWith normalized (js "52") && Nat.eqb (List.length normalized) 12
    then sliceFrom 2 normalized else normalized in
  normalized.

(** One row of the dynamic-programming matrix.  [prev] is row [i-1] from
    column [j-1] on, [left] is [matrix[i][j-1]], [s2] is the rest of the
    second string from position [j-1] on. *)
Fixpoint fillRow (c : codeUnit) (s2 : jsstring) (prev : list nat) (left : nat)
  : list nat :=
  match s2, prev with
  | d :: s2', prevIJ1 :: ((prevIJ :: _) as prev') =>
      let cost := if N.eqb c d then 0%nat else 1%nat in
      let v := Nat.min (Nat.min (prevIJ + 1) (left + 1)) (prevIJ1 + cost) in
      v :: fillRow c s2' prev' v
  | _, _ => []
  end.

(** Row [i] from row [i-1]: [matrix[i] = [i]] and then the inner loop. *)
Definition nextRow (i : nat) (c : codeUnit) (s2 : jsstring) (prev : list nat)
  : list nat :=
  i :: fillRow c s2 prev i.

Fixpoint rowsFrom (i : nat) (s1 s2 : jsstring) (prev : list nat) : list nat :=
  match s1 with
  | [] => prev
  | c :: s1' => rowsFrom (S i) s1' s2 (nextRow (S i) c s2 prev)
  end.

(** merger.ts: levenshteinDistance.  Row 0 is [0, 1, ..., len2]; the
    result is [matrix[len1][len2]], 0 when that cell is missing. *)
Definition levenshteinDistance (str1 str2 : jsstring) : nat :=
  let row0 := seq 0 (S (List.length str2)) in
  nth (List.length str2) (rowsFrom 0 str1 str2 row0) 0%nat.

Section WithHost.
Variable toLowerCase : jsstring -> jsstring.

(** merger.ts: calculateSimilarity. *)
Definition calculateSimilarity (str1 str2 : jsstring) : Q :=
  let distance := levenshteinDistance (toLowerCase str1) (toLowerCase str2) in
  let maxLength := Nat.max (List.length str1) (List.length str2) in
  if Nat.eqb maxLength 0 then 1%Q
  else (1 - inject_Z (Z.of_nat distance) / inject_Z (Z.of_nat maxLength))%Q.
End WithHost.

(** The two prefix tests of normalizePhoneNumber. *)
Definition usPrefixed (d : jsstring) : bool :=
  startsWith d (js "1") && Nat.eqb (List.length d) 11.
Definition mxPrefixed (d : jsstring) : bool :=
  startsWith d (js "52") && Nat.eqb (List.length d) 12.

End Similarity.

(* ------------------------------------------------------------------ *)
(** ** Storage model *)

(** A JSON document as JSON.parse returns it. *)
Module Json.
#[local] Unset Elimination Schemes.
Inductive t : Type :=
| JNull
| JBool (b : bool)
| JNum (n : Q)
| JStr (s : Js.jsstring)
| JArr (items : list t)
| JObj (fields : list (Js.jsstring * t)).
#[local] Set Elimination Schemes.

(** The content of a non-null text column that is meant to hold JSON:
    either JSON.parse throws on it, or it yields a document. *)
Inductive text : Type :=
| Unparseable
| Parses (doc : t).
End Json.

Definition Id := Js.jsstring.

(** A thrown [Error(message)]. *)
Inductive Error : Type := Err (message : string).

Inductive ContactStatus : Type := active | inactive | blocked | merged.

Definition isActive (s : ContactStatus) : bool :=
  match s with active => true | _ => false end.

(** A row of the contact table, projected on the columns the embedded
    functions read or write. *)
Module Contact.
Record t : Type := mk {
  id : Id;
  organizationId : Id;
  firstName : Js.jsstring;
  lastName : Js.jsstring;
  email : option Js.jsstring;
  phone : option Js.jsstring;
  company : option Js.jsstring;
  heatScore : Z;
  tags : option Json.text;
  channelPreference : option Js.jsstring;
  timezone : option Js.jsstring;
  lastInteractionAt : option Z;
  interactionCount : Z;
  lifetimeValue : option Z;
  averageResponseTime : option Z;
  customFields : option Json.text;
  status : ContactStatus;
  mergedWithId : option Id;
  (* written by mergeContacts through JSON.stringify only: the array it
     encodes, the empty one for null *)
  mergedContactIds : list Id;
  updatedAt : Z
}.

(** [.set({ heatScore, updatedAt })]. *)
Definition setHeatScore (score now : Z) (c : t) : t :=
  mk (id c) (organizationId c) (firstName c) (lastName c) (email c) (phone c)
     (company c) score (tags c) (channelPreference c) (timezone c)
     (lastInteractionAt c) (interactionCount c) (lifetimeValue c)
     (averageResponseTime c) (customFields c) (status c) (mergedWithId c)
     (mergedContactIds c) now.

(** [.set({ status: merged, mergedWithId, updatedAt })]. *)
Definition setMerged (primaryId : Id) (now : Z) (c : t) : t :=
  mk (id c) (organizationId c) (firstName c) (lastName c) (email c) (phone c)
     (company c) (heatScore c) (tags c) (channelPreference c) (timezone c)
     (lastInteractionAt c) (interactionCount c) (lifetimeValue c)
     (averageResponseTime c) (customFields c) merged (Some primaryId)
     (mergedContactIds c) now.
End Contact.

(** The store: the contact table and the seven tables whose [contactId]
    column refers to it.  Rows of the latter are projected on their key and
    on that column. *)
Module Db.
Record Linked : Type := mkLinked { rowId : Id; contactId : Id }.

Record t : Type := mk {
  contacts : list Contact.t;
  conversations : list Linked;
  contactAgreements : list Linked;
  contactNotes : list Linked;
  contactSources : list Linked;
  agentAssignments : list Linked;
  formSubmissions : list Linked;
  voiceCalls : list Linked
}.

(** The values an [integer] column holds (tables.ts declares the counters
    with [integer(...)], a signed 32-bit column).  A statement that writes
    another value is refused by the store, and the transaction it belongs to
    is rolled back. *)
Definition int4 (v : Z) : bool :=
  (-2147483648 <=? v) && (v <=? 2147483647).

(** The error of the store for a value outside that range; its text is the
    store's, and no property below depends on it. *)
Definition outOfRange : Error := Err "value out of range for type integer".

(** The error of the store for a row that refers to a row that does not
    exist ([references(...)] in tables.ts); the transaction of the statement
    is rolled back.  The text is the store's, and no property below depends
    on it. *)
Definition foreignKey : Error := Err "violates foreign key constraint".

(** [inArray(column, ids)]. *)
Definition inArray (x : Id) (ids : list Id) : bool := existsb (Js.eqb x) ids.

(** [findFirst({ where: eq(contactTable.id, id) })]. *)
Definition findContact (db : t) (cid : Id) : option Contact.t :=
  find (fun c => Js.eqb (Contact.id c) cid) (contacts db).

(** [update(contactTable).set(f).where(p)]. *)
Definition updateContacts (p : Contact.t -> bool) (f : Contact.t -> Contact.t)
  (db : t) : t :=
  mk (List.map (fun c => if p c then f c else c) (contacts db))
     (conversations db) (contactAgreements db) (contactNotes db)
     (contactSources db) (agentAssignments db) (formSubmissions db)
     (voiceCalls db).

(** [update(table).set({ contactId: primaryId })
      .where(inArray(table.contactId, duplicateIds))]. *)
Definition repoint (primaryId : Id) (duplicateIds : list Id) (rows : list Linked)
  : list Linked :=
  List.map (fun r => if inArray (contactId r) duplicateIds
                     then mkLinked (rowId r) primaryId else r) rows.
End Db.

(* ------------------------------------------------------------------ *)
(** ** Heat scorer (scoring.ts, lines 18-132) *)

Module Scoring.

(** The four sub-scores of calculateHeatScore, on the loaded row. *)
Definition recencyScore (now : Z) (c : Contact.t) : Z :=
  match Contact.lastInteractionAt c with
  | Some t =>
      let daysSinceLastInteraction := (now - t) / (1000 * 60 * 60 * 24) in
      if daysSinceLastInteraction =? 0 then 30
      else if daysSinceLastInteraction <=? 1 then 28
      else if daysSinceLastInteraction <=? 3 then 25
      else if daysSinceLastInteraction <=? 7 then 20
      else if daysSinceLastInteraction <=? 14 then 15
      else if daysSinceLastInteraction <=? 30 then 10
      else if daysSinceLastInteraction <=? 60 then 5
      else 0
  | None => 0
  end.

Definition frequencyScore (c : Contact.t) : Z :=
  let recentInteractionCount := Contact.interactionCount c in
  if 16 <=? recentInteractionCount then 30
  else if 6 <=? recentInteractionCount then 20
  else if 1 <=? recentInteractionCount then 10
  else 0.

Definition valueScore (c : Contact.t) : Z :=
  let lifetimeValue :=
    match Contact.lifetimeValue c with Some v => v | None => 0 end in
  if 100000 <=? lifetimeValue then 20
  else if 50000 <=? lifetimeValue then 15
  else if 10000 <=? lifetimeValue then 10
  else if 1000 <=? lifetimeValue then 5
  else 0.

(** [contact.averageResponseTime || null]: a stored 0 counts as absent. *)
Definition engagementScore (c : Contact.t) : Z :=
  let avgResponseTime :=
    match Contact.averageResponseTime c with
    | Some 0 => None
    | other => other
    end in
  match avgResponseTime with
  | Some a =>
      if a <? 300 then 20
      else if a <? 1800 then 15
      else if a <? 7200 then 10
      else if a <? 86400 then 5
      else 0
  | None => 0
  end.

(** The accumulated [score] and the final
    [Math.min(Math.max(Math.round(score), 0), 100)]; [Math.round] is the
    identity on an integer. *)
Definition scoreOf (now : Z) (c : Contact.t) : Z :=
  let score :=
    0 + recencyScore now c + frequencyScore c + valueScore c + engagementScore c in
  Z.min (Z.max score 0) 100.

(** scoring.ts: calculateHeatScore.  [now] is [Date.now()]. *)
Definition calculateHeatScore (now : Z) (db : Db.t) (contactId : Id)
  : Error + Z :=
  match Db.findContact db contactId with
  | None => inl (Err "Contact not found")
  | Some contact => inr (scoreOf now contact)
  end.

(** scoring.ts: recalculateHeatScore. *)
Definition recalculateHeatScore (now : Z) (db : Db.t) (contactId : Id)
  : Error + (Z * Db.t) :=
  match calculateHeatScore now db contactId with
  | inl e => inl e
  | inr heatScore =>
      inr (heatScore,
           Db.updateContacts (fun c => Js.eqb (Contact.id c) contactId)
                             (Contact.setHeatScore heatScore now) db)
  end.

End Scoring.

(* ------------------------------------------------------------------ *)
(** ** Identity resolver (merger.ts, lines 100-455) *)

Module Merger.
Import Js.

Inductive MatchReason : Type :=
| ExactEmailMatch
| ExactPhoneMatch
| FuzzyNameMatch (percentSimilar : Z).

Record DuplicateCandidate : Type := mkCandidate {
  id : Id;
  confidence : Q;
  matchReason : MatchReason;
  contact : Contact.t
}.

(** The [contact] argument of detectDuplicateContacts. *)
Record Profile : Type := mkProfile {
  email : option jsstring;
  phone : option jsstring;
  firstName : option jsstring;
  lastName : option jsstring
}.

(** A contact row passed where a profile is expected. *)
Definition profileOf (c : Contact.t) : Profile :=
  mkProfile (Contact.email c) (Contact.phone c)
            (Some (Contact.firstName c)) (Some (Contact.lastName c)).

(** [Math.min(a, b)] on finite numbers. *)
Definition mathMin (a b : Q) : Q := if Qle_bool a b then a else b.

(** [Math.round(x)]: the nearest integer, halves upwards. *)
Definition mathRound (x : Q) : Z := Qfloor (x + (1 # 2)).

Definition someId (candidates : list DuplicateCandidate) (cid : Id) : bool :=
  existsb (fun c => eqb (id c) cid) candidates.

(** [and(eq(organizationId, org), eq(status, active))]. *)
Definition activeInOrg (organizationId : Id) (c : Contact.t) : bool :=
  eqb (Contact.organizationId c) organizationId && isActive (Contact.status c).

Definition optEqb (o : option jsstring) (s : jsstring) : bool :=
  match o with Some x => eqb x s | None => false end.

(** Pass 1: exact email match. *)
Definition emailPass (db : Db.t) (organizationId : Id) (p : Profile)
  : list DuplicateCandidate :=
  match email p with
  | Some e =>
      if truthy e then
        List.map (fun m => mkCandidate (Contact.id m) 1 ExactEmailMatch m)
          (filter (fun c => eqb (Contact.organizationId c) organizationId
                            && optEqb (Contact.email c) e
                            && isActive (Contact.status c))
                  (Db.contacts db))
      else []
  | None => []
  end.

(** Pass 2: exact match of the normalized phone numbers. *)
Definition phoneStep (normalizedPhone : jsstring)
  (candidates : list DuplicateCandidate) (m : Contact.t)
  : list DuplicateCandidate :=
  match Contact.phone m with
  | Some mph =>
      if truthy mph then
        let matchNormalizedPhone := Similarity.normalizePhoneNumber mph in
        if eqb matchNormalizedPhone normalizedPhone then
          if negb (someId candidates (Contact.id m)) then
            candidates ++ [mkCandidate (Contact.id m) (95 # 100) ExactPhoneMatch m]
          else candidates
        else candidates
      else candidates
  | None => candidates
  end.

Definition phonePass (db : Db.t) (organizationId : Id) (p : Profile)
  (candidates : list DuplicateCandidate) : list DuplicateCandidate :=
  match phone p with
  | Some ph =>
      if truthy ph then
        fold_left (phoneStep (Similarity.normalizePhoneNumber ph))
                  (filter (activeInOrg organizationId) (Db.contacts db))
                  candidates
      else candidates
  | None => candidates
  end.

Section WithHost.
Variable toLowerCase : jsstring -> jsstring.

(** The confidence of a fuzzy name hit, after the two boosts. *)
Definition fuzzyConfidence (p : Profile) (m : Contact.t) (avgSimilarity : Q) : Q :=
  let confidence := (avgSimilarity * (7 # 10))%Q in
  let confidence :=
    match email p, Contact.email m with
    | Some e, Some me =>
        if truthy e && truthy me && eqb (splitHead 64%N e) (splitHead 64%N me)
        then mathMin (confidence + (15 # 100)) (95 # 100)
        else confidence
    | _, _ => confidence
    end in
  match phone p, Contact.phone m with
  | Some ph, Some mph =>
      if truthy ph && truthy mph then
        let phoneDigits := Similarity.normalizePhoneNumber ph in
        let matchPhoneDigits := Similarity.normalizePhoneNumber mph in
        if eqb (sliceLast 4 phoneDigits) (sliceLast 4 matchPhoneDigits)
           && Nat.leb 4 (List.length phoneDigits)
        then mathMin (confidence + (1 # 10)) (95 # 100)
        else confidence
      else confidence
  | _, _ => confidence
  end.

(** Pass 3: fuzzy name matching. *)
Definition nameStep (p : Profile) (fn ln : jsstring) (threshold : Q)
  (candidates : list DuplicateCandidate) (m : Contact.t)
  : list DuplicateCandidate :=
  if someId candidates (Contact.id m) then candidates
  else
    let firstNameSimilarity :=
      Similarity.calculateSimilarity toLowerCase fn (Contact.firstName m) in
    let lastNameSimilarity :=
      Similarity.calculateSimilarity toLowerCase ln (Contact.lastName m) in
    let avgSimilarity := ((firstNameSimilarity + lastNameSimilarity) / 2)%Q in
    if Qle_bool threshold avgSimilarity then
      candidates ++
        [mkCandidate (Contact.id m) (fuzzyConfidence p m avgSimilarity)
           (FuzzyNameMatch (mathRound (avgSimilarity * 100)%Q)) m]
    else candidates.

Definition namePass (db : Db.t) (organizationId : Id) (p : Profile)
  (threshold : Q) (candidates : list DuplicateCandidate)
  : list DuplicateCandidate :=
  match firstName p, lastName p with
  | Some fn, Some ln =>
      if truthy fn && truthy ln then
        fold_left (nameStep p fn ln threshold)
                  (filter (activeInOrg organizationId) (Db.contacts db))
                  candidates
      else candidates
  | _, _ => candidates
  end.

(** The candidates in discovery order, before the final sort. *)
Definition discovered (db : Db.t) (organizationId : Id) (p : Profile)
  (threshold : Q) : list DuplicateCandidate :=
  namePass db organizationId p threshold
    (phonePass db organizationId p (emailPass db organizationId p)).

(** merger.ts: detectDuplicateContacts. *)
Definition detectDuplicateContacts (db : Db.t) (organizationId : Id)
  (p : Profile) (threshold : Q) : list DuplicateCandidate :=
  StableSort.sortDescQ confidence (discovered db organizationId p threshold).


(** [allTags.add(x)] on a Set kept in insertion order. *)
Definition setAdd (allTags : list jsstring) (x : jsstring) : list jsstring :=
  if arrayIncludes allTags x then allTags else allTags ++ [x].

(** The strings one [tags] column contributes: nothing when the column is
    null or empty, when JSON.parse throws, or when the document is not an
    array; otherwise [tag.trim().toLowerCase()] of each string element. *)
Definition tagStrings (tags : option Json.text) : list jsstring :=
  match tags with
  | Some (Json.Parses (Json.JArr items)) =>
      flat_map (fun tag => match tag with
                           | Json.JStr s => [toLowerCase (trim s)]
                           | _ => []
                           end) items
  | _ => []
  end.

(** merger.ts: mergeTags. *)
Definition mergeTags (tagArrays : list (option Json.text)) : list jsstring :=
  fold_left (fun allTags tags => fold_left setAdd (tagStrings tags) allTags)
            tagArrays [].

(** One property written by Object.assign: an existing key keeps its place
    and takes the new value, a new key is added.  (The engine's ordering of
    integer-like keys is not tracked.) *)
Fixpoint assignField (merged : list (jsstring * Json.t)) (k : jsstring)
  (v : Json.t) : list (jsstring * Json.t) :=
  match merged with
  | [] => [(k, v)]
  | (k', v') :: rest =>
      if eqb k' k then (k, v) :: rest else (k', v') :: assignField rest k v
  end.

Definition indexKey (i : nat) : jsstring :=
  js (NilEmpty.string_of_uint (Nat.to_uint i)).

(** The own enumerable properties of a parsed document that passes
    [typeof parsed === "object" && parsed !== null]: an object's fields, an
    array's elements under their indices. *)
Definition ownEntries (parsed : Json.t) : option (list (jsstring * Json.t)) :=
  match parsed with
  | Json.JObj fields => Some fields
  | Json.JArr items =>
      Some (combine (List.map indexKey (seq 0 (List.length items))) items)
  | _ => None
  end.

(** merger.ts: mergeCustomFields. *)
Definition mergeCustomFields (fieldObjects : list (option Json.text))
  : list (jsstring * Json.t) :=
  fold_left
    (fun merged fields =>
       match fields with
       | Some (Json.Parses parsed) =>
           match ownEntries parsed with
           | Some entries =>
               fold_left (fun acc kv => assignField acc (fst kv) (snd kv))
                         entries merged
           | None => merged
           end
       | _ => merged
       end)
    fieldObjects [].

(** [primary.f || duplicates.find((d) => d.f)?.f || null]. *)
Definition firstTruthy (f : Contact.t -> option jsstring) (primary : Contact.t)
  (duplicates : list Contact.t) : option jsstring :=
  if truthyOpt (f primary) then f primary
  else match find (fun d => truthyOpt (f d)) duplicates with
       | Some d => f d
       | None => None
       end.

Definition orZero (v : option Z) : Z :=
  match v with Some x => x | None => 0 end.

(** [merged.interactionCount] and [merged.lifetimeValue]: the sums over the
    primary and the duplicates (merger.ts, lines 324-329). *)
Definition mergedInteractionCount (primary : Contact.t)
  (duplicates : list Contact.t) : Z :=
  Contact.interactionCount primary
  + fold_left (fun sum d => sum + Contact.interactionCount d) duplicates 0.

Definition mergedLifetimeValue (primary : Contact.t)
  (duplicates : list Contact.t) : Z :=
  orZero (Contact.lifetimeValue primary)
  + fold_left (fun sum d => sum + orZero (Contact.lifetimeValue d)) duplicates 0.

(** The [merged] object of mergeContacts written onto the primary row,
    together with [updatedAt].  Both sums go to [integer] columns
    (tables.ts, lines 782-784): the update of mergeContactsTx below is
    refused when one of them does not fit. *)
Definition setMergedFields (now : Z) (primary : Contact.t)
  (duplicates : list Contact.t) (duplicateIds : list Id) (c : Contact.t)
  : Contact.t :=
  Contact.mk (Contact.id c) (Contact.organizationId c) (Contact.firstName c)
    (Contact.lastName c)
    (firstTruthy Contact.email primary duplicates)
    (firstTruthy Contact.phone primary duplicates)
    (firstTruthy Contact.company primary duplicates)
    (Contact.heatScore c)
    (Some (Json.Parses (Json.JArr (List.map Json.JStr
       (mergeTags (Contact.tags primary :: List.map Contact.tags duplicates))))))
    (firstTruthy Contact.channelPreference primary duplicates)
    (firstTruthy Contact.timezone primary duplicates)
    (Contact.lastInteractionAt c)
    (mergedInteractionCount primary duplicates)
    (Some (mergedLifetimeValue primary duplicates))
    (Contact.averageResponseTime c)
    (Some (Json.Parses (Json.JObj
       (mergeCustomFields
          (Contact.customFields primary :: List.map Contact.customFields duplicates)))))
    (Contact.status c) (Contact.mergedWithId c)
    (Contact.mergedContactIds primary ++ duplicateIds)
    now.

(** The body of the transaction of mergeContacts: the value it returns and
    the store it commits, or the error it throws.  The update of step 3
    writes the two sums to [integer] columns; the store refuses it when one
    of them is out of range, and the transaction ends there. *)
Definition mergeContactsTx (now : Z) (primaryId : Id) (duplicateIds : list Id)
  (db : Db.t) : Error + (Contact.t * Db.t) :=
  (* 1. Get all contacts *)
  match Db.findContact db primaryId with
  | None => inl (Err "Primary contact not found")
  | Some primary =>
      let duplicates :=
        filter (fun c => Db.inArray (Contact.id c) duplicateIds) (Db.contacts db) in
      match duplicates with
      | [] => inl (Err "No duplicate contacts found")
      | _ :: _ =>
          (* 2, 3. Combine information and update the primary contact *)
          if negb (Db.int4 (mergedInteractionCount primary duplicates)
                   && Db.int4 (mergedLifetimeValue primary duplicates))
          then inl Db.outOfRange else
          let db1 :=
            Db.updateContacts (fun c => eqb (Contact.id c) primaryId)
              (setMergedFields now primary duplicates duplicateIds) db in
          (* 4. Migrate all references to the primary contact *)
          let db2 :=
            Db.mk (Db.contacts db1)
              (Db.repoint primaryId duplicateIds (Db.conversations db1))
              (Db.repoint primaryId duplicateIds (Db.contactAgreements db1))
              (Db.repoint primaryId duplicateIds (Db.contactNotes db1))
              (Db.repoint primaryId duplicateIds (Db.contactSources db1))
              (Db.repoint primaryId duplicateIds (Db.agentAssignments db1))
              (Db.repoint primaryId duplicateIds (Db.formSubmissions db1))
              (Db.repoint primaryId duplicateIds (Db.voiceCalls db1)) in
          (* 5. Mark duplicates as merged *)
          let db3 :=
            Db.updateContacts (fun c => Db.inArray (Contact.id c) duplicateIds)
              (Contact.setMerged primaryId now) db2 in
          (* 7. Return the updated primary contact *)
          match Db.findContact db3 primaryId with
          | None => inl (Err "Failed to retrieve updated primary contact")
          | Some updatedPrimary => inr (updatedPrimary, db3)
          end
      end
  end.

(** merger.ts: mergeContacts.  The transaction commits or leaves the store
    untouched; the heat score of the primary is recalculated after the
    commit.  The result is what the promise settles to, with the store. *)
Definition mergeContacts (now : Z) (primaryId : Id) (duplicateIds : list Id)
  (db : Db.t) : (Error + Contact.t) * Db.t :=
  match mergeContactsTx now primaryId duplicateIds db with
  | inl e => (inl e, db)
  | inr (result, committed) =>
      match Scoring.recalculateHeatScore now committed primaryId with
      | inl e => (inl e, committed)
      | inr (_, db') => (inr result, db')
      end
  end.

(** One iteration of the loop of autoMergeHighConfidenceDuplicates. *)
Definition autoMergeStep (now : Z) (organizationId : Id)
  (state : nat * Db.t) (contact : Contact.t) : nat * Db.t :=
  let (mergeCount, db) := state in
  let duplicates :=
    detectDuplicateContacts db organizationId (profileOf contact) (9 # 10) in
  let highConfidenceDupes :=
    filter (fun d => Qle_bool (95 # 100) (confidence d)) duplicates in
  match highConfidenceDupes with
  | [] => (mergeCount, db)
  | _ :: _ =>
      match mergeContacts now (Contact.id contact)
              (List.map id highConfidenceDupes) db with
      | (inr _, db') => ((mergeCount + List.length highConfidenceDupes)%nat, db')
      | (inl _, db') => (mergeCount, db')
      end
  end.

(** merger.ts: autoMergeHighConfidenceDuplicates.  The contacts to visit
    are read once, before the loop. *)
Definition autoMergeHighConfidenceDuplicates (now : Z) (organizationId : Id)
  (db : Db.t) : nat * Db.t :=
  let contacts := filter (activeInOrg organizationId) (Db.contacts db) in
  fold_left (autoMergeStep now organizationId) contacts (0%nat, db).

(** The row [c] after a successful mergeContacts(primaryId, duplicateIds). *)
Definition afterMerge (now : Z) (primary : Contact.t) (primaryId : Id)
  (duplicateIds : list Id) (db : Db.t) (score : Z) (c : Contact.t) : Contact.t :=
  let duplicates :=
    filter (fun c => Db.inArray (Contact.id c) duplicateIds) (Db.contacts db) in
  let c1 := if eqb (Contact.id c) primaryId
            then setMergedFields now primary duplicates duplicateIds c
            else c in
  let c2 := if Db.inArray (Contact.id c1) duplicateIds
            then Contact.setMerged primaryId now c1 else c1 in
  if eqb (Contact.id c2) primaryId then Contact.setHeatScore score now c2 else c2.

End WithHost.

(** What each pass promises about the confidence it assigns. *)
Definition wellScored (c : DuplicateCandidate) : Prop :=
  match matchReason c with
  | ExactEmailMatch => (confidence c == 1)%Q
  | ExactPhoneMatch => (confidence c == 95 # 100)%Q
  | FuzzyNameMatch _ => (confidence c <= 95 # 100)%Q
  end.

(** The contact ids are unique: the primary key of the table. *)
Definition uniqueIds (db : Db.t) : Prop :=
  NoDup (List.map Contact.id (Db.contacts db)).

(** [new] is [old] with every row that pointed at [d1] or [d2] pointing at
    [p], and every other row as it was. *)
Definition repointed (p d1 d2 : Id) (old new : list Db.Linked) : Prop :=
  Forall2 (fun o n =>
             Db.rowId n = Db.rowId o
             /\ ((Db.contactId o = d1 \/ Db.contactId o = d2) -> Db.contactId n = p)
             /\ (Db.contactId o <> d1 -> Db.contactId o <> d2 ->
                 Db.contactId n = Db.contactId o))
          old new.

(** The contribution of the row with key [d], if there is one. *)
Definition ofId (f : Contact.t -> Z) (d : Id) (l : list Contact.t) : Z :=
  match find (fun c => eqb (Contact.id c) d) l with
  | Some c => f c
  | None => 0
  end.

(** The merge invariant of the contact table: a merged contact points at
    an existing contact that is active. *)
Definition mergeInvariant (db : Db.t) : bool :=
  forallb (fun c =>
             match Contact.status c with
             | merged =>
                 match Contact.mergedWithId c with
                 | Some target =>
                     match Db.findContact db target with
                     | Some t => isActive (Contact.status t)
                     | None => false
                     end
                 | None => false
                 end
             | _ => true
             end)
          (Db.contacts db).

End Merger.

(* ------------------------------------------------------------------ *)
(** ** Agent router (manager.ts, lines 29-107) *)

Inductive AgentType : Type :=
| sales | support | scheduler | qualifier | custom.

Inductive VoiceProvider : Type :=
| elevenlabs | vapi | retell | none.

(** A row of the agent table.  The JSON text columns are written by the
    agent router with JSON.stringify only (organization-agent-router.ts,
    lines 87-90 and 125-135), so a non-null column is represented by the
    document JSON.parse returns for it. *)
Module Agent.
Record t : Type := mk {
  id : Id;
  organizationId : Id;
  type : AgentType;
  voiceProvider : VoiceProvider;
  systemPrompt : Js.jsstring;
  temperature : option Z;
  maxTokens : option Z;
  model : Js.jsstring;
  allowedActions : option Json.t;
  assignToChannels : option Json.t;
  assignToCampaigns : option Json.t;
  active : bool
}.
End Agent.

Module AgentManager.
Import Js.

Record AgentSelectionCriteria : Type := mkCriteria {
  channel : jsstring;
  contactId : option Id;
  intent : option jsstring;
  campaign : option jsstring
}.

(** [Array.isArray(doc) && doc.includes(x)] for a string [x]; a null
    column stands for the empty array. *)
Definition arrayDocIncludes (column : option Json.t) (x : jsstring) : bool :=
  match column with
  | Some (Json.JArr items) =>
      existsb (fun item => match item with
                           | Json.JStr s => eqb s x
                           | _ => false
                           end) items
  | _ => false
  end.

Definition isArrayDoc (column : option Json.t) : bool :=
  match column with
  | Some (Json.JArr _) | None => true
  | _ => false
  end.

(** 1. Channel matching. *)
Definition channelPoints (agent : Agent.t) (criteria : AgentSelectionCriteria) : Z :=
  if arrayDocIncludes (Agent.assignToChannels agent) (channel criteria)
  then 30 else 0.

(** 2. Campaign matching. *)
Definition campaignPoints (agent : Agent.t) (criteria : AgentSelectionCriteria) : Z :=
  match campaign criteria with
  | Some cmp =>
      if truthy cmp && isArrayDoc (Agent.assignToCampaigns agent) then
        if arrayDocIncludes (Agent.assignToCampaigns agent) cmp then 25 else 0
      else 0
  | None => 0
  end.

(** 3. Agent type priority: the if / else-if chain. *)
Definition typePoints (agent : Agent.t) (criteria : AgentSelectionCriteria) : Z :=
  match Agent.type agent with
  | qualifier => if negb (truthyOpt (contactId criteria)) then 20 else 0
  | sales => if Merger.optEqb (intent criteria) (js "purchase") then 20 else 0
  | support => if Merger.optEqb (intent criteria) (js "help") then 20 else 0
  | scheduler => if Merger.optEqb (intent criteria) (js "schedule") then 20 else 0
  | custom => 0
  end.

(** 4. Voice capability for calls. *)
Definition voicePoints (agent : Agent.t) (criteria : AgentSelectionCriteria) : Z :=
  if eqb (channel criteria) (js "calls")
     && match Agent.voiceProvider agent with none => false | _ => true end
  then 15 else 0.

(** The [score] computed in the callback of [agents.map]. *)
Definition agentScore (criteria : AgentSelectionCriteria) (agent : Agent.t) : Z :=
  0 + channelPoints agent criteria + campaignPoints agent criteria
    + typePoints agent criteria + voicePoints agent criteria + 10.

(** The active agents of the organization, in storage order. *)
Definition activeAgents (agents : list Agent.t) (organizationId : Id)
  : list Agent.t :=
  filter (fun a => eqb (Agent.organizationId a) organizationId && Agent.active a)
         agents.

(** manager.ts: AgentManager.selectBestAgent. *)
Definition selectBestAgent (table : list Agent.t) (organizationId : Id)
  (criteria : AgentSelectionCriteria) : option Agent.t :=
  let agents := activeAgents table organizationId in
  match agents with
  | [] => None
  | _ :: _ =>
      let scoredAgents := List.map (fun agent => (agent, agentScore criteria agent)) agents in
      let scoredAgents := StableSort.sortDescZ snd scoredAgents in
      match scoredAgents with
      | first :: _ => Some (fst first)
      | [] => None
      end
  end.






End AgentManager.

(* ------------------------------------------------------------------ *)
(** ** Decision engine (decision-maker, lines 344-725 of the listing) *)

Module DecisionMaker.
Import Js.

(** The part of ContactContext that decideActions reads. *)
Record ContactContext : Type := mkContext {
  contactId : Id;
  contactTags : list jsstring;
  contactLifetimeValue : Z
}.

(** [params] of an action, by the literal that builds it. *)
Inductive Params : Type :=
| SendLink (conversationId url title : jsstring)
| SendDocument (conversationId documentType : jsstring)
| CreateQuote (conversationId contactId : jsstring) (items : list unit)
| ScheduleMeeting (conversationId contactId : jsstring) (proposedTimes : list jsstring)
| TransferToHuman (conversationId reason priority : jsstring)
| CreateNote (contactId content : jsstring) (isImportant : bool)
| UpdateTags (contactId : jsstring) (tags : list jsstring)
| SearchProduct (query conversationId : jsstring).

Record Action : Type := mkAction {
  type : jsstring;
  params : Params;
  priority : Z
}.

(** [params.url], when the params carry one. *)
Definition paramsUrl (p : Params) : option jsstring :=
  match p with
  | SendLink _ url _ => Some url
  | _ => None
  end.

(** The longest prefix without a [\s] code unit. *)
Fixpoint takeNonSpace (s : jsstring) : jsstring :=
  match s with
  | c :: s' => if isWhiteSpace c then [] else c :: takeNonSpace s'
  | [] => []
  end.

Definition noSpace (s : jsstring) : bool :=
  forallb (fun c => negb (isWhiteSpace c)) s.

(** The text is at its end, or goes on with a [\s] code unit. *)
Definition endsOrSpace (post : jsstring) : Prop :=
  post = [] \/ exists w post', post = w :: post' /\ isWhiteSpace w = true.

(** The run of code units other than [\s] that [pre] ends in. *)
Definition lastRun (pre : jsstring) : jsstring := rev (takeNonSpace (rev pre)).

(** The match of [/(https?:\/\/[^\s]+)/] anchored at the start of [s]. *)
Definition matchUrlAt (s : jsstring) : option jsstring :=
  if startsWith s (js "https://") then
    match takeNonSpace (skipn 8 s) with
    | [] => None
    | body => Some (js "https://" ++ body)
    end
  else if startsWith s (js "http://") then
    match takeNonSpace (skipn 7 s) with
    | [] => None
    | body => Some (js "http://" ++ body)
    end
  else None.

(** The global scan of [text.match(urlRegex)]: [skip] code units are still
    covered by the last match; after a match the search resumes behind it. *)
Fixpoint scanUrls (skip : nat) (s : jsstring) : list jsstring :=
  match s with
  | [] => []
  | _ :: s' =>
      match skip with
      | S k => scanUrls k s'
      | O =>
          match matchUrlAt s with
          | Some m => m :: scanUrls (List.length m - 1) s'
          | None => scanUrls 0 s'
          end
      end
  end.

(** decision-maker: extractUrls. *)
Definition extractUrls (text : jsstring) : list jsstring := scanUrls 0 text.

(** decision-maker: extractQuoteItems (a placeholder in the source). *)
Definition extractQuoteItems (response : jsstring) : list unit := [].

(** The phrase tables of detectIntent, in the order of Object.entries.
    237, 225, 243 are i-acute, a-acute, o-acute. *)
Definition intentPatterns : list (jsstring * list jsstring) :=
  [ (js "link",
      [js "enviar enlace";
       js "aqu" ++ [237%N] ++ js " est" ++ [225%N] ++ js " el link";
       js "puedes ver en"; js "send link"; js "here's the link"]);
    (js "document",
      [js "enviar documento"; js "adjunto"; js "archivo"; js "send document";
       js "attachment"; js "file"]);
    (js "quote",
      [js "cotizaci" ++ [243%N] ++ js "n"; js "presupuesto"; js "precio";
       js "costo"; js "quote"; js "estimate"; js "price"]);
    (js "meeting",
      [js "reuni" ++ [243%N] ++ js "n"; js "cita"; js "llamada"; js "agendar";
       js "meeting"; js "appointment"; js "schedule"]);
    (js "escalate",
      [js "transferir"; js "hablar con"; js "agente humano"; js "transfer";
       js "speak with"; js "human agent"]);
    (js "product",
      [js "producto"; js "inventario"; js "stock"; js "disponible"; js "product";
       js "inventory"; js "available"]);
    (js "important",
      [js "importante"; js "nota"; js "recordar"; js "important"; js "note";
       js "remember"]) ].

(** The explicit escalation phrases of shouldEscalate. *)
Definition escalationPhrases : list jsstring :=
  [js "transferir"; js "conectar con"; js "hablar con un agente";
   js "necesita asistencia especializada"; js "transfer"; js "connect with";
   js "speak to an agent"; js "needs specialized assistance"].

(** [allowedActions.includes(x)] once the column is parsed: an array
    compares its elements, a string searches a substring, a null column is
    the empty array; on any other document the call throws a TypeError. *)
Definition allowedOf (column : option Json.t) : option (jsstring -> bool) :=
  match column with
  | None => Some (fun _ => false)
  | Some (Json.JArr items) =>
      Some (fun x => existsb (fun item => match item with
                                          | Json.JStr s => eqb s x
                                          | _ => false
                                          end) items)
  | Some (Json.JStr s) => Some (fun x => includes s x)
  | Some _ => None
  end.

Section WithHost.
Variable toLowerCase : jsstring -> jsstring.
(** Helpers that only fill in parameters through regular expressions of
    their own; their matching is left to the host. *)
Variable extractLinkTitle : jsstring -> jsstring -> jsstring.
Variable extractTimeProposals : jsstring -> list jsstring.
Variable extractEscalationReason : jsstring -> jsstring.
Variable extractProductQuery : jsstring -> option jsstring.

(** decision-maker: detectIntent. *)
Definition detectIntent (response : jsstring) : list jsstring :=
  let lowerResponse := toLowerCase response in
  flat_map (fun entry =>
              if existsb (fun pattern => includes lowerResponse pattern) (snd entry)
              then [fst entry] else [])
           intentPatterns.

(** decision-maker: detectDocumentType. *)
Definition detectDocumentType (response : jsstring) : jsstring :=
  if includes (toLowerCase response) (js "pdf") then js "pdf"
  else if includes (toLowerCase response) (js "contrato") then js "contract"
  else if includes (toLowerCase response) (js "factura") then js "invoice"
  else if includes (toLowerCase response) (js "recibo") then js "receipt"
  else js "document".

(** decision-maker: shouldEscalate. *)
Definition shouldEscalate (response : jsstring) (context : ContactContext) : bool :=
  let lowerResponse := toLowerCase response in
  if existsb (fun phrase => includes lowerResponse phrase) escalationPhrases
  then true
  else if arrayIncludes (contactTags context) (js "vip")
          && (100000 <? contactLifetimeValue context)
  then true
  else false.

(** decision-maker: extractTags. *)
Definition extractTags (response : jsstring) (context : ContactContext)
  : list jsstring :=
  let newTags :=
    (if includes (toLowerCase response) (js "interesado")
        || includes (toLowerCase response) (js "interested")
     then [js "interested"] else [])
    ++
    (if includes (toLowerCase response) (js "cotizaci" ++ [243%N] ++ js "n")
        || includes (toLowerCase response) (js "quote")
     then [js "quote-requested"] else []) in
  filter (fun tag => negb (arrayIncludes (contactTags context) tag)) newTags.

(** The actions in the order decideActions pushes them. *)
Definition emitted (allowed : jsstring -> bool) (aiResponse : jsstring)
  (context : ContactContext) (conversationId : Id) : list Action :=
  let intent := detectIntent aiResponse in
  (* 1. link sending *)
  (if allowed (js "send-link")
      && (arrayIncludes intent (js "link") || includes aiResponse (js "http"))
   then List.map (fun url =>
                    mkAction (js "send-link")
                      (SendLink conversationId url (extractLinkTitle aiResponse url))
                      5)
                 (extractUrls aiResponse)
   else [])
  ++ (* 2. document sending *)
  (if allowed (js "send-document")
      && (arrayIncludes intent (js "document") || arrayIncludes intent (js "file"))
   then [mkAction (js "send-document")
           (SendDocument conversationId (detectDocumentType aiResponse)) 7]
   else [])
  ++ (* 3. quotation creation *)
  (if allowed (js "create-quote")
      && (arrayIncludes intent (js "quote") || arrayIncludes intent (js "price")
          || arrayIncludes intent (js "cost"))
   then [mkAction (js "create-quote")
           (CreateQuote conversationId (contactId context)
                        (extractQuoteItems aiResponse)) 9]
   else [])
  ++ (* 4. meeting scheduling *)
  (if allowed (js "schedule-meeting")
      && (arrayIncludes intent (js "meeting")
          || arrayIncludes intent (js "appointment")
          || arrayIncludes intent (js "call"))
   then [mkAction (js "schedule-meeting")
           (ScheduleMeeting conversationId (contactId context)
                            (extractTimeProposals aiResponse)) 8]
   else [])
  ++ (* 5. escalation to human *)
  (if allowed (js "transfer-to-human") && shouldEscalate aiResponse context
   then [mkAction (js "transfer-to-human")
           (TransferToHuman conversationId (extractEscalationReason aiResponse)
                            (js "high")) 10]
   else [])
  ++ (* 6. note creation *)
  (if allowed (js "create-note") && arrayIncludes intent (js "important")
   then [mkAction (js "create-note")
           (CreateNote (contactId context) aiResponse true) 3]
   else [])
  ++ (* 7. tag update *)
  (if allowed (js "update-tags")
   then match extractTags aiResponse context with
        | [] => []
        | newTags => [mkAction (js "update-tags")
                        (UpdateTags (contactId context) newTags) 2]
        end
   else [])
  ++ (* 8. product search *)
  (if allowed (js "search-product")
      && (arrayIncludes intent (js "product") || arrayIncludes intent (js "stock"))
   then match extractProductQuery aiResponse with
        | Some searchQuery =>
            if truthy searchQuery
            then [mkAction (js "search-product")
                    (SearchProduct searchQuery conversationId) 6]
            else []
        | None => []
        end
   else []).

(** decision-maker: decideActions. *)
Definition decideActions (aiResponse : jsstring) (agent : Agent.t)
  (context : ContactContext) (conversationId : Id) : Error + list Action :=
  match allowedOf (Agent.allowedActions agent) with
  | None => inl (Err "TypeError: allowedActions.includes is not a function")
  | Some allowed =>
      inr (StableSort.sortDescZ priority
             (emitted allowed aiResponse context conversationId))
  end.

End WithHost.
End DecisionMaker.

(* ------------------------------------------------------------------ *)
(** ** Orchestration pipeline (engine: processMessage, getOrAssignAgent,
       getConversationHistory, callAIModel) *)

Inductive MessageRole : Type := user | assistant | system | humanAgent.
Inductive MessageDirection : Type := inbound | outbound.

Definition isSystem (r : MessageRole) : bool :=
  match r with system => true | _ => false end.

(** A row of the conversation_message table. *)
Module Message.
Record t : Type := mk {
  conversationId : Id;
  direction : MessageDirection;
  role : MessageRole;
  content : Js.jsstring;
  channel : Js.jsstring;
  generatedByAi : bool;
  model : option Js.jsstring;
  creditsUsed : option Z;
  actionTriggered : option (list DecisionMaker.Action);
  createdAt : Z
}.
End Message.

(** A row of the agent_assignment table. *)
Module Assignment.
Record t : Type := mk {
  id : Id;
  conversationId : Id;
  agentId : Id;
  contactId : Id;
  unassignedAt : option Z;
  messagesHandled : Z;
  creditsUsed : Z
}.
End Assignment.

(** A row of the conversation table. *)
Module Conversation.
Record t : Type := mk {
  id : Id;
  contactId : Id;
  channel : Js.jsstring
}.
End Conversation.

Module Core.
Import Js.

(** The messages of a conversation in the order of the index on
    (conversationId, createdAt) (tables.ts,
    conversation_message_conv_created_idx): by timestamp, rows with equal
    timestamps in the order of their insertion.  Messages are only ever
    appended to the table, so the table lists them in that order. *)
Definition timeline (table : list Message.t) (conversationId : Id)
  : list Message.t :=
  StableSort.sortAscZ Message.createdAt
    (filter (fun m => eqb (Message.conversationId m) conversationId) table).

(** [findMany({ where: eq(conversationId, c), orderBy: desc(createdAt), limit })]:
    the first [limit] rows of that index read backwards, so that rows with
    equal timestamps come latest inserted first. *)
Definition recentMessages (table : list Message.t) (conversationId : Id)
  (limit : nat) : list Message.t :=
  firstn limit (rev (timeline table conversationId)).

(** engine: getConversationHistory. *)
Definition getConversationHistory (table : list Message.t) (conversationId : Id)
  (limit : nat) : list (MessageRole * jsstring) :=
  let messages := recentMessages table conversationId limit in
  filter (fun msg => negb (isSystem (fst msg)))
    (List.map (fun msg => (Message.role msg, Message.content msg))
       (rev messages)).

Definition notSystem (m : Message.t) : bool := negb (isSystem (Message.role m)).

Definition chronological (a b : Message.t) : Prop :=
  Message.createdAt a <= Message.createdAt b.

(** The last [n] elements of a list. *)
Definition lastN {A : Type} (n : nat) (l : list A) : list A :=
  skipn (List.length l - n) l.

(** The history as the specification words it: the non-system messages of
    the conversation ordered by creation timestamp, ties broken by insertion
    order; of these the last [limit], oldest first. *)
Definition specHistory (table : list Message.t) (conversationId : Id)
  (limit : nat) : list (MessageRole * jsstring) :=
  List.map (fun msg => (Message.role msg, Message.content msg))
    (lastN limit
       (StableSort.sortAscZ Message.createdAt
          (filter notSystem
             (filter (fun m => eqb (Message.conversationId m) conversationId)
                     table)))).

Inductive LogEntry : Type :=
| LogInfo (message : string)
| LogError (error : Error) (conversationId : Id) (message : string).

Record ProcessMessageInput : Type := mkInput {
  conversationId : Id;
  messageContent : jsstring;
  organizationId : Id;
  contactId : Id;
  channel : jsstring
}.

Inductive ActionStatus : Type := success | failed.

Record ProcessMessageResult : Type := mkResult {
  response : jsstring;
  actionsTriggered : list (jsstring * ActionStatus * option Json.t);
  creditsUsed : Z;
  model : jsstring
}.

(** What getOrAssignAgent resolves to: the assignment row and its agent. *)
Record AssignedAgent : Type := mkAssigned {
  assignment : Assignment.t;
  agent : option Agent.t
}.

Section Pipeline.
(** The state of the collaborators outside the core: the billing ledger,
    the contact memory and the tables only the action handlers write. *)
Variable Ext : Type.

Record World : Type := mkWorld {
  agents : list Agent.t;
  conversations : list Conversation.t;
  assignments : list Assignment.t;
  messages : list Message.t;
  ext : Ext;
  log : list LogEntry
}.

(** Computations that read and write the world and may throw; what was
    written before a throw stays written. *)
Definition M (A : Type) : Type := World -> (Error + A) * World.

Definition ret {A : Type} (a : A) : M A := fun w => (inr a, w).
Definition throw {A : Type} (e : Error) : M A := fun w => (inl e, w).
Definition bind {A B : Type} (m : M A) (f : A -> M B) : M B :=
  fun w => match m w with
           | (inl e, w') => (inl e, w')
           | (inr a, w') => f a w'
           end.
Definition tryCatch {A : Type} (m : M A) (handler : Error -> M A) : M A :=
  fun w => match m w with
           | (inl e, w') => handler e w'
           | (inr a, w') => (inr a, w')
           end.

Local Notation "x <- m ;; k" := (bind m (fun x => k))
  (at level 61, m at next level, right associativity).

Definition setAssignments (f : list Assignment.t -> list Assignment.t) : M unit :=
  fun w => (inr tt, mkWorld (agents w) (conversations w) (f (assignments w))
                            (messages w) (ext w) (log w)).
(** [db.insert(conversationMessageTable).values(m)].  The row refers to
    its conversation (tables.ts, lines 1039-1041): the store refuses it when
    that conversation does not exist. *)
Definition insertMessage (m : Message.t) : M unit :=
  fun w =>
    if existsb (fun c => eqb (Conversation.id c) (Message.conversationId m))
               (conversations w)
    then (inr tt, mkWorld (agents w) (conversations w) (assignments w)
                          (messages w ++ [m]) (ext w) (log w))
    else (inl Db.foreignKey, w).
Definition writeLog (entry : LogEntry) : M unit :=
  fun w => (inr tt, mkWorld (agents w) (conversations w) (assignments w)
                            (messages w) (ext w) (log w ++ [entry])).
Definition onExt {A : Type} (f : Ext -> (Error + A) * Ext) : M A :=
  fun w => let (r, x) := f (ext w) in
           (r, mkWorld (agents w) (conversations w) (assignments w)
                       (messages w) x (log w)).
(** A collaborator that has its own state and writes to the logger. *)
Definition onLedger {A : Type}
  (f : Ext * list LogEntry -> (Error + A) * (Ext * list LogEntry)) : M A :=
  fun w => match f (ext w, log w) with
           | (r, (x, entries)) =>
               (r, mkWorld (agents w) (conversations w) (assignments w)
                           (messages w) x entries)
           end.

Variable toLowerCase : jsstring -> jsstring.
Variable extractLinkTitle : jsstring -> jsstring -> jsstring.
Variable extractTimeProposals : jsstring -> list jsstring.
Variable extractEscalationReason : jsstring -> jsstring.
Variable extractProductQuery : jsstring -> option jsstring.
(** [Date.now()] and the key the store generates for an inserted row. *)
Variable now : Z.
Variable uuid : Id.
(** context-builder: buildContext, a read of the contact memory. *)
Variable buildContext : Id -> Id -> Ext -> Error + DecisionMaker.ContactContext.
(** engine: buildSystemPrompt, pure text assembly. *)
Variable buildSystemPrompt : Agent.t -> DecisionMaker.ContactContext -> jsstring.
(** Step 7 of processMessage,
    [Promise.allSettled(actions.map((action) => actionsExecutor.execute(action)))].
    The executor and the handlers it calls write to the logger, to the
    message table and to other tables, and the handlers of one message run
    concurrently, so the order of their writes is not fixed by the code.
    The step as a whole is a parameter: it yields the outcomes and leaves
    some world.  It does not throw: [execute] is an async function, and
    allSettled never rejects. *)
Variable allSettled :
  list DecisionMaker.Action -> World -> list (Error + Json.t) * World.
(** billing/credits: consumeCredits({ organizationId, amount, description,
    metadata: { conversationId, agentId } }), awaited for its completion
    only.  It works on the ledger's own state and may write to the logger;
    it returns or throws. *)
Variable consumeCredits :
  Id -> Z -> Id -> Id -> Ext * list LogEntry
  -> (Error + unit) * (Ext * list LogEntry).

(** engine: getOrAssignAgent. *)
Definition getOrAssignAgent (conversationId organizationId : Id)
  : M AssignedAgent :=
  fun w =>
    match find (fun a => eqb (Assignment.conversationId a) conversationId
                         && match Assignment.unassignedAt a with
                            | None => true | Some _ => false end)
               (assignments w) with
    | Some existing =>
        (inr (mkAssigned existing
                (find (fun g => eqb (Agent.id g) (Assignment.agentId existing))
                      (agents w))), w)
    | None =>
        match find (fun c => eqb (Conversation.id c) conversationId)
                   (conversations w) with
        | None => (inl (Err "Conversation not found"), w)
        | Some conversation =>
            match AgentManager.selectBestAgent (agents w) organizationId
                    (AgentManager.mkCriteria (Conversation.channel conversation)
                       (Some (Conversation.contactId conversation)) None None) with
            | None => (inl (Err "No suitable agent found"), w)
            | Some selectedAgent =>
                let row :=
                  Assignment.mk uuid conversationId (Agent.id selectedAgent)
                    (Conversation.contactId conversation) None 0 0 in
                (inr (mkAssigned row (Some selectedAgent)),
                 mkWorld (agents w) (conversations w) (assignments w ++ [row])
                         (messages w) (ext w) (log w))
            end
        end
    end.

(** engine: callAIModel, the placeholder of the source: a fixed text around
    the user message (34 is the quotation mark) and 150 tokens. *)
Definition callAIModel (systemPrompt : jsstring)
  (history : list (MessageRole * jsstring)) (userMessage : jsstring)
  (temperature maxTokens : Z) (model : jsstring) : M (jsstring * Z) :=
  _ <- writeLog (LogInfo "AI model call (placeholder)") ;;
  ret (js "This is a placeholder AI response. The actual AI integration will be implemented in production. User message was: "
         ++ [34%N] ++ userMessage ++ [34%N],
       150).

(** Step 7 as a computation. *)
Definition executeActions (actions : list DecisionMaker.Action)
  : M (list (Error + Json.t)) :=
  fun w => let (results, w') := allSettled actions w in (inr results, w').

(** The counters that step 11 writes are [integer] columns (tables.ts,
    lines 1173-1174). *)
Definition statsFit (a : Assignment.t) (tokensUsed : Z) : bool :=
  Db.int4 (Assignment.messagesHandled a + 1)
  && Db.int4 (Assignment.creditsUsed a + tokensUsed).

(** Step 11: the update of the assignment row read in step 1. *)
Definition updateStats (a : Assignment.t) (tokensUsed : Z) : M unit :=
  if truthy (Assignment.id a) then
    if statsFit a tokensUsed then
      setAssignments
        (List.map (fun r =>
           if eqb (Assignment.id r) (Assignment.id a)
           then Assignment.mk (Assignment.id r) (Assignment.conversationId r)
                  (Assignment.agentId r) (Assignment.contactId r)
                  (Assignment.unassignedAt r)
                  (Assignment.messagesHandled a + 1)
                  (Assignment.creditsUsed a + tokensUsed)
           else r))
    else throw Db.outOfRange
  else ret tt.

(** [actionResults.map((result, i) => ({ action, status, result }))]. *)
Definition reportActions (actionResults : list (Error + Json.t))
  (actions : list DecisionMaker.Action)
  : list (jsstring * ActionStatus * option Json.t) :=
  List.map (fun ra : (Error + Json.t) * DecisionMaker.Action =>
              let (result, action) := ra in
              (if truthy (DecisionMaker.type action)
               then DecisionMaker.type action else js "unknown",
               match result with inr _ => success | inl _ => failed end,
               match result with inr v => Some v | inl _ => None end))
           (combine actionResults actions).

Definition orDefault (v : option Z) (d : Z) : Z :=
  match v with
  | Some 0 | None => d
  | Some x => x
  end.

(** The body of the [try] block of processMessage. *)
Definition processMessageBody (input : ProcessMessageInput)
  : M ProcessMessageResult :=
  (* 1. Get or assign agent to conversation *)
  assigned <- getOrAssignAgent (conversationId input) (organizationId input) ;;
  match agent assigned with
  | None => throw (Err "No agent available for conversation")
  | Some agent =>
      (* 2. Build context *)
      context <- onExt (fun x => (buildContext (contactId input)
                                    (conversationId input) x, x)) ;;
      (* 3. Get conversation history *)
      history <- (fun w => (inr (getConversationHistory (messages w)
                                   (conversationId input) 20), w)) ;;
      (* 4. Prepare system prompt *)
      let systemPrompt := buildSystemPrompt agent context in
      (* 5. Call AI model *)
      aiResponse <- callAIModel systemPrompt history (messageContent input)
                      (orDefault (Agent.temperature agent) 70)
                      (orDefault (Agent.maxTokens agent) 1000)
                      (Agent.model agent) ;;
      let (content, tokensUsed) := aiResponse in
      (* 6. Decide actions *)
      actions <- (fun w => (DecisionMaker.decideActions toLowerCase
                              extractLinkTitle extractTimeProposals
                              extractEscalationReason extractProductQuery
                              content agent context (conversationId input), w)) ;;
      (* 7. Execute actions *)
      actionResults <- executeActions actions ;;
      (* 8. Save AI message *)
      _ <- insertMessage
             (Message.mk (conversationId input) outbound assistant content
                (channel input) true (Some (Agent.model agent)) (Some tokensUsed)
                (match actions with [] => None | _ => Some actions end) now) ;;
      (* 10. Deduct credits *)
      _ <- onLedger (consumeCredits (organizationId input) tokensUsed
                       (conversationId input) (Agent.id agent)) ;;
      (* 11. Update assignment stats *)
      _ <- updateStats (assignment assigned) tokensUsed ;;
      ret (mkResult content (reportActions actionResults actions)
             tokensUsed (Agent.model agent))
  end.

(** engine: processMessage: the body, and the [catch] that logs and
    rethrows. *)
Definition processMessage (input : ProcessMessageInput)
  : M ProcessMessageResult :=
  tryCatch (processMessageBody input)
    (fun error =>
       _ <- writeLog (LogError error (conversationId input)
                        "Failed to process message") ;;
       throw error).

(** What steps 1 to 8 leave behind for the rest of the pipeline. *)
Record Persisted : Type := mkPersisted {
  p_assigned : AssignedAgent;
  p_agent : Agent.t;
  p_content : jsstring;
  p_tokens : Z;
  p_actions : list DecisionMaker.Action;
  p_results : list (Error + Json.t)
}.

(** The outbound row that step 8 inserts. *)
Definition outboundRow (input : ProcessMessageInput) (st : Persisted) : Message.t :=
  Message.mk (conversationId input) outbound assistant (p_content st)
    (channel input) true (Some (Agent.model (p_agent st))) (Some (p_tokens st))
    (match p_actions st with [] => None | _ => Some (p_actions st) end) now.

(** Steps 1 to 8 of processMessage, up to the persisted outbound message. *)
Definition persistStage (input : ProcessMessageInput) : M Persisted :=
  bind (getOrAssignAgent (conversationId input) (organizationId input))
    (fun assigned =>
  match agent assigned with
  | None => throw (Err "No agent available for conversation")
  | Some agent =>
  bind (onExt (fun x => (buildContext (contactId input) (conversationId input) x, x)))
    (fun context =>
  bind (fun w => (inr (getConversationHistory (messages w) (conversationId input) 20), w))
    (fun history =>
  bind (callAIModel (buildSystemPrompt agent context) history (messageContent input)
          (orDefault (Agent.temperature agent) 70)
          (orDefault (Agent.maxTokens agent) 1000) (Agent.model agent))
    (fun aiResponse =>
  bind (fun w => (DecisionMaker.decideActions toLowerCase extractLinkTitle
                    extractTimeProposals extractEscalationReason
                    extractProductQuery (fst aiResponse) agent context
                    (conversationId input), w))
    (fun actions =>
  bind (executeActions actions)
    (fun actionResults =>
  let st := mkPersisted assigned agent (fst aiResponse) (snd aiResponse)
              actions actionResults in
  bind (insertMessage (outboundRow input st))
    (fun _ => ret st))))))
  end).

(** Steps 10 and 11 and the returned result. *)
Definition chargeStage (input : ProcessMessageInput) (st : Persisted)
  : M ProcessMessageResult :=
  bind (onLedger (consumeCredits (organizationId input) (p_tokens st)
                    (conversationId input) (Agent.id (p_agent st))))
    (fun _ =>
  bind (updateStats (assignment (p_assigned st)) (p_tokens st))
    (fun _ =>
  ret (mkResult (p_content st) (reportActions (p_results st) (p_actions st))
         (p_tokens st) (Agent.model (p_agent st))))).

(** The world in which the [catch] of processMessage leaves: [w] with the
    error entry at the end of the log. *)
Definition afterCatch (input : ProcessMessageInput) (e : Error) (w : World)
  : World :=
  mkWorld (agents w) (conversations w) (assignments w) (messages w) (ext w)
    (log w ++ [LogError e (conversationId input) "Failed to process message"]).

End Pipeline.

Arguments mkWorld {Ext}.
Arguments agents {Ext}.
Arguments conversations {Ext}.
Arguments assignments {Ext}.
Arguments messages {Ext}.
Arguments ext {Ext}.
Arguments log {Ext}.
Arguments ret {Ext A}.
Arguments throw {Ext A}.
Arguments bind {Ext A B}.
Arguments tryCatch {Ext A}.
Arguments setAssignments {Ext}.
Arguments insertMessage {Ext}.
Arguments writeLog {Ext}.
Arguments onExt {Ext A}.
Arguments onLedger {Ext A}.
Arguments getOrAssignAgent {Ext}.
Arguments callAIModel {Ext}.
Arguments executeActions {Ext}.
Arguments updateStats {Ext}.
Arguments afterCatch {Ext}.
Arguments processMessageBody {Ext}.
Arguments processMessage {Ext}.
Arguments persistStage {Ext}.
Arguments chargeStage {Ext}.
End Core.

(* ------------------------------------------------------------------ *)
(** ** Concrete stores, agents, messages and runs used in the examples *)

Module Examples.
Import Js.

Definition coldContact : Contact.t :=
  Contact.mk (js "c") (js "org") (js "Ana") (js "Lopez") None None None
    0 None None None None 0 (Some 0) None None active None [] 0.

Definition warmContact : Contact.t :=
  Contact.mk (js "w") (js "org") (js "Ana") (js "Lopez") None None None
    0 None None None (Some 0) 20 (Some 120000) (Some 60) None active None [] 0.

Definition exampleAgent (name : string) (channels : list string) : Agent.t :=
  Agent.mk (js name) (js "org") custom none (js "prompt") None None (js "gpt-4")
    None (Some (Json.JArr (List.map (fun c => Json.JStr (js c)) channels)))
    None true.

Definition person (key : string) (mail : option string) (st : ContactStatus)
  (count : Z) : Contact.t :=
  Contact.mk (js key) (js "org") (js "Ana") (js "Lopez") (option_map js mail)
    None None 0 None None None None count (Some 0) None None st None [] 0.

Definition store (people : list Contact.t) (threads : list Db.Linked) : Db.t :=
  Db.mk people threads [] [] [] [] [] [].

Definition activeTrio : Db.t :=
  store [person "p" None active 1; person "d1" None active 2;
         person "d2" None active 4]
        [Db.mkLinked (js "t1") (js "d1"); Db.mkLinked (js "t2") (js "p")].

Definition inactivePrimaryTrio : Db.t :=
  store [person "p" None inactive 1; person "d1" None active 2;
         person "d2" None active 4] [].

(** Three contacts whose interaction counts add up to more than an integer
    column holds. *)
Definition heavyTrio : Db.t :=
  store [person "p" None active 2000000000; person "d1" None active 2000000000;
         person "d2" None active 2000000000] [].

Definition pair : Db.t :=
  store [person "p" None active 1; person "d1" None active 2] [].

Definition loneContact : Db.t :=
  store [person "a" (Some "a@x.com"%string) active 1] [].

(** Ana Lopez three times: the same email, the same phone written
    differently, and a near namesake. *)
Definition lookalikes : Db.t :=
  store
    [Contact.mk (js "e") (js "org") (js "Ana") (js "Lopez") (Some (js "ana@x.com"))
       None None 0 None None None None 1 (Some 0) None None active None [] 0;
     Contact.mk (js "f") (js "org") (js "Anna") (js "Lopes") None
       (Some (js "5551234567")) None 0 None None None None 1 (Some 0) None None
       active None [] 0;
     Contact.mk (js "g") (js "org") (js "Ana") (js "Lopex") None None None 0 None
       None None None 1 (Some 0) None None active None [] 0]
    [].

Definition note (role : MessageRole) (at_ : Z) : Message.t :=
  Message.mk (js "conv") inbound role (js "hello") (js "web") false None None
    None at_.

(** Twenty user messages at times 1..20 and a system message at time 21. *)
Definition twentyThenSystem : list Message.t :=
  List.map (fun k => note user (Z.of_nat k)) (seq 1 20) ++ [note system 21].

Definition threeUserMessages : list Message.t :=
  [note user 3; note assistant 1; note user 2].

Definition said (text : string) (at_ : Z) : Message.t :=
  Message.mk (js "conv") inbound user (js text) (js "web") false None None
    None at_.

(** Five messages in the order of their insertion: three share a timestamp,
    the two that follow share the next one. *)
Definition tiedMessages : list Message.t :=
  [said "a" 1; said "b" 1; said "c" 1; said "d" 2; said "e" 2].

(** The URL of the specification's scenario for decideActions. *)
Definition promoUrl : jsstring := js "https://example.com/promo".

Definition linkAgent : Agent.t :=
  Agent.mk (js "agent") (js "org") sales none (js "prompt") None None (js "gpt-4")
    (Some (Json.JArr [Json.JStr (js "send-link"); Json.JStr (js "transfer-to-human")]))
    None None true.

Definition plainContact : DecisionMaker.ContactContext :=
  DecisionMaker.mkContext (js "contact") [] 0.

(** decideActions with host helpers that return their defaults. *)
Definition runDecide (text : jsstring) : Error + list DecisionMaker.Action :=
  DecisionMaker.decideActions lowerBasicLatin (fun _ _ => js "Link") (fun _ => [])
    (fun _ => js "Complex query") (fun _ => None)
    text linkAgent plainContact (js "conv").

Definition webWorld : Core.World unit :=
  Core.mkWorld [linkAgent]
    [Conversation.mk (js "conv") (js "contact") (js "web")] [] [] tt [].

Definition webInput : Core.ProcessMessageInput :=
  Core.mkInput (js "conv") (js "hello") (js "org") (js "contact") (js "web").

(** Step 7 for a response that triggers no action: allSettled of the empty
    list yields the empty list and nothing runs. *)
Definition noActions (actions : list DecisionMaker.Action) (w : Core.World unit)
  : list (Error + Json.t) * Core.World unit :=
  ([], w).

(** Steps 1 to 8 of processMessage on [webWorld]. *)
Definition runPersist : (Error + Core.Persisted) * Core.World unit :=
  Core.persistStage lowerBasicLatin (fun _ _ => js "Link") (fun _ => [])
    (fun _ => js "Complex query") (fun _ => None) 0 (js "assignment")
    (fun _ _ _ => inr plainContact) (fun _ _ => js "prompt")
    noActions webInput webWorld.

End Examples.

(* ------------------------------------------------------------------ *)
(** ** Vocabulary for the edit distance *)

Module EditDistance.
Import Js.

(** The edit distance by its recurrence (insertion, deletion and
    substitution cost 1), on strings read from their last code unit
    backwards. *)
Fixpoint lev (a b : jsstring) : nat :=
  match a with
  | [] => List.length b
  | x :: a' =>
      (fix inner (b : jsstring) : nat :=
         match b with
         | [] => List.length a
         | y :: b' =>
             Nat.min (Nat.min (lev a' b + 1) (inner b' + 1))
                     (lev a' b' + if N.eqb x y then 0 else 1)
         end) b
  end.

(** Row [P] of the matrix from column [Q] on: the distances from [P] to
    [Q] and to its extensions by the code units of [rest]. *)
Fixpoint rowOf (P Q rest : jsstring) : list nat :=
  lev P Q :: match rest with
             | [] => []
             | d :: rest' => rowOf P (d :: Q) rest'
             end.

End EditDistance.

(* ------------------------------------------------------------------ *)
(** ** Vocabulary for the duplicate detector *)

Module Candidates.
Import Js Merger.

(** The order of a list sorted by descending confidence. *)
Definition byConfidence (a b : DuplicateCandidate) : Prop :=
  (confidence b <= confidence a)%Q.

(** The candidate describes a row of the contact table that is active and
    belongs to the organization, under that row's key. *)
Definition fromStore (db : Db.t) (organizationId : Id) (c : DuplicateCandidate)
  : Prop :=
  id c = Contact.id (contact c)
  /\ In (contact c) (Db.contacts db)
  /\ activeInOrg organizationId (contact c) = true.

(** What holds of the candidate list at every point of the three passes. *)
Definition tidy (db : Db.t) (org : Id) (l : list DuplicateCandidate) : Prop :=
  Forall (fromStore db org) l /\ (uniqueIds db -> NoDup (List.map id l)).

End Candidates.

(* ------------------------------------------------------------------ *)
(** ** Vocabulary for the merge *)

Module Tables.
Import Js.

(** The seven tables that refer to a contact. *)
Definition linkedTables (db : Db.t) : list (list Db.Linked) :=
  [Db.conversations db; Db.contactAgreements db; Db.contactNotes db;
   Db.contactSources db; Db.agentAssignments db; Db.formSubmissions db;
   Db.voiceCalls db].

(** Row [n] is row [o] after the references to the contacts [ids] were
    moved to [primaryId]. *)
Definition movedTo (primaryId : Id) (ids : list Id) (o n : Db.Linked) : Prop :=
  Db.rowId n = Db.rowId o
  /\ (In (Db.contactId o) ids -> Db.contactId n = primaryId)
  /\ (~ In (Db.contactId o) ids -> Db.contactId n = Db.contactId o).

(** The entries one [customFields] column contributes to the merge. *)
Definition entriesOf (fields : option Json.text) : list (jsstring * Json.t) :=
  match fields with
  | Some (Json.Parses parsed) =>
      match Merger.ownEntries parsed with
      | Some entries => entries
      | None => []
      end
  | _ => []
  end.

(** [obj[k]]: the value of the property [k], if there is one. *)
Definition lookup (k : jsstring) (obj : list (jsstring * Json.t))
  : option Json.t :=
  option_map snd (find (fun kv => eqb (fst kv) k) obj).

End Tables.

(* ------------------------------------------------------------------ *)
(** ** Heat scorer: the maintenance jobs (scoring.ts, lines 138-264) *)

Module ScoringJobs.
Import Js.

(** [.set({ averageResponseTime, updatedAt })]. *)
Definition setAverageResponseTime (avg now : Z) (c : Contact.t) : Contact.t :=
  Contact.mk (Contact.id c) (Contact.organizationId c) (Contact.firstName c)
    (Contact.lastName c) (Contact.email c) (Contact.phone c) (Contact.company c)
    (Contact.heatScore c) (Contact.tags c) (Contact.channelPreference c)
    (Contact.timezone c) (Contact.lastInteractionAt c)
    (Contact.interactionCount c) (Contact.lifetimeValue c) (Some avg)
    (Contact.customFields c) (Contact.status c) (Contact.mergedWithId c)
    (Contact.mergedContactIds c) now.

(** The body of the inner loop of calculateAverageResponseTime: the
    response times pushed so far and [lastInboundTime]. *)
Definition responseStep (state : list Z * option Z) (message : Message.t)
  : list Z * option Z :=
  let (responseTimes, lastInboundTime) := state in
  match Message.direction message with
  | inbound => (responseTimes, Some (Message.createdAt message))
  | outbound =>
      match lastInboundTime with
      | Some t =>
          let responseTime := (Message.createdAt message - t) / 1000 in
          (if (0 <? responseTime) && (responseTime <? 86400)
           then responseTimes ++ [responseTime] else responseTimes,
           None)
      | None => (responseTimes, None)
      end
  end.

(** One conversation with its messages ([with: { messages: true }]), in
    the order the store returns them. *)
Definition conversationStep (messages : list Message.t) (responseTimes : list Z)
  (conversation : Db.Linked) : list Z :=
  fst (fold_left responseStep
         (filter (fun m => eqb (Message.conversationId m) (Db.rowId conversation))
                 messages)
         (responseTimes, None)).

(** scoring.ts: calculateAverageResponseTime.  The average is the floor of
    the exact quotient. *)
Definition calculateAverageResponseTime (now : Z) (messages : list Message.t)
  (db : Db.t) (contactId : Id) : option Z * Db.t :=
  let conversations :=
    filter (fun c => eqb (Db.contactId c) contactId) (Db.conversations db) in
  let responseTimes := fold_left (conversationStep messages) conversations [] in
  match responseTimes with
  | [] => (None, db)
  | _ :: _ =>
      let avgResponseTime :=
        fold_left (fun sum time => sum + time) responseTimes 0
        / Z.of_nat (List.length responseTimes) in
      (Some avgResponseTime,
       Db.updateContacts (fun c => eqb (Contact.id c) contactId)
                         (setAverageResponseTime avgResponseTime now) db)
  end.

(** The body of the loop of batchRecalculateHeatScores; [now] is the clock
    reading of this iteration. *)
Definition batchStep (now : Z) (state : nat * Db.t) (contact : Contact.t)
  : nat * Db.t :=
  let (updated, db) := state in
  match Scoring.recalculateHeatScore now db (Contact.id contact) with
  | inr (_, db') => (S updated, db')
  | inl _ => (updated, db)
  end.

Fixpoint batchLoop (clock : nat -> Z) (i : nat) (contacts : list Contact.t)
  (state : nat * Db.t) : nat * Db.t :=
  match contacts with
  | [] => state
  | contact :: rest =>
      batchLoop clock (S i) rest (batchStep (clock i) state contact)
  end.

(** scoring.ts: batchRecalculateHeatScores.  [clock i] is [Date.now()] in
    iteration [i]. *)
Definition batchRecalculateHeatScores (clock : nat -> Z) (organizationId : Id)
  (db : Db.t) : nat * Db.t :=
  let contacts :=
    filter (Merger.activeInOrg organizationId) (Db.contacts db) in
  batchLoop clock 0 contacts (0%nat, db).

Record Distribution : Type := mkDistribution {
  hot : nat;
  warm : nat;
  cold : nat
}.

Definition count (distribution : Distribution) (contact : Contact.t)
  : Distribution :=
  if 80 <=? Contact.heatScore contact then
    mkDistribution (S (hot distribution)) (warm distribution) (cold distribution)
  else if 50 <=? Contact.heatScore contact then
    mkDistribution (hot distribution) (S (warm distribution)) (cold distribution)
  else
    mkDistribution (hot distribution) (warm distribution) (S (cold distribution)).

(** scoring.ts: getHeatScoreDistribution. *)
Definition getHeatScoreDistribution (organizationId : Id) (db : Db.t)
  : Distribution :=
  fold_left count
    (filter (Merger.activeInOrg organizationId) (Db.contacts db))
    (mkDistribution 0 0 0).

(** The contacts of an organization that are active. *)
Definition activeContacts (organizationId : Id) (db : Db.t) : list Contact.t :=
  filter (Merger.activeInOrg organizationId) (Db.contacts db).

(** What the batch keeps true while it runs: the keys of the table stay,
    and an active contact of the organization either has a score in range
    or is still to be visited. *)
Definition batchInvariant (org : Id) (db0 : Db.t) (rest : list Contact.t)
  (db : Db.t) : Prop :=
  List.map Contact.id (Db.contacts db) = List.map Contact.id (Db.contacts db0)
  /\ Tables.linkedTables db = Tables.linkedTables db0
  /\ List.length (activeContacts org db) = List.length (activeContacts org db0)
  /\ Forall (fun c => Merger.activeInOrg org c = true ->
                      0 <= Contact.heatScore c <= 100
                      \/ In (Contact.id c) (List.map Contact.id rest))
            (Db.contacts db)
  /\ (Merger.uniqueIds db0 ->
      forall c, In c (Db.contacts db0) -> Merger.activeInOrg org c = false ->
                In c (Db.contacts db)).

End ScoringJobs.

(* ------------------------------------------------------------------ *)
(** ** Agent router: assignments (manager.ts, lines 112-207 and 338-389) *)

Module Assignments.
Import Js.

(** A row of the agent_assignment table: the columns of [Assignment.t]
    and the two further columns the router writes. *)
Record Row : Type := mkRow {
  row : Assignment.t;
  assignedAt : Z;
  reasonForUnassignment : option jsstring
}.

(** [isNull(agentAssignmentTable.unassignedAt)]. *)
Definition isOpen (a : Assignment.t) : bool :=
  match Assignment.unassignedAt a with None => true | Some _ => false end.

(** [.set({ unassignedAt: new Date(), reasonForUnassignment })]. *)
Definition close (now : Z) (reason : jsstring) (r : Row) : Row :=
  mkRow (Assignment.mk (Assignment.id (row r)) (Assignment.conversationId (row r))
           (Assignment.agentId (row r)) (Assignment.contactId (row r))
           (Some now) (Assignment.messagesHandled (row r))
           (Assignment.creditsUsed (row r)))
        (assignedAt r) (Some reason).

(** [and(eq(conversationId, c), isNull(unassignedAt))]. *)
Definition openIn (conversationId : Id) (r : Row) : bool :=
  eqb (Assignment.conversationId (row r)) conversationId && isOpen (row r).

(** The three references of a row of agent_assignment (tables.ts, lines
    1158-1166): its conversation, its agent and its contact exist. *)
Definition referenced (conversations : list Conversation.t)
  (agents : list Agent.t) (contacts : list Contact.t)
  (conversationId agentId contactId : Id) : bool :=
  existsb (fun c => eqb (Conversation.id c) conversationId) conversations
  && existsb (fun g => eqb (Agent.id g) agentId) agents
  && existsb (fun c => eqb (Contact.id c) contactId) contacts.

(** manager.ts: assignAgentToConversation.  [uuid] is the key the store
    generates for the inserted row; the insert returns that row.  The store
    refuses a row whose conversation, agent or contact does not exist, and
    the transaction leaves the table as it was.  The lookup of the open
    assignment has no [orderBy]: where a conversation has several, the
    order of the list stands for the choice of the store. *)
Definition assignAgentToConversation (now : Z) (uuid : Id)
  (conversations : list Conversation.t) (agents : list Agent.t)
  (contacts : list Contact.t)
  (conversationId agentId contactId : Id) (table : list Row)
  : (Error + Row) * list Row :=
  let existingAssignment := find (openIn conversationId) table in
  let table1 :=
    match existingAssignment with
    | Some existing =>
        List.map (fun r =>
                    if eqb (Assignment.id (row r)) (Assignment.id (row existing))
                    then close now (js "Reassigned to different agent") r
                    else r) table
    | None => table
    end in
  if referenced conversations agents contacts conversationId agentId contactId
  then
    let inserted :=
      mkRow (Assignment.mk uuid conversationId agentId contactId None 0 0)
            now None in
    let assignments := [inserted] in
    match assignments with
    | assignment :: _ => (inr assignment, table1 ++ [inserted])
    | [] => (inl (Err "Failed to create agent assignment"), table)
    end
  else (inl Db.foreignKey, table).

(** manager.ts: unassignAgent. *)
Definition unassignAgent (now : Z) (assignmentId : Id) (reason : option jsstring)
  (table : list Row) : (Error + Row) * list Row :=
  let hit r := eqb (Assignment.id (row r)) assignmentId && isOpen (row r) in
  let set :=
    close now (if truthyOpt reason
               then match reason with Some s => s | None => [] end
               else js "Manual unassignment") in
  let assignments := List.map set (filter hit table) in
  let table' := List.map (fun r => if hit r then set r else r) table in
  match assignments with
  | assignment :: _ => (inr assignment, table')
  | [] => (inl (Err "Assignment not found or already unassigned"), table')
  end.

(** manager.ts: getCurrentAssignment, with the agent of the row. *)
Definition getCurrentAssignment (agents : list Agent.t) (conversationId : Id)
  (table : list Row) : option (Row * option Agent.t) :=
  match find (openIn conversationId) table with
  | Some assignment =>
      Some (assignment,
            find (fun g => eqb (Agent.id g) (Assignment.agentId (row assignment)))
                 agents)
  | None => None
  end.



(** The open assignments of a conversation. *)
Definition openFor (conversationId : Id) (table : list Row) : list Row :=
  filter (openIn conversationId) table.

(** No conversation has two open assignments. *)
Definition oneOpenEach (table : list Row) : Prop :=
  forall conversationId, (List.length (openFor conversationId table) <= 1)%nat.

(** The same for the rows the engine keeps. *)
Definition openRows (conversationId : Id) (table : list Assignment.t)
  : list Assignment.t :=
  filter (fun a => eqb (Assignment.conversationId a) conversationId && isOpen a)
         table.

End Assignments.

(* ------------------------------------------------------------------ *)
(** ** Action handlers: the [validate] of each registered handler
       (actions/handlers) *)

Module Handlers.
Import Js DecisionMaker.

(** [typeof params.conversationId === "string"] on the params that
    decideActions builds. *)
Definition hasConversationId (p : Params) : bool :=
  match p with
  | CreateNote _ _ _ | UpdateTags _ _ => false
  | _ => true
  end.

(** [typeof params.contactId === "string"]. *)
Definition hasContactId (p : Params) : bool :=
  match p with
  | CreateQuote _ _ _ | ScheduleMeeting _ _ _ | CreateNote _ _ _
  | UpdateTags _ _ => true
  | _ => false
  end.

(** The [validate] of the handler registered under [name]; [None] when no
    handler has that name. *)
Definition validate (name : jsstring) (p : Params) : option bool :=
  if eqb name (js "send-link") then
    Some (hasConversationId p
          && match paramsUrl p with
             | Some url => startsWith url (js "http")
             | None => false
             end)
  else if eqb name (js "send-document") then
    Some (hasConversationId p
          && match p with SendDocument _ _ => true | _ => false end)
  else if eqb name (js "create-quote") then
    Some (hasConversationId p && hasContactId p)
  else if eqb name (js "schedule-meeting") then
    Some (hasConversationId p && hasContactId p)
  else if eqb name (js "transfer-to-human") then
    Some (hasConversationId p)
  else if eqb name (js "create-note") then
    Some (hasContactId p
          && match p with CreateNote _ _ _ => true | _ => false end)
  else if eqb name (js "update-tags") then
    Some (hasContactId p
          && match p with UpdateTags _ _ => true | _ => false end)
  else if eqb name (js "search-product") then
    Some (match p with SearchProduct _ _ => true | _ => false end
          && hasConversationId p)
  else None.

(** The action is accepted by the handler it names, and a URL it carries
    is a whitespace-free piece of [text]. *)
Definition accepted (text : jsstring) (a : Action) : Prop :=
  validate (type a) (params a) = Some true
  /\ match paramsUrl (params a) with
     | Some url => noSpace url = true /\ includes text url = true
     | None => True
     end.

(** The names detectIntent can return, and the names decideActions asks
    for that it cannot. *)
Definition intentNames : list jsstring := List.map fst intentPatterns.

Definition unknownIntents : list jsstring :=
  [js "file"; js "price"; js "cost"; js "appointment"; js "call"; js "stock"].

End Handlers.

(* ------------------------------------------------------------------ *)
(** ** Vocabulary for the failures of the pipeline *)

Module Failures.
Import Js Core.

Section Causes.
Variable Ext : Type.
Variable buildContext : Id -> Id -> Ext -> Error + DecisionMaker.ContactContext.
Variable consumeCredits :
  Id -> Z -> Id -> Id -> Ext * list LogEntry
  -> (Error + unit) * (Ext * list LogEntry).

(** Where an error thrown by processMessage can come from: the three
    errors of the agent lookup, the context builder, the check of the allowed
    actions, the store refusing the outbound message or the counters of the
    assignment, or the credit deduction. *)
Definition cause (input : ProcessMessageInput) (e : Error) : Prop :=
  e = Err "Conversation not found"
  \/ e = Err "No suitable agent found"
  \/ e = Err "No agent available for conversation"
  \/ e = Err "TypeError: allowedActions.includes is not a function"
  \/ e = Db.foreignKey
  \/ e = Db.outOfRange
  \/ (exists x, buildContext (contactId input) (conversationId input) x = inl e)
  \/ (exists amount agentId s s',
        consumeCredits (organizationId input) amount (conversationId input)
          agentId s = (inl e, s')).
End Causes.

End Failures.

(* ------------------------------------------------------------------ *)
(** ** Contact queries: findOrCreateContact (queries, lines 483-602 of the
       listing) *)

Module Source.
(** A row of the contact_source table. *)
Record t : Type := mk {
  id : Id;
  contactId : Id;
  sourceType : Js.jsstring;
  sourceIdentifier : option Js.jsstring;
  sourceMetadata : option Json.t;
  firstSeen : Z;
  lastSeen : Z;
  interactionCount : Z
}.
End Source.

Module ContactData.
(** The [data] argument of findOrCreateContact. *)
Record t : Type := mk {
  email : option Js.jsstring;
  phone : option Js.jsstring;
  firstName : Js.jsstring;
  lastName : Js.jsstring;
  sourceType : Js.jsstring;
  sourceIdentifier : option Js.jsstring;
  sourceMetadata : option Json.t
}.
End ContactData.

Module Queries.
Import Js.

Record Store : Type := mkStore {
  organizations : list Id;
  contacts : list Contact.t;
  sources : list Source.t
}.

(** [findFirst] without [orderBy]: the store returns one of the rows that
    match, and the query does not fix which.  A [Choice] stands for the
    choices of the store during one call; [chooses] says that it returns a
    row of the list it is given, and none only when there is none. *)
Definition Choice : Type := forall A : Type, list A -> option A.

Definition chooses (first : Choice) : Prop :=
  forall (A : Type) (l : list A),
    match first A l with
    | Some x => In x l
    | None => l = []
    end.

Definition findFirst {A : Type} (first : Choice) (where_ : A -> bool)
  (table : list A) : option A :=
  first A (filter where_ table).

(** The choice of the first row in the order of the list. *)
Definition inListOrder : Choice := fun A l => hd_error l.

(** [and(eq(organizationId, org), eq(column, value), eq(status, active))]. *)
Definition activeWith (organizationId : Id)
  (column : Contact.t -> option jsstring) (value : jsstring) (c : Contact.t)
  : bool :=
  eqb (Contact.organizationId c) organizationId
  && Merger.optEqb (column c) value
  && isActive (Contact.status c).

(** [.set({ lastInteractionAt: new Date(), interactionCount: count + 1,
            updatedAt: new Date() })]. *)
Definition touch (now : Z) (c : Contact.t) : Contact.t :=
  Contact.mk (Contact.id c) (Contact.organizationId c) (Contact.firstName c)
    (Contact.lastName c) (Contact.email c) (Contact.phone c) (Contact.company c)
    (Contact.heatScore c) (Contact.tags c) (Contact.channelPreference c)
    (Contact.timezone c) (Some now) (Contact.interactionCount c + 1)
    (Contact.lifetimeValue c) (Contact.averageResponseTime c)
    (Contact.customFields c) (Contact.status c) (Contact.mergedWithId c)
    (Contact.mergedContactIds c) now.

(** [.set({ lastSeen: new Date(), interactionCount: count + 1 })]. *)
Definition seen (now : Z) (s : Source.t) : Source.t :=
  Source.mk (Source.id s) (Source.contactId s) (Source.sourceType s)
    (Source.sourceIdentifier s) (Source.sourceMetadata s) (Source.firstSeen s)
    now (Source.interactionCount s + 1).

(** The source row both branches insert. *)
Definition newSource (now : Z) (sourceUuid contactId : Id) (data : ContactData.t)
  : Source.t :=
  Source.mk sourceUuid contactId (ContactData.sourceType data)
    (ContactData.sourceIdentifier data) (ContactData.sourceMetadata data)
    now now 1.

(** The [where] of the lookup of an existing source. *)
Definition sameSource (contactId : Id) (data : ContactData.t) (s : Source.t)
  : bool :=
  eqb (Source.contactId s) contactId
  && eqb (Source.sourceType s) (ContactData.sourceType data)
  && match ContactData.sourceIdentifier data with
     | Some i => if truthy i then Merger.optEqb (Source.sourceIdentifier s) i
                 else true
     | None => true
     end.

(** queries: findOrCreateContact.  [contactUuid] and [sourceUuid] are the
    keys the store generates for the rows it inserts; the transaction
    commits, or leaves the store as it was.  The store computes
    [interactionCount + 1] for every row an update reaches and refuses a
    value that does not fit the [integer] column; it refuses a contact whose
    organization does not exist (tables.ts, lines 762-764). *)
Definition findOrCreateContact (first : Choice) (now : Z)
  (contactUuid sourceUuid : Id)
  (organizationId : Id) (data : ContactData.t) (store : Store)
  : (Error + Contact.t) * Store :=
  let existing :=
    match ContactData.email data with
    | Some e =>
        if truthy e
        then findFirst first (activeWith organizationId Contact.email e)
               (contacts store)
        else None
    | None => None
    end in
  let existing :=
    match existing, ContactData.phone data with
    | None, Some ph =>
        if truthy ph
        then findFirst first (activeWith organizationId Contact.phone ph)
               (contacts store)
        else None
    | _, _ => existing
    end in
  match existing with
  | Some existing =>
      let reached c := eqb (Contact.id c) (Contact.id existing) in
      if forallb (fun c => Db.int4 (Contact.interactionCount c + 1))
                 (filter reached (contacts store))
      then
        let contacts' :=
          List.map (fun c => if reached c then touch now c else c)
                   (contacts store) in
        let existingSource :=
          findFirst first (sameSource (Contact.id existing) data)
            (sources store) in
        match existingSource with
        | None =>
            (inr existing,
             mkStore (organizations store) contacts'
               (sources store
                ++ [newSource now sourceUuid (Contact.id existing) data]))
        | Some existingSource =>
            let reachedSource s :=
              eqb (Source.id s) (Source.id existingSource) in
            if forallb (fun s => Db.int4 (Source.interactionCount s + 1))
                       (filter reachedSource (sources store))
            then
              (inr existing,
               mkStore (organizations store) contacts'
                 (List.map (fun s => if reachedSource s then seen now s else s)
                           (sources store)))
            else (inl Db.outOfRange, store)
        end
      else (inl Db.outOfRange, store)
  | None =>
      if existsb (eqb organizationId) (organizations store) then
        let inserted :=
          Contact.mk contactUuid organizationId (ContactData.firstName data)
            (ContactData.lastName data) (ContactData.email data)
            (ContactData.phone data) None 0 None None None (Some now) 1 (Some 0)
            None None active None [] now in
        let contacts' := [inserted] in
        match contacts' with
        | newContact :: _ =>
            (inr newContact,
             mkStore (organizations store) (contacts store ++ [inserted])
                     (sources store
                      ++ [newSource now sourceUuid (Contact.id newContact) data]))
        | [] => (inl (Err "Failed to create contact"), store)
        end
      else (inl Db.foreignKey, store)
  end.

(** At most one active contact of the organization carries the value
    given for a column, when that value is truthy. *)
Definition atMostOne (organizationId : Id)
  (column : Contact.t -> option jsstring) (value : option jsstring)
  (l : list Contact.t) : Prop :=
  match value with
  | Some v =>
      truthy v = true ->
      (List.length (filter (activeWith organizationId column v) l) <= 1)%nat
  | None => True
  end.

(** A counter that can be raised [k] times within an [integer] column. *)
Definition room (k : Z) (n : Z) : Prop := 0 <= n /\ n + k <= 2147483647.

(** One of the two lookups of findOrCreateContact: by a column and the
    value given for it, when that value is truthy.  [look] is the way a row
    is picked among those that match: [findFirst first] in the code, [find]
    when at most one matches. *)
Definition byColumn (look : (Contact.t -> bool) -> list Contact.t -> option Contact.t)
  (organizationId : Id)
  (column : Contact.t -> option jsstring) (value : option jsstring)
  (l : list Contact.t) : option Contact.t :=
  match value with
  | Some v => if truthy v then look (activeWith organizationId column v) l
              else None
  | None => None
  end.

(** The contact findOrCreateContact takes for the existing one: found by
    email, else by phone. *)
Definition lookup (look : (Contact.t -> bool) -> list Contact.t -> option Contact.t)
  (organizationId : Id) (data : ContactData.t)
  (l : list Contact.t) : option Contact.t :=
  match byColumn look organizationId Contact.email (ContactData.email data) l with
  | Some c => Some c
  | None => byColumn look organizationId Contact.phone (ContactData.phone data) l
  end.

(** The contact row findOrCreateContact inserts. *)
Definition created (now : Z) (contactUuid organizationId : Id)
  (data : ContactData.t) : Contact.t :=
  Contact.mk contactUuid organizationId (ContactData.firstName data)
    (ContactData.lastName data) (ContactData.email data)
    (ContactData.phone data) None 0 None None None (Some now) 1 (Some 0)
    None None active None [] now.

End Queries.

(* ------------------------------------------------------------------ *)
(** ** A merge used in the examples *)

Module MergeExamples.
Import Js Examples.

(** [d1] merged into [p] in the store [activeTrio]. *)
Definition mergedTrio : (Error + Contact.t) * Db.t :=
  Merger.mergeContacts lowerBasicLatin 0 (js "p") [js "d1"] activeTrio.

(** The contact that merge returns. *)
Definition mergedTrioResult : Contact.t :=
  match fst mergedTrio with
  | inr result => result
  | inl _ => person "p" None active 1
  end.

End MergeExamples.

(* ================================================================== *)
(** * Properties *)

(* ------------------------------------------------------------------ *)
(** ** Strings *)

Module JsFacts.
Import Js.

Lemma eqb_eq (a b : jsstring) : eqb a b = true <-> a = b.
Proof.
  revert b; induction a as [|x a IH]; intros [|y b]; simpl; split;
    try discriminate; try reflexivity.
  - intros H. apply andb_true_iff in H as [H1 H2].
    apply N.eqb_eq in H1. apply IH in H2. now subst.
  - intros H. injection H as -> ->. rewrite N.eqb_refl. simpl. now apply IH.
Qed.

Lemma eqb_refl (a : jsstring) : eqb a a = true.
Proof. now apply eqb_eq. Qed.

Lemma eqb_neq (a b : jsstring) : eqb a b = false <-> a <> b.
Proof.
  split.
  - intros H E. apply eqb_eq in E. congruence.
  - intros H. destruct (eqb a b) eqn:E; [apply eqb_eq in E; contradiction | reflexivity].
Qed.

Lemma eqb_sym (a b : jsstring) : eqb a b = eqb b a.
Proof.
  destruct (eqb a b) eqn:E.
  - apply eqb_eq in E. subst. symmetry. apply eqb_refl.
  - symmetry. apply eqb_neq. apply eqb_neq in E. congruence.
Qed.

Lemma startsWith_app (p s : jsstring) : startsWith (p ++ s) p = true.
Proof.
  induction p as [|c p IH]; simpl; [now destruct s|].
  now rewrite N.eqb_refl, IH.
Qed.

Lemma startsWith_prefix (p q s : jsstring) :
  startsWith s (p ++ q) = true -> startsWith s p = true.
Proof.
  revert s; induction p as [|c p IH]; intros s; [now destruct s|].
  destruct s as [|x s]; simpl; [discriminate|].
  intros H. apply andb_true_iff in H as [H1 H2].
  rewrite H1. simpl. now apply IH.
Qed.

Lemma includes_app_l (pre s p : jsstring) :
  includes s p = true -> includes (pre ++ s) p = true.
Proof.
  induction pre as [|c pre IH]; simpl; [trivial|].
  intros H. rewrite (IH H). apply orb_true_r.
Qed.

Lemma includes_startsWith (s p : jsstring) :
  startsWith s p = true -> includes s p = true.
Proof. intros H. destruct s; simpl in *; rewrite H; reflexivity. Qed.

End JsFacts.

(* ------------------------------------------------------------------ *)
(** ** The stable sort *)

Module StableSortFacts.
Import StableSort.

Section Generic.
Context {A : Type}.
Variable after : A -> A -> bool.

Lemma insert_perm (x : A) (l : list A) : Permutation (x :: l) (insert after x l).
Proof.
  induction l as [|y l IH]; simpl; [reflexivity|].
  destruct (after x y); [|reflexivity].
  rewrite perm_swap. now apply perm_skip.
Qed.

Lemma sort_perm (l : list A) : Permutation l (sort after l).
Proof.
  induction l as [|x l IH]; simpl; [reflexivity|].
  rewrite <- insert_perm. now apply perm_skip.
Qed.

Lemma sort_In (l : list A) (x : A) : In x (sort after l) <-> In x l.
Proof.
  split; apply Permutation_in; [symmetry|]; apply sort_perm.
Qed.

Lemma sort_length (l : list A) : List.length (sort after l) = List.length l.
Proof. symmetry. apply Permutation_length, sort_perm. Qed.

End Generic.

Section ByKey.
Context {A : Type}.
Variable key : A -> Z.

Lemma insert_sorted (x : A) (l : list A) :
  StronglySorted (descending key) l ->
  StronglySorted (descending key) (insert (fun x y => key x <? key y) x l).
Proof.
  induction 1 as [|y l Hs IH Hy]; simpl.
  - constructor; constructor.
  - destruct (key x <? key y) eqn:E.
    + apply Z.ltb_lt in E. constructor; [exact IH|].
      eapply Permutation_Forall; [apply insert_perm|].
      constructor; [unfold descending in *; lia | exact Hy].
    + apply Z.ltb_ge in E. constructor; [now constructor|].
      constructor; [exact E|].
      eapply Forall_impl; [|exact Hy]. unfold descending in *. intros; lia.
Qed.

Lemma sortDescZ_sorted (l : list A) :
  StronglySorted (descending key) (sortDescZ key l).
Proof.
  induction l as [|x l IH]; simpl; [constructor|].
  apply insert_sorted. exact IH.
Qed.

Lemma insert_front (x : A) (l : list A) :
  Forall (fun z => key z <= key x) l ->
  insert (fun x y => key x <? key y) x l = x :: l.
Proof.
  destruct l as [|y l]; simpl; [reflexivity|].
  intros H. inversion H; subst.
  destruct (key x <? key y) eqn:E; [apply Z.ltb_lt in E; lia | reflexivity].
Qed.

(** Sorting commutes with selecting: the sort is stable. *)
Lemma insert_filter (p : A -> bool) (x : A) (l : list A) :
  StronglySorted (descending key) l ->
  filter p (insert (fun x y => key x <? key y) x l) =
  if p x then insert (fun x y => key x <? key y) x (filter p l) else filter p l.
Proof.
  induction 1 as [|y l Hs IH Hy]; simpl.
  - now destruct (p x).
  - destruct (key x <? key y) eqn:E; simpl.
    + rewrite IH. destruct (p y), (p x); simpl; try rewrite E; reflexivity.
    + apply Z.ltb_ge in E.
      destruct (p x) eqn:Px, (p y) eqn:Py; simpl; try reflexivity.
      * destruct (key x <? key y) eqn:E'; [apply Z.ltb_lt in E'; lia | reflexivity].
      * symmetry. apply insert_front.
        apply Forall_forall. intros z Hz. apply filter_In in Hz as [Hz _].
        rewrite Forall_forall in Hy. specialize (Hy z Hz). unfold descending in Hy. lia.
Qed.

Lemma sortDescZ_filter (p : A -> bool) (l : list A) :
  sortDescZ key (filter p l) = filter p (sortDescZ key l).
Proof.
  induction l as [|x l IH]; simpl; [reflexivity|].
  unfold sortDescZ in *. simpl sort.
  rewrite insert_filter by apply sortDescZ_sorted.
  destruct (p x); simpl; now rewrite IH.
Qed.

End ByKey.

Lemma sort_ext {A : Type} (f g : A -> A -> bool) (l : list A) :
  (forall x y, f x y = g x y) -> sort f l = sort g l.
Proof.
  intros H. induction l as [|x l IH]; simpl; [reflexivity|]. rewrite IH.
  generalize (sort g l). intros s. induction s as [|y s IHs]; simpl;
    [reflexivity|]. now rewrite H, IHs.
Qed.

Section Ascending.
Context {A : Type}.
Variable key : A -> Z.

Lemma sortAscZ_desc (l : list A) :
  sortAscZ key l = sortDescZ (fun x => - key x) l.
Proof.
  apply sort_ext. intros x y.
  destruct (Z.ltb_spec (key y) (key x)), (Z.ltb_spec (- key x) (- key y));
    try reflexivity; lia.
Qed.

Lemma sortAscZ_sorted (l : list A) :
  StronglySorted (ascending key) (sortAscZ key l).
Proof.
  rewrite sortAscZ_desc.
  pose proof (sortDescZ_sorted (fun x => - key x) l) as H.
  induction H as [|a s Hs IH Ha]; constructor; [exact IH|].
  eapply Forall_impl; [|exact Ha]. unfold descending, ascending. intros; lia.
Qed.

Lemma sortAscZ_perm (l : list A) : Permutation l (sortAscZ key l).
Proof. apply sort_perm. Qed.

Lemma sortAscZ_filter (p : A -> bool) (l : list A) :
  sortAscZ key (filter p l) = filter p (sortAscZ key l).
Proof. rewrite !sortAscZ_desc. apply sortDescZ_filter. Qed.

Lemma sortAscZ_same_key (t : Z) (l : list A) :
  Forall (fun x => key x = t) l -> sortAscZ key l = l.
Proof.
  induction 1 as [|x l Hx Hl IH]; [reflexivity|].
  unfold sortAscZ in *. simpl. rewrite IH.
  destruct Hl as [|y l Hy Hl]; simpl; [reflexivity|].
  rewrite Hx, Hy, Z.ltb_irrefl. reflexivity.
Qed.

(** The sort is stable: the rows of one key keep their order. *)
Lemma sortAscZ_stable (t : Z) (l : list A) :
  filter (fun x => key x =? t) (sortAscZ key l) = filter (fun x => key x =? t) l.
Proof.
  rewrite <- sortAscZ_filter. apply (sortAscZ_same_key t).
  apply Forall_forall. intros x Hx. apply filter_In in Hx as [_ Hx].
  now apply Z.eqb_eq.
Qed.
End Ascending.

Section SortedLists.
Context {A : Type}.
Variable R : A -> A -> Prop.

Lemma ssorted_snoc (l : list A) (x : A) :
  StronglySorted R l -> Forall (fun y => R y x) l -> StronglySorted R (l ++ [x]).
Proof.
  induction 1 as [|a l Hs IH Ha]; intros Hx; simpl.
  - constructor; constructor.
  - inversion Hx; subst. constructor; [now apply IH|].
    apply Forall_app. split; [exact Ha | now constructor].
Qed.

Lemma ssorted_firstn (n : nat) (l : list A) :
  StronglySorted R l -> StronglySorted R (firstn n l).
Proof.
  intros H. revert n. induction H as [|a l Hs IH Ha]; intros [|n]; simpl;
    try constructor; [apply IH|].
  apply Forall_forall. intros y Hy. rewrite Forall_forall in Ha.
  apply Ha. rewrite <- (firstn_skipn n l). apply in_or_app. now left.
Qed.

Lemma ssorted_filter (p : A -> bool) (l : list A) :
  StronglySorted R l -> StronglySorted R (filter p l).
Proof.
  induction 1 as [|a l Hs IH Ha]; simpl; [constructor|].
  destruct (p a); [|exact IH]. constructor; [exact IH|].
  apply Forall_forall. intros y Hy. apply filter_In in Hy as [Hy _].
  rewrite Forall_forall in Ha. now apply Ha.
Qed.
End SortedLists.

Lemma ssorted_rev {A : Type} (R : A -> A -> Prop) (l : list A) :
  StronglySorted R l -> StronglySorted (fun a b => R b a) (rev l).
Proof.
  induction 1 as [|a l Hs IH Ha]; simpl; [constructor|].
  apply ssorted_snoc; [exact IH|]. now apply Forall_rev.
Qed.

End StableSortFacts.

(* ------------------------------------------------------------------ *)
(** ** Similarity engine *)

Module SimilarityFacts.
Import Js Similarity.

Lemma stripNonDigits_digits (s : jsstring) :
  forallb isDigit (stripNonDigits s) = true.
Proof.
  apply forallb_forall. intros c Hc. now apply filter_In in Hc.
Qed.

Lemma stripNonDigits_fixed (d : jsstring) :
  forallb isDigit d = true -> stripNonDigits d = d.
Proof.
  unfold stripNonDigits. induction d as [|c d IH]; simpl; [reflexivity|].
  intros H. apply andb_true_iff in H as [Hc Hd]. rewrite Hc. f_equal. now apply IH.
Qed.

Lemma forallb_skipn {A : Type} (p : A -> bool) (k : nat) (l : list A) :
  forallb p l = true -> forallb p (skipn k l) = true.
Proof.
  revert l; induction k as [|k IH]; intros [|x l]; simpl; trivial.
  intros H. apply andb_true_iff in H as [_ H]. now apply IH.
Qed.

Lemma prefixed_length_10 (d : jsstring) :
  List.length d = 10%nat -> usPrefixed d = false /\ mxPrefixed d = false.
Proof.
  intros H. unfold usPrefixed, mxPrefixed. rewrite H. simpl.
  now rewrite !andb_false_r.
Qed.

(** A digit string that carries neither prefix is left as it is. *)
Lemma normalize_stable (r : jsstring) :
  forallb isDigit r = true -> usPrefixed r = false -> mxPrefixed r = false ->
  normalizePhoneNumber r = r.
Proof.
  intros Hd H1 H2. unfold normalizePhoneNumber.
  rewrite (stripNonDigits_fixed r Hd).
  fold (usPrefixed r). rewrite H1. fold (mxPrefixed r). now rewrite H2.
Qed.

(** The result of normalizePhoneNumber is such a digit string. *)
Lemma normalize_shape (x : jsstring) :
  forallb isDigit (normalizePhoneNumber x) = true
  /\ usPrefixed (normalizePhoneNumber x) = false
  /\ mxPrefixed (normalizePhoneNumber x) = false.
Proof.
  unfold normalizePhoneNumber.
  pose proof (stripNonDigits_digits x) as Hd.
  set (d := stripNonDigits x) in *.
  fold (usPrefixed d). destruct (usPrefixed d) eqn:U.
  - assert (L : List.length (sliceFrom 1 d) = 10%nat).
    { unfold usPrefixed in U. apply andb_true_iff in U as [_ U].
      apply Nat.eqb_eq in U. unfold sliceFrom. rewrite length_skipn. lia. }
    destruct (prefixed_length_10 _ L) as [A B].
    fold (mxPrefixed (sliceFrom 1 d)). rewrite B.
    repeat split; trivial. now apply forallb_skipn.
  - fold (mxPrefixed d). destruct (mxPrefixed d) eqn:X.
    + assert (L : List.length (sliceFrom 2 d) = 10%nat).
      { unfold mxPrefixed in X. apply andb_true_iff in X as [_ X].
        apply Nat.eqb_eq in X. unfold sliceFrom. rewrite length_skipn. lia. }
      destruct (prefixed_length_10 _ L) as [A B].
      repeat split; trivial. now apply forallb_skipn.
    + repeat split; trivial.
Qed.

(** C6.  normalizePhoneNumber is idempotent: normalizing an already
    normalized phone string gives the same string, for every input. *)
Theorem normalizePhoneNumber_idempotent (x : jsstring) :
  normalizePhoneNumber (normalizePhoneNumber x) = normalizePhoneNumber x.
Proof.
  destruct (normalize_shape x) as (Hd & H1 & H2).
  now apply normalize_stable.
Qed.

Example normalize_us_number :
  normalizePhoneNumber (js "+1 555-123-4567") = js "5551234567".
Proof. reflexivity. Qed.

Example normalize_mx_number :
  normalizePhoneNumber (js "52 (55) 1234-5678") = js "5512345678".
Proof. reflexivity. Qed.

Example levenshtein_kitten_sitting :
  levenshteinDistance (js "kitten") (js "sitting") = 3%nat.
Proof. reflexivity. Qed.

End SimilarityFacts.

(* ------------------------------------------------------------------ *)
(** ** Heat scorer *)

Module ScoringFacts.
Import Scoring Examples.

Lemma scoreOf_range (now : Z) (c : Contact.t) : 0 <= scoreOf now c <= 100.
Proof. unfold scoreOf. lia. Qed.

(** C5.  For every contact record calculateHeatScore returns an integer in
    [0,100]; for a contact that never interacted, with interaction count 0,
    lifetime value 0 and no average response time, it returns 0. *)
Theorem calculateHeatScore_range_and_zero
  (now : Z) (db : Db.t) (contactId : Id) (c : Contact.t) :
  Db.findContact db contactId = Some c ->
  exists score,
    calculateHeatScore now db contactId = inr score
    /\ 0 <= score <= 100
    /\ (Contact.lastInteractionAt c = None ->
        Contact.interactionCount c = 0 ->
        Contact.lifetimeValue c = Some 0 ->
        Contact.averageResponseTime c = None ->
        score = 0).
Proof.
  intros Hc. exists (scoreOf now c). unfold calculateHeatScore. rewrite Hc.
  split; [reflexivity|]. split; [apply scoreOf_range|].
  intros H1 H2 H3 H4.
  unfold scoreOf, recencyScore, frequencyScore, valueScore, engagementScore.
  rewrite H1, H2, H3, H4. reflexivity.
Qed.

Lemma calculateHeatScore_range_and_zero_witness :
  exists score,
    calculateHeatScore 1000
      (Db.mk [coldContact] [] [] [] [] [] [] []) (Js.js "c") = inr score
    /\ 0 <= score <= 100
    /\ (Contact.lastInteractionAt coldContact = None ->
        Contact.interactionCount coldContact = 0 ->
        Contact.lifetimeValue coldContact = Some 0 ->
        Contact.averageResponseTime coldContact = None ->
        score = 0).
Proof.
  apply (calculateHeatScore_range_and_zero 1000
           (Db.mk [coldContact] [] [] [] [] [] [] []) (Js.js "c") coldContact).
  reflexivity.
Defined.

Example heat_of_warm_contact :
  calculateHeatScore 1000 (Db.mk [warmContact] [] [] [] [] [] [] []) (Js.js "w")
  = inr 100.
Proof. reflexivity. Qed.

End ScoringFacts.

(* ------------------------------------------------------------------ *)
(** ** Agent router *)

Module AgentManagerFacts.
Import Js AgentManager Examples.




(** Three agents, one eligible on the channel: the eligible one is chosen. *)
Example select_channel_only :
  selectBestAgent
    [exampleAgent "a" ["email"%string]; exampleAgent "b" ["web"%string]; exampleAgent "c" ["sms"%string]]
    (js "org") (mkCriteria (js "web") (Some (js "contact")) None None)
  = Some (exampleAgent "b" ["web"%string]).
Proof. reflexivity. Qed.

(** Equal scores: the first agent in input order is chosen. *)
Example select_tie_first :
  selectBestAgent
    [exampleAgent "a" ["web"%string]; exampleAgent "b" ["web"%string]]
    (js "org") (mkCriteria (js "web") (Some (js "contact")) None None)
  = Some (exampleAgent "a" ["web"%string]).
Proof. reflexivity. Qed.

End AgentManagerFacts.

(* ------------------------------------------------------------------ *)
(** ** Identity resolver: duplicate detection *)

Module DetectFacts.
Import Js Merger.

Lemma fold_left_invariant {A B : Type} (P : A -> Prop) (f : A -> B -> A)
  (l : list B) (a : A) :
  P a -> (forall a b, P a -> P (f a b)) -> P (fold_left f l a).
Proof.
  intros Ha Hf. revert a Ha. induction l as [|b l IH]; simpl; intros a Ha; auto.
Qed.

Lemma mathMin_le_r (a b : Q) : (mathMin a b <= b)%Q.
Proof.
  unfold mathMin. destruct (Qle_bool a b) eqn:E.
  - now apply Qle_bool_iff.
  - apply Qle_refl.
Qed.

Lemma base_confidence_le (avg : Q) : (avg <= 1)%Q -> (avg * (7 # 10) <= 95 # 100)%Q.
Proof. intros H. lra. Qed.

Lemma average_le_1 (a b : Q) : (a <= 1)%Q -> (b <= 1)%Q -> ((a + b) / 2 <= 1)%Q.
Proof.
  intros Ha Hb. apply Qle_shift_div_r; [reflexivity | lra].
Qed.

Lemma emailPass_wellScored (db : Db.t) (org : Id) (p : Profile) :
  Forall wellScored (emailPass db org p).
Proof.
  unfold emailPass. destruct (email p) as [e|]; [|constructor].
  destruct (truthy e); [|constructor].
  apply Forall_forall. intros c Hc. apply in_map_iff in Hc as (m & <- & _).
  unfold wellScored. simpl. reflexivity.
Qed.

Lemma phonePass_wellScored (db : Db.t) (org : Id) (p : Profile)
  (candidates : list DuplicateCandidate) :
  Forall wellScored candidates -> Forall wellScored (phonePass db org p candidates).
Proof.
  intros H. unfold phonePass. destruct (phone p) as [ph|]; [|exact H].
  destruct (truthy ph); [|exact H].
  apply fold_left_invariant; [exact H|]. clear. intros cands m H.
  unfold phoneStep. destruct (Contact.phone m) as [mph|]; [|exact H].
  destruct (truthy mph); [|exact H].
  destruct (eqb _ _); [|exact H].
  destruct (negb _); [|exact H].
  apply Forall_app. split; [exact H|]. constructor; [|constructor].
  unfold wellScored. simpl. reflexivity.
Qed.

Section WithHost.
Variable toLowerCase : jsstring -> jsstring.

Lemma calculateSimilarity_le_1 (a b : jsstring) :
  (Similarity.calculateSimilarity toLowerCase a b <= 1)%Q.
Proof.
  unfold Similarity.calculateSimilarity.
  destruct (Nat.eqb _ 0) eqn:E; [apply Qle_refl|].
  apply Nat.eqb_neq in E.
  set (d := Similarity.levenshteinDistance _ _).
  set (m := Nat.max _ _) in *.
  assert (Hq : (0 <= inject_Z (Z.of_nat d) / inject_Z (Z.of_nat m))%Q).
  { apply Qle_shift_div_l.
    - change 0%Q with (inject_Z 0). rewrite <- Zlt_Qlt. lia.
    - rewrite Qmult_0_l. change 0%Q with (inject_Z 0). rewrite <- Zle_Qle. lia. }
  set (q := (inject_Z (Z.of_nat d) / inject_Z (Z.of_nat m))%Q) in *.
  clearbody q. lra.
Qed.

Lemma fuzzyConfidence_le (p : Profile) (m : Contact.t) (avg : Q) :
  (avg <= 1)%Q -> (fuzzyConfidence p m avg <= 95 # 100)%Q.
Proof.
  intros Havg. unfold fuzzyConfidence.
  set (c0 := (avg * (7 # 10))%Q).
  assert (H0 : (c0 <= 95 # 100)%Q) by (subst c0; now apply base_confidence_le).
  set (c1 := match email p, Contact.email m with
             | Some e, Some me => _ | _, _ => _ end).
  assert (H1 : (c1 <= 95 # 100)%Q).
  { subst c1. destruct (email p) as [e|], (Contact.email m) as [me|]; trivial.
    destruct (_ && _); [apply mathMin_le_r | trivial]. }
  destruct (phone p) as [ph|], (Contact.phone m) as [mph|]; trivial.
  destruct (truthy ph && truthy mph); trivial.
  destruct (_ && _); [apply mathMin_le_r | trivial].
Qed.

Lemma namePass_wellScored (db : Db.t) (org : Id) (p : Profile) (threshold : Q)
  (candidates : list DuplicateCandidate) :
  Forall wellScored candidates ->
  Forall wellScored (namePass toLowerCase db org p threshold candidates).
Proof.
  intros H. unfold namePass.
  destruct (firstName p) as [fn|], (lastName p) as [ln|]; try exact H.
  destruct (truthy fn && truthy ln); [|exact H].
  apply fold_left_invariant; [exact H|]. clear H. intros cands m H.
  unfold nameStep. destruct (someId cands (Contact.id m)); [exact H|].
  destruct (Qle_bool threshold _); [|exact H].
  apply Forall_app. split; [exact H|]. constructor; [|constructor].
  unfold wellScored. simpl. apply fuzzyConfidence_le.
  apply average_le_1; apply calculateSimilarity_le_1.
Qed.

Lemma detect_wellScored (db : Db.t) (org : Id) (p : Profile) (threshold : Q) :
  Forall wellScored (detectDuplicateContacts toLowerCase db org p threshold).
Proof.
  apply Forall_forall. intros c Hc.
  unfold detectDuplicateContacts, StableSort.sortDescZ, StableSort.sortDescQ in Hc.
  apply StableSortFacts.sort_In in Hc. revert c Hc. apply Forall_forall.
  unfold discovered.
  apply namePass_wellScored, phonePass_wellScored, emailPass_wellScored.
Qed.

(** C10.  Every candidate returned by detectDuplicateContacts has
    confidence at most 1.0; every candidate of the fuzzy-name pass has
    confidence at most 0.95; a candidate with confidence exactly 1.0 comes
    from the exact-email pass. *)
Theorem detectDuplicateContacts_confidence_bounds
  (db : Db.t) (org : Id) (p : Profile) (threshold : Q) :
  Forall (fun c =>
            (confidence c <= 1)%Q
            /\ (forall pct, matchReason c = FuzzyNameMatch pct ->
                            (confidence c <= 95 # 100)%Q)
            /\ ((confidence c == 1)%Q -> matchReason c = ExactEmailMatch))
         (detectDuplicateContacts toLowerCase db org p threshold).
Proof.
  eapply Forall_impl; [|apply detect_wellScored].
  intros c Hc. unfold wellScored in Hc.
  destruct (matchReason c) eqn:R.
  - split; [lra | split; [discriminate | reflexivity]].
  - split; [lra | split; [discriminate | intros E; lra]].
  - split; [lra | split; [intros; exact Hc | intros E; lra]].
Qed.

End WithHost.

(** The three passes on a store of look-alikes: an exact email hit, a
    normalized phone hit and a fuzzy name hit, in descending confidence. *)
Example detect_three_passes :
  List.map (fun c => (id c, Qred (confidence c), matchReason c))
    (detectDuplicateContacts lowerBasicLatin Examples.lookalikes (js "org")
       (mkProfile (Some (js "ana@x.com")) (Some (js "+1 555-123-4567"))
                  (Some (js "Ana")) (Some (js "Lopez")))
       (7 # 10))
  = [(js "e", 1%Q, ExactEmailMatch);
     (js "f", (19 # 20)%Q, ExactPhoneMatch);
     (js "g", (63 # 100)%Q, FuzzyNameMatch 90)].
Proof. vm_compute. reflexivity. Qed.

End DetectFacts.

(* ------------------------------------------------------------------ *)
(** ** Identity resolver: merge *)

Module MergeFacts.
Import Js Merger Examples.

Lemma find_by_id_map (f : Contact.t -> Contact.t) (x : Id) (l : list Contact.t) :
  (forall c, Contact.id (f c) = Contact.id c) ->
  find (fun c => eqb (Contact.id c) x) (List.map f l)
  = option_map f (find (fun c => eqb (Contact.id c) x) l).
Proof.
  intros Hf. induction l as [|c l IH]; simpl; [reflexivity|].
  rewrite Hf. destruct (eqb (Contact.id c) x); [reflexivity | exact IH].
Qed.

Lemma findContact_update (p : Contact.t -> bool) (f : Contact.t -> Contact.t)
  (db : Db.t) (x : Id) :
  (forall c, Contact.id (f c) = Contact.id c) ->
  Db.findContact (Db.updateContacts p f db) x
  = option_map (fun c => if p c then f c else c) (Db.findContact db x).
Proof.
  intros Hf. unfold Db.findContact, Db.updateContacts. simpl.
  apply find_by_id_map. intros c. destruct (p c); [apply Hf | reflexivity].
Qed.

Lemma findContact_id (db : Db.t) (x : Id) (c : Contact.t) :
  Db.findContact db x = Some c -> Contact.id c = x.
Proof.
  intros H. apply find_some in H as [_ H]. now apply JsFacts.eqb_eq.
Qed.

Lemma findContact_In (db : Db.t) (c : Contact.t) :
  In c (Db.contacts db) -> Db.findContact db (Contact.id c) <> None.
Proof.
  intros Hin H. eapply find_none in H; [|exact Hin].
  simpl in H. now rewrite JsFacts.eqb_refl in H.
Qed.

Lemma inArray_In (x : Id) (ids : list Id) : Db.inArray x ids = true <-> In x ids.
Proof.
  unfold Db.inArray. rewrite existsb_exists. split.
  - intros (y & Hy & E). apply JsFacts.eqb_eq in E. now subst.
  - intros H. exists x. split; [exact H | apply JsFacts.eqb_refl].
Qed.

Lemma inArray_two (x d1 d2 : Id) :
  Db.inArray x [d1; d2] = eqb x d1 || eqb x d2.
Proof. unfold Db.inArray. simpl. now rewrite orb_false_r. Qed.

Lemma fold_left_add (f : Contact.t -> Z) (l : list Contact.t) (a : Z) :
  fold_left (fun sum d => sum + f d) l a
  = a + fold_left (fun sum d => sum + f d) l 0.
Proof.
  revert a. induction l as [|c l IH]; intros a; simpl; [lia|].
  rewrite (IH (a + f c)), (IH (f c)). lia.
Qed.

Lemma ofId_absent (f : Contact.t -> Z) (d : Id) (l : list Contact.t) :
  ~ In d (List.map Contact.id l) -> ofId f d l = 0.
Proof.
  intros H. unfold ofId.
  destruct (find _ l) as [c|] eqn:E; [|reflexivity].
  apply find_some in E as [Hin E]. apply JsFacts.eqb_eq in E.
  exfalso. apply H. rewrite <- E. now apply in_map.
Qed.

Lemma sum_over_two (f : Contact.t -> Z) (d1 d2 : Id) (l : list Contact.t) :
  NoDup (List.map Contact.id l) -> d1 <> d2 ->
  fold_left (fun sum d => sum + f d)
            (filter (fun c => Db.inArray (Contact.id c) [d1; d2]) l) 0
  = ofId f d1 l + ofId f d2 l.
Proof.
  intros Hnd Hne. induction l as [|c l IH]; [reflexivity|].
  simpl in Hnd. inversion Hnd as [|? ? Hc Hnd']; subst.
  specialize (IH Hnd'). cbn [filter]. rewrite inArray_two.
  unfold ofId at 1 2. cbn [find].
  destruct (eqb (Contact.id c) d1) eqn:E1.
  - apply JsFacts.eqb_eq in E1.
    assert (E2 : eqb (Contact.id c) d2 = false)
      by (apply JsFacts.eqb_neq; congruence).
    rewrite E2. cbn [orb fold_left]. rewrite fold_left_add, IH.
    fold (ofId f d2 l). rewrite (ofId_absent f d1 l) by (rewrite <- E1; exact Hc). lia.
  - destruct (eqb (Contact.id c) d2) eqn:E2; cbn [orb fold_left].
    + apply JsFacts.eqb_eq in E2.
      rewrite fold_left_add, IH. fold (ofId f d1 l).
      rewrite (ofId_absent f d2 l) by (rewrite <- E2; exact Hc). lia.
    + exact IH.
Qed.

Lemma repoint_repointed (p d1 d2 : Id) (rows : list Db.Linked) :
  repointed p d1 d2 rows (Db.repoint p [d1; d2] rows).
Proof.
  unfold repointed, Db.repoint.
  induction rows as [|r rows IH]; cbn [List.map]; constructor; [|exact IH].
  rewrite inArray_two.
  destruct (eqb (Db.contactId r) d1) eqn:E1; simpl.
  - apply JsFacts.eqb_eq in E1. repeat split; auto. intros H; contradiction.
  - destruct (eqb (Db.contactId r) d2) eqn:E2; simpl.
    + apply JsFacts.eqb_eq in E2. repeat split; auto. intros _ H; contradiction.
    + apply JsFacts.eqb_neq in E1, E2. repeat split; auto. intros [H|H]; contradiction.
Qed.

Section WithHost.
Variable toLowerCase : jsstring -> jsstring.

Lemma afterMerge_primary (now : Z) (primary : Contact.t) (p : Id)
  (duplicateIds : list Id) (db : Db.t) (score : Z) :
  Contact.id primary = p -> Db.inArray p duplicateIds = false ->
  afterMerge toLowerCase now primary p duplicateIds db score primary
  = Contact.setHeatScore score now
      (setMergedFields toLowerCase now primary
         (filter (fun c => Db.inArray (Contact.id c) duplicateIds) (Db.contacts db))
         duplicateIds primary).
Proof.
  intros Hid Hin. unfold afterMerge. cbv zeta. rewrite Hid, JsFacts.eqb_refl.
  change (Contact.id (setMergedFields _ _ _ _ _ primary)) with (Contact.id primary).
  rewrite Hid, Hin.
  change (Contact.id (setMergedFields _ _ _ _ _ primary)) with (Contact.id primary).
  now rewrite Hid, JsFacts.eqb_refl.
Qed.

Lemma afterMerge_duplicate (now : Z) (primary : Contact.t) (p d : Id)
  (duplicateIds : list Id) (db : Db.t) (score : Z) (c : Contact.t) :
  Contact.id c = d -> eqb d p = false -> Db.inArray d duplicateIds = true ->
  afterMerge toLowerCase now primary p duplicateIds db score c = Contact.setMerged p now c.
Proof.
  intros Hid Hne Hin. unfold afterMerge. cbv zeta. rewrite Hid, Hne, Hid, Hin.
  change (Contact.id (Contact.setMerged p now c)) with (Contact.id c).
  now rewrite Hid, Hne.
Qed.

(** The shape of a successful merge. *)
Lemma mergeContacts_success (now : Z) (primaryId : Id) (duplicateIds : list Id)
  (db : Db.t) (primary : Contact.t) :
  Db.findContact db primaryId = Some primary ->
  filter (fun c => Db.inArray (Contact.id c) duplicateIds) (Db.contacts db) <> [] ->
  Db.int4 (mergedInteractionCount primary
             (filter (fun c => Db.inArray (Contact.id c) duplicateIds)
                (Db.contacts db))) = true ->
  Db.int4 (mergedLifetimeValue primary
             (filter (fun c => Db.inArray (Contact.id c) duplicateIds)
                (Db.contacts db))) = true ->
  exists result db' score,
    mergeContacts toLowerCase now primaryId duplicateIds db = (inr result, db')
    /\ (forall x, Db.findContact db' x
                  = option_map (afterMerge toLowerCase now primary primaryId duplicateIds db score)
                               (Db.findContact db x))
    /\ Db.conversations db' = Db.repoint primaryId duplicateIds (Db.conversations db)
    /\ Db.contactAgreements db'
       = Db.repoint primaryId duplicateIds (Db.contactAgreements db)
    /\ Db.contactNotes db' = Db.repoint primaryId duplicateIds (Db.contactNotes db).
Proof.
  intros Hp Hd Hic Hlv. unfold mergeContacts, mergeContactsTx. rewrite Hp.
  destruct (filter _ (Db.contacts db)) as [|dup0 dups] eqn:Ef; [congruence|].
  rewrite <- Ef in *. clear Hd.
  set (duplicates := filter _ (Db.contacts db)) in *.
  rewrite Hic, Hlv. cbn [andb negb].
  set (g1 := setMergedFields toLowerCase now primary duplicates duplicateIds).
  set (db1 := Db.updateContacts _ g1 db).
  set (db2 := Db.mk (Db.contacts db1) _ _ _ _ _ _ _).
  set (db3 := Db.updateContacts _ (Contact.setMerged primaryId now) db2).
  assert (F3 : forall x, Db.findContact db3 x
     = option_map (fun c =>
         let c1 := if eqb (Contact.id c) primaryId then g1 c else c in
         if Db.inArray (Contact.id c1) duplicateIds
         then Contact.setMerged primaryId now c1 else c1) (Db.findContact db x)).
  { intros x. subst db3. rewrite findContact_update by reflexivity.
    change (Db.findContact db2 x) with (Db.findContact db1 x).
    subst db1. rewrite findContact_update by reflexivity.
    destruct (Db.findContact db x); reflexivity. }
  rewrite (F3 primaryId), Hp. simpl option_map. cbv zeta.
  unfold Scoring.recalculateHeatScore, Scoring.calculateHeatScore.
  rewrite (F3 primaryId), Hp. simpl option_map. cbv zeta.
  eexists _, _, _. split; [reflexivity|]. split; [|repeat split].
  intros x. rewrite findContact_update by reflexivity. rewrite F3.
  destruct (Db.findContact db x); reflexivity.
Qed.

(** C4 (amended).  mergeContacts fails and leaves the store unchanged
    whenever the primary contact is absent or none of the contacts listed in
    duplicateIds exists. *)
Theorem mergeContacts_not_found_unchanged
  (now : Z) (primaryId : Id) (duplicateIds : list Id) (db : Db.t) :
  Db.findContact db primaryId = None
  \/ (forall d, In d duplicateIds -> Db.findContact db d = None) ->
  exists message,
    mergeContacts toLowerCase now primaryId duplicateIds db = (inl (Err message), db)
    /\ (message = "Primary contact not found"%string
        \/ message = "No duplicate contacts found"%string).
Proof.
  intros H. unfold mergeContacts, mergeContactsTx.
  destruct (Db.findContact db primaryId) as [primary|] eqn:Hp.
  - destruct H as [H|H]; [discriminate|].
    destruct (filter _ (Db.contacts db)) as [|c cs] eqn:Ef.
    + eexists. split; [reflexivity | now right].
    + exfalso. assert (Hc : In c (filter (fun c => Db.inArray (Contact.id c) duplicateIds)
                                   (Db.contacts db))) by (rewrite Ef; now left).
      apply filter_In in Hc as [Hin Hc]. apply inArray_In in Hc.
      now apply (findContact_In db c Hin), H.
  - eexists. split; [reflexivity | now left].
Qed.


(** C1 (amended).  For every call mergeContacts(primary, [dup1, dup2]) on
    three distinct existing contacts whose primary is active and whose summed
    interactionCount and summed lifetimeValue fit the integer columns they
    are written to, the call succeeds; afterwards the primary is the only
    active one of the three, both duplicates are merged into it, every
    conversation, agreement and note row that pointed at dup1 or dup2 points
    at the primary, and the primary's interactionCount is the sum of the
    three pre-merge counts. *)
Theorem mergeContacts_two_duplicates
  (now : Z) (db : Db.t) (p d1 d2 : Id) (cp c1 c2 : Contact.t) :
  uniqueIds db ->
  Db.findContact db p = Some cp ->
  Db.findContact db d1 = Some c1 ->
  Db.findContact db d2 = Some c2 ->
  p <> d1 -> p <> d2 -> d1 <> d2 ->
  Contact.status cp = active ->
  Db.int4 (Contact.interactionCount cp + Contact.interactionCount c1
           + Contact.interactionCount c2) = true ->
  Db.int4 (orZero (Contact.lifetimeValue cp) + orZero (Contact.lifetimeValue c1)
           + orZero (Contact.lifetimeValue c2)) = true ->
  exists result db' cp' c1' c2',
    mergeContacts toLowerCase now p [d1; d2] db = (inr result, db')
    /\ Db.findContact db' p = Some cp'
    /\ Db.findContact db' d1 = Some c1'
    /\ Db.findContact db' d2 = Some c2'
    /\ Contact.status cp' = active
    /\ (Contact.status c1' = merged /\ Contact.mergedWithId c1' = Some p)
    /\ (Contact.status c2' = merged /\ Contact.mergedWithId c2' = Some p)
    /\ Contact.interactionCount cp'
       = Contact.interactionCount cp + Contact.interactionCount c1
         + Contact.interactionCount c2
    /\ repointed p d1 d2 (Db.conversations db) (Db.conversations db')
    /\ repointed p d1 d2 (Db.contactAgreements db) (Db.contactAgreements db')
    /\ repointed p d1 d2 (Db.contactNotes db) (Db.contactNotes db').
Proof.
  intros Hu Hp H1 H2 N1 N2 N12 Hact Hic Hlv.
  pose proof (findContact_id _ _ _ Hp) as Ip.
  pose proof (findContact_id _ _ _ H1) as I1.
  pose proof (findContact_id _ _ _ H2) as I2.
  assert (Hne : filter (fun c => Db.inArray (Contact.id c) [d1; d2]) (Db.contacts db)
                <> []).
  { intros E. apply find_some in H1 as [Hin _].
    assert (Hc : In c1 (filter (fun c => Db.inArray (Contact.id c) [d1; d2])
                          (Db.contacts db))).
    { apply filter_In. split; [exact Hin|]. rewrite inArray_two, I1.
      now rewrite JsFacts.eqb_refl. }
    rewrite E in Hc. contradiction. }
  assert (Sic : mergedInteractionCount cp
                  (filter (fun c => Db.inArray (Contact.id c) [d1; d2]) (Db.contacts db))
                = Contact.interactionCount cp + Contact.interactionCount c1
                  + Contact.interactionCount c2).
  { unfold mergedInteractionCount.
    rewrite (sum_over_two Contact.interactionCount d1 d2 (Db.contacts db) Hu N12).
    unfold ofId. fold (Db.findContact db d1). fold (Db.findContact db d2).
    rewrite H1, H2. lia. }
  assert (Slv : mergedLifetimeValue cp
                  (filter (fun c => Db.inArray (Contact.id c) [d1; d2]) (Db.contacts db))
                = orZero (Contact.lifetimeValue cp) + orZero (Contact.lifetimeValue c1)
                  + orZero (Contact.lifetimeValue c2)).
  { unfold mergedLifetimeValue.
    rewrite (sum_over_two (fun c => orZero (Contact.lifetimeValue c)) d1 d2
               (Db.contacts db) Hu N12).
    unfold ofId. fold (Db.findContact db d1). fold (Db.findContact db d2).
    rewrite H1, H2. lia. }
  rewrite <- Sic in Hic. rewrite <- Slv in Hlv.
  destruct (mergeContacts_success now p [d1; d2] db cp Hp Hne Hic Hlv)
    as (result & db' & score & Hm & Hf & Hconv & Hagr & Hnote).
  assert (Epd1 : eqb p d1 = false) by now apply JsFacts.eqb_neq.
  assert (Epd2 : eqb p d2 = false) by now apply JsFacts.eqb_neq.
  assert (Ed1p : eqb d1 p = false) by (apply JsFacts.eqb_neq; congruence).
  assert (Ed2p : eqb d2 p = false) by (apply JsFacts.eqb_neq; congruence).
  assert (Ed2d1 : eqb d2 d1 = false) by (apply JsFacts.eqb_neq; congruence).
  exists result, db'.
  exists (afterMerge toLowerCase now cp p [d1; d2] db score cp),
         (afterMerge toLowerCase now cp p [d1; d2] db score c1),
         (afterMerge toLowerCase now cp p [d1; d2] db score c2).
  split; [exact Hm|].
  split; [rewrite Hf, Hp; reflexivity|].
  split; [rewrite Hf, H1; reflexivity|].
  split; [rewrite Hf, H2; reflexivity|].
  rewrite (afterMerge_primary now cp p [d1; d2] db score Ip)
    by (rewrite inArray_two, Epd1, Epd2; reflexivity).
  rewrite (afterMerge_duplicate now cp p d1 [d1; d2] db score c1 I1 Ed1p)
    by (rewrite inArray_two, JsFacts.eqb_refl; reflexivity).
  rewrite (afterMerge_duplicate now cp p d2 [d1; d2] db score c2 I2 Ed2p)
    by (rewrite inArray_two, JsFacts.eqb_refl; apply orb_true_r).
  split; [exact Hact|].
  split; [split; reflexivity|].
  split; [split; reflexivity|].
  split.
  - change (Contact.interactionCount (Contact.setHeatScore _ _ ?c))
      with (Contact.interactionCount c).
    unfold setMergedFields. cbn [Contact.interactionCount]. exact Sic.
  - rewrite Hconv, Hagr, Hnote. repeat split; apply repoint_repointed.
Qed.

(** Candidates found by a pass stay in the list through the later passes. *)
Lemma phonePass_keeps (db : Db.t) (org : Id) (p : Profile)
  (candidates : list DuplicateCandidate) (x : DuplicateCandidate) :
  In x candidates -> In x (phonePass db org p candidates).
Proof.
  intros H. unfold phonePass. destruct (phone p) as [ph|]; [|exact H].
  destruct (truthy ph); [|exact H].
  apply (DetectFacts.fold_left_invariant (fun l => In x l)); [exact H|].
  clear. intros cands m H. unfold phoneStep.
  destruct (Contact.phone m) as [mph|]; [|exact H].
  destruct (truthy mph); [|exact H].
  destruct (eqb _ _); [|exact H].
  destruct (negb _); [|exact H].
  apply in_or_app. now left.
Qed.

Lemma namePass_keeps (db : Db.t) (org : Id) (p : Profile) (threshold : Q)
  (candidates : list DuplicateCandidate) (x : DuplicateCandidate) :
  In x candidates -> In x (namePass toLowerCase db org p threshold candidates).
Proof.
  intros H. unfold namePass.
  destruct (firstName p) as [fn|], (lastName p) as [ln|]; try exact H.
  destruct (truthy fn && truthy ln); [|exact H].
  apply (DetectFacts.fold_left_invariant (fun l => In x l)); [exact H|].
  clear. intros cands m H. unfold nameStep.
  destruct (someId cands (Contact.id m)); [exact H|].
  destruct (Qle_bool threshold _); [|exact H].
  apply in_or_app. now left.
Qed.

End WithHost.

Lemma mergeContacts_two_duplicates_witness :
  exists result db',
    mergeContacts lowerBasicLatin 0 (js "p") [js "d1"; js "d2"] activeTrio
      = (inr result, db')
    /\ option_map Contact.interactionCount (Db.findContact db' (js "p")) = Some 7.
Proof.
  destruct (mergeContacts_two_duplicates lowerBasicLatin 0 activeTrio
              (js "p") (js "d1") (js "d2")
              (person "p" None active 1) (person "d1" None active 2)
              (person "d2" None active 4))
    as (result & db' & cp' & c1' & c2' & Hm & Hp & _ & _ & _ & _ & _ & Hc & _).
  - unfold uniqueIds. vm_compute.
    repeat (constructor; [simpl; intuition discriminate|]). constructor.
  - reflexivity.
  - reflexivity.
  - reflexivity.
  - discriminate.
  - discriminate.
  - discriminate.
  - reflexivity.
  - reflexivity.
  - reflexivity.
  - exists result, db'. split; [exact Hm|]. rewrite Hp. simpl. now rewrite Hc.
Defined.

(** C1 as stated fails for a primary that is not active: three distinct
    existing contacts, the call succeeds, and none of them is active. *)
Lemma mergeContacts_inactive_primary :
  List.map Contact.id (Db.contacts inactivePrimaryTrio) = [js "p"; js "d1"; js "d2"]
  /\ match mergeContacts lowerBasicLatin 0 (js "p") [js "d1"; js "d2"]
             inactivePrimaryTrio with
     | (inr _, db') =>
         List.map (fun c => isActive (Contact.status c)) (Db.contacts db')
         = [false; false; false]
     | (inl _, _) => False
     end.
Proof. split; vm_compute; reflexivity. Qed.

Lemma mergeContacts_not_found_witness :
  exists message,
    mergeContacts lowerBasicLatin 0 (js "ghost") [js "d1"] pair
      = (inl (Err message), pair)
    /\ (message = "Primary contact not found"%string
        \/ message = "No duplicate contacts found"%string).
Proof.
  apply (mergeContacts_not_found_unchanged lowerBasicLatin 0 (js "ghost")
           [js "d1"] pair).
  left. reflexivity.
Defined.

(** C4 as stated fails when only some of the listed contacts are absent:
    the call succeeds and marks the one that exists as merged. *)
Lemma mergeContacts_partly_absent :
  Db.findContact pair (js "ghost") = None
  /\ option_map Contact.status (Db.findContact pair (js "d1")) = Some active
  /\ match mergeContacts lowerBasicLatin 0 (js "p") [js "d1"; js "ghost"] pair with
     | (inr _, db') =>
         option_map Contact.status (Db.findContact db' (js "d1")) = Some merged
     | (inl _, _) => False
     end.
Proof. repeat split; vm_compute; reflexivity. Qed.

(** C2: the contact table after autoMergeHighConfidenceDuplicates on an
    organization whose only contact is active and has an email.  The
    contact is detected as its own duplicate and merged into itself. *)
Theorem autoMerge_merges_contact_into_itself :
  mergeInvariant loneContact = true
  /\ fst (autoMergeHighConfidenceDuplicates lowerBasicLatin 0 (js "org") loneContact)
     = 1%nat
  /\ let db' := snd (autoMergeHighConfidenceDuplicates lowerBasicLatin 0 (js "org")
                       loneContact) in
     option_map (fun c => (Contact.status c, Contact.mergedWithId c))
                (Db.findContact db' (js "a"))
       = Some (merged, Some (js "a"))
     /\ mergeInvariant db' = false.
Proof. repeat split; vm_compute; reflexivity. Qed.

End MergeFacts.

(* ------------------------------------------------------------------ *)
(** ** Pipeline: conversation history *)

Module HistoryFacts.
Import Js Core Examples.

Lemma filter_all {A : Type} (p : A -> bool) (l : list A) :
  forallb p l = true -> filter p l = l.
Proof.
  induction l as [|x l IH]; simpl; [reflexivity|].
  intros H. apply andb_true_iff in H as [Hx Hl]. rewrite Hx. f_equal. now apply IH.
Qed.

Lemma length_filter_le {A : Type} (p : A -> bool) (l : list A) :
  (List.length (filter p l) <= List.length l)%nat.
Proof.
  induction l as [|x l IH]; simpl; [lia|]. destruct (p x); simpl; lia.
Qed.

Lemma lastN_split {A : Type} (n : nat) (l : list A) :
  l = firstn (List.length l - n) l ++ lastN n l.
Proof. unfold lastN. now rewrite firstn_skipn. Qed.

Lemma lastN_length {A : Type} (n : nat) (l : list A) :
  List.length (lastN n l) = Nat.min n (List.length l).
Proof. unfold lastN. rewrite length_skipn. lia. Qed.

Lemma lastN_all {A : Type} (n : nat) (l : list A) :
  (List.length l <= n)%nat -> lastN n l = l.
Proof.
  intros H. unfold lastN. replace (List.length l - n)%nat with 0%nat by lia.
  reflexivity.
Qed.

Lemma lastN_app {A : Type} (l1 l2 : list A) :
  lastN (List.length l2) (l1 ++ l2) = l2.
Proof.
  unfold lastN. rewrite length_app.
  replace (List.length l1 + List.length l2 - List.length l2)%nat
    with (List.length l1 + 0)%nat by lia.
  rewrite skipn_app, Nat.add_0_r, skipn_all.
  replace (List.length l1 - List.length l1)%nat with 0%nat by lia. reflexivity.
Qed.

(** Selecting commutes with taking the newest end. *)
Lemma lastN_filter {A : Type} (p : A -> bool) (n : nat) (l : list A) :
  lastN (List.length (filter p (lastN n l))) (filter p l) = filter p (lastN n l).
Proof.
  rewrite (lastN_split n l) at 2. rewrite filter_app. apply lastN_app.
Qed.

Lemma lastN_filter_all {A : Type} (p : A -> bool) (n : nat) (l : list A) :
  forallb p (lastN n l) = true -> lastN n (filter p l) = lastN n l.
Proof.
  intros Hall. pose proof (lastN_length n l) as Hlen.
  destruct (Nat.le_gt_cases (List.length l) n) as [Hle|Hgt].
  - rewrite (lastN_all n l Hle) in *. rewrite (filter_all _ _ Hall).
    now apply lastN_all.
  - rewrite (lastN_split n l) at 1. rewrite filter_app, (filter_all _ _ Hall).
    replace n with (List.length (lastN n l)) at 1 by lia. apply lastN_app.
Qed.

(** The history is read off the rows of the window. *)
Lemma history_rows (table : list Message.t) (conversationId : Id) (limit : nat) :
  getConversationHistory table conversationId limit
  = List.map (fun msg => (Message.role msg, Message.content msg))
      (filter notSystem (rev (recentMessages table conversationId limit))).
Proof.
  unfold getConversationHistory. cbv zeta. rewrite filter_map_swap. reflexivity.
Qed.

(** The window, oldest first, is the newest end of the timeline. *)
Lemma window_newest (table : list Message.t) (conversationId : Id) (limit : nat) :
  rev (recentMessages table conversationId limit)
  = lastN limit (timeline table conversationId).
Proof.
  unfold recentMessages, lastN. now rewrite firstn_rev, rev_involutive.
Qed.

(** C8 (amended).  The messages of a conversation are ordered by createdAt,
    messages with equal timestamps in the order of their insertion.
    getConversationHistory(conversationId, limit) takes the last [limit]
    messages of any role in that order and returns, in that order, the
    non-system messages among them: with [kept] of them, the last [kept]
    non-system messages of the conversation.  These are the last [limit]
    non-system messages (all of them when fewer exist) whenever no system
    message is among the last [limit] messages, or the conversation has at
    most [limit] messages. *)
Theorem getConversationHistory_window
  (table : list Message.t) (conversationId : Id) (limit : nat) :
  let rows :=
    filter (fun m => eqb (Message.conversationId m) conversationId) table in
  let ordered := timeline table conversationId in
  let window := recentMessages table conversationId limit in
  let kept := List.length (filter notSystem window) in
  (Permutation rows ordered
   /\ StronglySorted chronological ordered
   /\ forall t, filter (fun m => Message.createdAt m =? t) ordered
                = filter (fun m => Message.createdAt m =? t) rows)
  /\ rev window = lastN limit ordered
  /\ getConversationHistory table conversationId limit
     = List.map (fun msg => (Message.role msg, Message.content msg))
         (filter notSystem (rev window))
  /\ getConversationHistory table conversationId limit
     = specHistory table conversationId kept
  /\ (kept <= limit)%nat
  /\ (forallb notSystem window = true \/ (List.length rows <= limit)%nat ->
      getConversationHistory table conversationId limit
      = specHistory table conversationId limit).
Proof.
  intros rows ordered window kept.
  assert (Hw : rev window = lastN limit ordered) by apply window_newest.
  assert (Hk : kept = List.length (filter notSystem (lastN limit ordered))).
  { unfold kept. now rewrite <- Hw, filter_rev, length_rev. }
  assert (Hs : forall n,
             specHistory table conversationId n
             = List.map (fun msg => (Message.role msg, Message.content msg))
                 (lastN n (filter notSystem ordered))).
  { intros n. unfold specHistory. now rewrite StableSortFacts.sortAscZ_filter. }
  split; [|split; [exact Hw|split; [apply history_rows|split; [|split]]]].
  - split; [apply StableSortFacts.sortAscZ_perm|]. split.
    + apply (StableSortFacts.sortAscZ_sorted Message.createdAt).
    + intros t. apply StableSortFacts.sortAscZ_stable.
  - rewrite history_rows. fold window. rewrite Hw, Hs, Hk.
    now rewrite lastN_filter.
  - rewrite Hk. etransitivity; [apply length_filter_le|].
    rewrite lastN_length. lia.
  - intros H. rewrite history_rows. fold window. rewrite Hw, Hs. f_equal.
    destruct H as [Hall|Hfew].
    + assert (Hall' : forallb notSystem (lastN limit ordered) = true).
      { rewrite <- Hw. apply forallb_forall. intros m Hm.
        apply in_rev in Hm. rewrite forallb_forall in Hall. now apply Hall. }
      rewrite (filter_all _ _ Hall'). symmetry. now apply lastN_filter_all.
    + assert (Hl : (List.length ordered <= limit)%nat).
      { unfold ordered, timeline, StableSort.sortAscZ.
        now rewrite StableSortFacts.sort_length. }
      rewrite (lastN_all limit ordered Hl). symmetry. apply lastN_all.
      etransitivity; [apply length_filter_le | exact Hl].
Qed.

Lemma getConversationHistory_window_witness :
  getConversationHistory threeUserMessages (js "conv") 20
  = specHistory threeUserMessages (js "conv") 20.
Proof.
  apply (proj2 (proj2 (proj2 (proj2 (proj2
           (getConversationHistory_window threeUserMessages (js "conv") 20)))))).
  left. reflexivity.
Defined.

(** C8 as stated fails when a system message is among the 20 most recent
    messages: the conversation has 20 non-system messages, the history
    returns 19 of them. *)
Lemma getConversationHistory_drops_one :
  List.length (filter notSystem twentyThenSystem) = 20%nat
  /\ List.length (specHistory twentyThenSystem (js "conv") 20) = 20%nat
  /\ List.length (getConversationHistory twentyThenSystem (js "conv") 20) = 19%nat
  /\ getConversationHistory twentyThenSystem (js "conv") 20
     <> specHistory twentyThenSystem (js "conv") 20.
Proof.
  repeat split; try (vm_compute; reflexivity).
  intros E. apply (f_equal (@List.length _)) in E. vm_compute in E. discriminate.
Qed.

(** Equal timestamps: of the five messages of [tiedMessages] the last four
    in insertion order are returned, in insertion order. *)
Example getConversationHistory_ties :
  List.map snd (getConversationHistory tiedMessages (js "conv") 4)
  = [js "b"; js "c"; js "d"; js "e"].
Proof. vm_compute. reflexivity. Qed.

End HistoryFacts.

(* ------------------------------------------------------------------ *)
(** ** Decision engine *)

Module DecisionFacts.
Import Js DecisionMaker Examples.

Lemma takeNonSpace_app (body post : jsstring) :
  noSpace body = true -> endsOrSpace post -> takeNonSpace (body ++ post) = body.
Proof.
  intros Hb Hp. induction body as [|c body IH]; simpl.
  - destruct Hp as [->|(w & post' & -> & Hw)]; simpl; [reflexivity | now rewrite Hw].
  - simpl in Hb. apply andb_true_iff in Hb as [Hc Hb].
    apply negb_true_iff in Hc. rewrite Hc. f_equal. now apply IH.
Qed.

Lemma takeNonSpace_prefix (body rest : jsstring) :
  noSpace body = true -> takeNonSpace (body ++ rest) = body ++ takeNonSpace rest.
Proof.
  intros Hb. induction body as [|c body IH]; simpl; [reflexivity|].
  simpl in Hb. apply andb_true_iff in Hb as [Hc Hb].
  apply negb_true_iff in Hc. rewrite Hc. f_equal. now apply IH.
Qed.

Lemma takeNonSpace_noSpace (s : jsstring) : noSpace (takeNonSpace s) = true.
Proof.
  induction s as [|c s IH]; simpl; [reflexivity|].
  destruct (isWhiteSpace c) eqn:E; simpl; [reflexivity|]. now rewrite E, IH.
Qed.

Lemma startsWith_split (s p : jsstring) :
  startsWith s p = true -> s = p ++ skipn (List.length p) s.
Proof.
  revert s. induction p as [|y p IH]; intros s; [reflexivity|].
  destruct s as [|x s]; simpl; [discriminate|].
  intros H. apply andb_true_iff in H as [H1 H2]. apply N.eqb_eq in H1. subst.
  f_equal. now apply IH.
Qed.

(** A match covers code units that are not [\s] only. *)
Lemma matchUrlAt_length (s m : jsstring) :
  matchUrlAt s = Some m ->
  (1 <= List.length m <= List.length (takeNonSpace s))%nat.
Proof.
  unfold matchUrlAt.
  destruct (startsWith s (js "https://")) eqn:E1.
  - apply startsWith_split in E1. change (List.length (js "https://")) with 8%nat in E1.
    destruct (takeNonSpace (skipn 8 s)) as [|b body] eqn:Eb; [discriminate|].
    intros H. injection H as <-. rewrite E1.
    rewrite takeNonSpace_prefix by reflexivity. rewrite Eb.
    rewrite !length_app. simpl. lia.
  - destruct (startsWith s (js "http://")) eqn:E2; [|discriminate].
    apply startsWith_split in E2. change (List.length (js "http://")) with 7%nat in E2.
    destruct (takeNonSpace (skipn 7 s)) as [|b body] eqn:Eb; [discriminate|].
    intros H. injection H as <-. rewrite E2.
    rewrite takeNonSpace_prefix by reflexivity. rewrite Eb.
    rewrite !length_app. simpl. lia.
Qed.

Lemma matchUrlAt_space (w : codeUnit) (s : jsstring) :
  isWhiteSpace w = true -> matchUrlAt (w :: s) = None.
Proof.
  intros Hw. unfold matchUrlAt. simpl.
  destruct (N.eqb w 104) eqn:E; [|reflexivity].
  apply N.eqb_eq in E. subst. discriminate.
Qed.

(** The scan reaches the position behind a prefix that ends in a [\s]
    with nothing left to skip. *)
Lemma scanUrls_prefix (pre' : jsstring) (w : codeUnit) (rest : jsstring) (k : nat) :
  isWhiteSpace w = true ->
  (k <= List.length (takeNonSpace (pre' ++ [w] ++ rest)))%nat ->
  exists found,
    scanUrls k (pre' ++ [w] ++ rest) = found ++ scanUrls 0 rest.
Proof.
  intros Hw. revert k. induction pre' as [|c pre' IH]; intros k Hk.
  - simpl in Hk. rewrite Hw in Hk. simpl in Hk.
    assert (k = 0%nat) by lia. subst k.
    exists []. cbn [app scanUrls]. now rewrite matchUrlAt_space.
  - cbn [app] in *. cbn [scanUrls]. destruct k as [|k].
    + destruct (matchUrlAt (c :: pre' ++ w :: rest)) as [m|] eqn:Em.
      * apply matchUrlAt_length in Em. cbn [takeNonSpace] in Em.
        destruct (isWhiteSpace c); [simpl in Em; lia|]. simpl in Em.
        destruct (IH (List.length m - 1)%nat) as (found & Hf); [simpl; lia|].
        exists (m :: found). simpl. now rewrite <- Hf.
      * destruct (IH 0%nat) as (found & Hf); [lia|]. now exists found.
    + cbn [takeNonSpace] in Hk.
      destruct (isWhiteSpace c); [simpl in Hk; lia|]. simpl in Hk.
      destruct (IH k) as (found & Hf); [simpl; lia|]. now exists found.
Qed.

Lemma matchUrlAt_promo (post : jsstring) :
  endsOrSpace post -> matchUrlAt (promoUrl ++ post) = Some promoUrl.
Proof.
  intros Hp. unfold matchUrlAt.
  change (promoUrl ++ post) with (js "https://" ++ (js "example.com/promo" ++ post)).
  rewrite JsFacts.startsWith_app.
  change (skipn 8 (js "https://" ++ (js "example.com/promo" ++ post)))
    with (js "example.com/promo" ++ post).
  rewrite takeNonSpace_app by (trivial; reflexivity). reflexivity.
Qed.

Lemma scanUrls_match (c : codeUnit) (s m : jsstring) :
  matchUrlAt (c :: s) = Some m ->
  scanUrls 0 (c :: s) = m :: scanUrls (List.length m - 1) s.
Proof. intros H. cbn [scanUrls]. rewrite H. reflexivity. Qed.

Lemma takeNonSpace_rest (s : jsstring) :
  exists rest,
    s = takeNonSpace s ++ rest
    /\ (rest = [] \/ exists w rest', rest = w :: rest' /\ isWhiteSpace w = true).
Proof.
  induction s as [|c s (rest & Hs & Hr)]; simpl.
  - exists []. split; [reflexivity | now left].
  - destruct (isWhiteSpace c) eqn:E.
    + exists (c :: s). split; [reflexivity|]. right. now exists c, s.
    + exists rest. split; [simpl; now rewrite <- Hs | exact Hr].
Qed.

(** A text is its last run, preceded by nothing or by a text that ends in a
    [\s]. *)
Lemma lastRun_split (pre : jsstring) :
  pre = lastRun pre
  \/ exists pre' w, pre = pre' ++ [w] ++ lastRun pre /\ isWhiteSpace w = true.
Proof.
  unfold lastRun. destruct (takeNonSpace_rest (rev pre)) as (rest & Hs & Hr).
  apply (f_equal (@rev _)) in Hs. rewrite rev_involutive, rev_app_distr in Hs.
  destruct Hr as [->|(w & rest' & -> & Hw)].
  - left. exact Hs.
  - right. exists (rev rest'), w. split; [|exact Hw].
    simpl in Hs. now rewrite <- app_assoc in Hs.
Qed.

Lemma In_skipn_In {A : Type} (x : A) (n : nat) (l : list A) :
  In x (skipn n l) -> In x l.
Proof.
  revert l. induction n as [|n IH]; intros [|y l]; simpl; auto.
Qed.

(** A pattern found where [b] is followed by [h] lies within [b], or has
    [h] behind its first [length b] code units. *)
Lemma startsWith_across (b : jsstring) (h : codeUnit) (rest p : jsstring) :
  startsWith (b ++ h :: rest) p = true ->
  startsWith b p = true \/ In h (skipn (List.length b) p).
Proof.
  revert p. induction b as [|x b IH]; intros [|y p]; simpl; auto.
  - intros H. apply andb_true_iff in H as [H _]. apply N.eqb_eq in H. auto.
  - intros H. apply andb_true_iff in H as [Hx H]. rewrite Hx. simpl.
    now apply IH.
Qed.

Lemma includes_suffix (a b p : jsstring) :
  includes (a ++ b) p = false -> startsWith b p = false.
Proof.
  intros H. destruct (startsWith b p) eqn:E; [|reflexivity].
  rewrite (JsFacts.includes_app_l a b p (JsFacts.includes_startsWith b p E)) in H.
  discriminate.
Qed.

(** No match starts in a run that holds neither scheme and is followed by
    the URL. *)
Lemma matchUrlAt_before_promo (a b post : jsstring) :
  includes (a ++ b) (js "http://") = false ->
  includes (a ++ b) (js "https://") = false ->
  b <> [] ->
  matchUrlAt (b ++ promoUrl ++ post) = None.
Proof.
  intros H1 H2 Hb. apply includes_suffix in H1, H2. unfold matchUrlAt.
  change (promoUrl ++ post) with (104%N :: (skipn 1 promoUrl ++ post)).
  destruct b as [|x b]; [congruence|].
  set (rest := skipn 1 promoUrl ++ post).
  destruct (startsWith ((x :: b) ++ 104%N :: rest) (js "https://")) eqn:E2.
  { apply startsWith_across in E2 as [E2|E2]; [congruence|].
    change (In 104%N (skipn (List.length b) (js "ttps://"))) in E2.
    apply In_skipn_In in E2. simpl in E2.
    repeat destruct E2 as [E2|E2]; try discriminate; contradiction. }
  destruct (startsWith ((x :: b) ++ 104%N :: rest) (js "http://")) eqn:E1;
    [|reflexivity].
  apply startsWith_across in E1 as [E1|E1]; [congruence|].
  change (In 104%N (skipn (List.length b) (js "ttp://"))) in E1.
  apply In_skipn_In in E1. simpl in E1.
  repeat destruct E1 as [E1|E1]; try discriminate; contradiction.
Qed.

(** The scan passes a run in which no match starts. *)
Lemma scanUrls_run (run rest : jsstring) :
  (forall a b, run = a ++ b -> b <> [] -> matchUrlAt (b ++ rest) = None) ->
  scanUrls 0 (run ++ rest) = scanUrls 0 rest.
Proof.
  induction run as [|c run IH]; intros H; [reflexivity|].
  assert (Hc : matchUrlAt ((c :: run) ++ rest) = None)
    by (apply (H [] (c :: run) eq_refl); discriminate).
  cbn [app] in *. cbn [scanUrls]. rewrite Hc.
  apply IH. intros a b -> Hb. now apply (H (c :: a) b).
Qed.

(** A URL that is followed by a [\s] or by the end of the text, and has no
    scheme before it in its run, is extracted as it is. *)
Lemma extractUrls_promo (pre post : jsstring) :
  includes (lastRun pre) (js "http://") = false ->
  includes (lastRun pre) (js "https://") = false ->
  endsOrSpace post ->
  In promoUrl (extractUrls (pre ++ promoUrl ++ post)).
Proof.
  intros H1 H2 Hpost. unfold extractUrls.
  assert (Hhere : exists more, scanUrls 0 (promoUrl ++ post) = promoUrl :: more).
  { eexists. apply (scanUrls_match 104%N (skipn 1 promoUrl ++ post) promoUrl).
    exact (matchUrlAt_promo post Hpost). }
  destruct Hhere as (more & Hmore).
  assert (Hrun : scanUrls 0 (lastRun pre ++ promoUrl ++ post) = promoUrl :: more).
  { rewrite scanUrls_run; [exact Hmore|].
    intros a b E Hb. rewrite E in H1, H2. now apply (matchUrlAt_before_promo a b). }
  destruct (lastRun_split pre) as [E|(pre' & w & E & Hw)].
  - rewrite E at 1. rewrite Hrun. now left.
  - rewrite E at 1. rewrite <- !app_assoc.
    destruct (scanUrls_prefix pre' w (lastRun pre ++ promoUrl ++ post) 0 Hw)
      as (found & Hf); [apply Nat.le_0_l|].
    rewrite Hf, Hrun. apply in_or_app. right. now left.
Qed.

Lemma includes_http (pre post : jsstring) :
  includes (pre ++ promoUrl ++ post) (js "http") = true.
Proof.
  apply JsFacts.includes_app_l, JsFacts.includes_startsWith.
  change (promoUrl ++ post) with (js "http" ++ (js "s://example.com/promo" ++ post)).
  apply JsFacts.startsWith_app.
Qed.


Ltac segments :=
  repeat match goal with
    | |- Forall _ (_ ++ _) => apply Forall_app; split
    | |- Forall _ (if ?c then _ else _) => destruct c
    | |- Forall _ (match ?x with _ => _ end) => destruct x
    | |- Forall _ [] => constructor
    | |- Forall _ (_ :: _) => constructor; [simpl; lia|]
    | |- Forall _ (List.map _ _) =>
        let a := fresh "a" in
        let Ha := fresh "Ha" in
        apply Forall_forall; intros a Ha;
        apply in_map_iff in Ha as (? & <- & _); simpl; lia
    end.

Section WithHost.
Variable toLowerCase : jsstring -> jsstring.
Variable extractLinkTitle : jsstring -> jsstring -> jsstring.
Variable extractTimeProposals : jsstring -> list jsstring.
Variable extractEscalationReason : jsstring -> jsstring.
Variable extractProductQuery : jsstring -> option jsstring.


(** Only the escalation emits priority 10. *)
Lemma emitted_no_escalation (allowed : jsstring -> bool) (text : jsstring)
  (context : ContactContext) (conversationId : Id) :
  shouldEscalate toLowerCase text context = false ->
  Forall (fun a => priority a <> 10)
         (emitted toLowerCase extractLinkTitle extractTimeProposals
            extractEscalationReason extractProductQuery
            allowed text context conversationId).
Proof.
  intros He. unfold emitted. rewrite He, andb_false_r. segments.
Qed.

(** C9 (amended).  For an agent whose allowedActions include "send-link",
    a response text in which "https://example.com/promo" is followed by
    white space or by the end of the text and is not preceded, within its
    run of non-space characters, by "http://" or "https://", with no
    escalation phrase, and a contact that is not (VIP with lifetimeValue
    over 100000), decideActions returns a list with no priority-10 action,
    with a send-link action whose params.url is "https://example.com/promo",
    sorted by descending priority. *)
Theorem decideActions_promo_link
  (agent : Agent.t) (context : ContactContext) (conversationId : Id)
  (items : list Json.t) (pre post : jsstring) :
  Agent.allowedActions agent = Some (Json.JArr items) ->
  In (Json.JStr (js "send-link")) items ->
  includes (lastRun pre) (js "http://") = false ->
  includes (lastRun pre) (js "https://") = false ->
  endsOrSpace post ->
  existsb (fun phrase => includes (toLowerCase (pre ++ promoUrl ++ post)) phrase)
          escalationPhrases = false ->
  arrayIncludes (contactTags context) (js "vip")
    && (100000 <? contactLifetimeValue context) = false ->
  exists actions,
    decideActions toLowerCase extractLinkTitle extractTimeProposals
      extractEscalationReason extractProductQuery
      (pre ++ promoUrl ++ post) agent context conversationId = inr actions
    /\ Forall (fun a => priority a <> 10) actions
    /\ (exists a, In a actions /\ type a = js "send-link"
                  /\ paramsUrl (params a) = Some promoUrl)
    /\ StronglySorted (fun a b => priority b <= priority a) actions.
Proof.
  intros Hal Hin Hpre1 Hpre2 Hpost Hphrase Hvip.
  set (text := pre ++ promoUrl ++ post) in *.
  assert (He : shouldEscalate toLowerCase text context = false).
  { unfold shouldEscalate. cbv zeta. now rewrite Hphrase, Hvip. }
  unfold decideActions. rewrite Hal. cbn [allowedOf].
  set (allowed := fun x : jsstring => existsb _ items).
  assert (Hsend : allowed (js "send-link") = true).
  { unfold allowed. apply existsb_exists. exists (Json.JStr (js "send-link")).
    split; [exact Hin | apply JsFacts.eqb_refl]. }
  eexists. split; [reflexivity|]. split; [|split].
  - apply Forall_forall. intros a Ha. apply StableSortFacts.sort_In in Ha.
    revert a Ha. apply Forall_forall. now apply emitted_no_escalation.
  - exists (mkAction (js "send-link")
              (SendLink conversationId promoUrl (extractLinkTitle text promoUrl)) 5).
    split; [|split; reflexivity].
    apply StableSortFacts.sort_In. unfold emitted. apply in_or_app. left.
    assert (Hh : includes text (js "http") = true) by apply includes_http.
    rewrite Hsend, Hh, orb_true_r.
    cbn [andb].
    apply (in_map (fun url => mkAction (js "send-link")
                     (SendLink conversationId url (extractLinkTitle text url)) 5)).
    now apply extractUrls_promo.
  - apply (StableSortFacts.sortDescZ_sorted priority).
Qed.

End WithHost.

Lemma decideActions_promo_link_witness :
  exists actions,
    runDecide (js "Visit (" ++ promoUrl ++ js " today") = inr actions
    /\ Forall (fun a => priority a <> 10) actions
    /\ (exists a, In a actions /\ type a = js "send-link"
                  /\ paramsUrl (params a) = Some promoUrl)
    /\ StronglySorted (fun a b => priority b <= priority a) actions.
Proof.
  apply (decideActions_promo_link lowerBasicLatin (fun _ _ => js "Link")
           (fun _ => []) (fun _ => js "Complex query") (fun _ => None)
           linkAgent plainContact (js "conv")
           [Json.JStr (js "send-link"); Json.JStr (js "transfer-to-human")]
           (js "Visit (") (js " today")).
  - reflexivity.
  - left. reflexivity.
  - reflexivity.
  - reflexivity.
  - right. exists 32%N, (js "today"). split; reflexivity.
  - vm_compute. reflexivity.
  - reflexivity.
Defined.

(** C9 as stated fails when the URL is followed by a character that is not
    white space: the text contains the URL, the only send-link action
    carries the URL with the full stop attached. *)
Lemma decideActions_url_with_full_stop :
  includes (js "Visit https://example.com/promo.") promoUrl = true
  /\ allowedOf (Agent.allowedActions linkAgent) <> None
  /\ shouldEscalate lowerBasicLatin (js "Visit https://example.com/promo.")
       plainContact = false
  /\ runDecide (js "Visit https://example.com/promo.")
     = inr [mkAction (js "send-link")
              (SendLink (js "conv") (js "https://example.com/promo.") (js "Link")) 5]
  /\ eqb (js "https://example.com/promo.") promoUrl = false.
Proof. repeat split; try discriminate; vm_compute; reflexivity. Qed.

(** A scheme earlier in the same run of non-space characters: the match
    starts there and takes the URL with it. *)
Example decideActions_url_inside_longer_match :
  runDecide (js "Visit http://a.b/?next=https://example.com/promo today")
  = inr [mkAction (js "send-link")
           (SendLink (js "conv") (js "http://a.b/?next=https://example.com/promo")
              (js "Link")) 5].
Proof. vm_compute. reflexivity. Qed.

(** An escalation phrase, a URL and an allowed transfer: the transfer
    comes first, the link after it. *)
Example decideActions_escalation_first :
  option_map (List.map (fun a => (type a, priority a)))
    (match runDecide (js "I will transfer you, see http://a.b/c now") with
     | inr actions => Some actions
     | inl _ => None
     end)
  = Some [(js "transfer-to-human", 10); (js "send-link", 5)].
Proof. vm_compute. reflexivity. Qed.

End DecisionFacts.

(* ------------------------------------------------------------------ *)
(** ** Pipeline: failure of the credit deduction *)

Module PipelineFacts.
Import Js Core Examples.

Section Pipeline.
Variable Ext : Type.
Variable toLowerCase : jsstring -> jsstring.
Variable extractLinkTitle : jsstring -> jsstring -> jsstring.
Variable extractTimeProposals : jsstring -> list jsstring.
Variable extractEscalationReason : jsstring -> jsstring.
Variable extractProductQuery : jsstring -> option jsstring.
Variable now : Z.
Variable uuid : Id.
Variable buildContext : Id -> Id -> Ext -> Error + DecisionMaker.ContactContext.
Variable buildSystemPrompt : Agent.t -> DecisionMaker.ContactContext -> jsstring.
Variable allSettled :
  list DecisionMaker.Action -> World Ext -> list (Error + Json.t) * World Ext.
Variable consumeCredits :
  Id -> Z -> Id -> Id -> Ext * list LogEntry
  -> (Error + unit) * (Ext * list LogEntry).

(** The body of processMessage is the two stages in sequence. *)
Lemma body_stages (input : ProcessMessageInput) (w : World Ext) :
  processMessageBody toLowerCase extractLinkTitle extractTimeProposals
    extractEscalationReason extractProductQuery now uuid buildContext
    buildSystemPrompt allSettled consumeCredits input w
  = bind (persistStage toLowerCase extractLinkTitle extractTimeProposals
    extractEscalationReason extractProductQuery now uuid buildContext
    buildSystemPrompt allSettled input)
      (chargeStage consumeCredits input) w.
Proof.
  unfold processMessageBody, persistStage, chargeStage, bind.
  destruct (getOrAssignAgent uuid (conversationId input) (organizationId input) w)
    as [[e|assigned] w1]; [reflexivity|].
  destruct (agent assigned) as [ag|]; [|reflexivity].
  destruct (onExt _ w1) as [[e|context] w2]; [reflexivity|].
  destruct (callAIModel _ _ _ _ _ _ w2) as [[e|[content tokens]] w3]; [reflexivity|].
  cbn [fst snd].
  destruct (DecisionMaker.decideActions _ _ _ _ _ content ag context _)
    as [e|actions]; [reflexivity|].
  destruct (executeActions allSettled actions w3) as [[e|results] w4];
    [reflexivity|].
  unfold outboundRow.
  cbn [p_tokens p_agent p_assigned p_content p_actions p_results].
  destruct (insertMessage _ w4) as [[e|[]] w5]; reflexivity.
Qed.

(** Step 8 is the last thing [persistStage] does. *)
Lemma persistStage_row (input : ProcessMessageInput) (w w1 : World Ext)
  (st : Persisted) :
  persistStage toLowerCase extractLinkTitle extractTimeProposals
    extractEscalationReason extractProductQuery now uuid buildContext
    buildSystemPrompt allSettled input w
  = (inr st, w1) ->
  exists earlier, messages w1 = earlier ++ [outboundRow now input st].
Proof.
  unfold persistStage, bind.
  destruct (getOrAssignAgent uuid (conversationId input) (organizationId input) w)
    as [[e|assigned] w2]; [discriminate|].
  destruct (agent assigned) as [ag|]; [|discriminate].
  destruct (onExt _ w2) as [[e|context] w3]; [discriminate|].
  destruct (callAIModel _ _ _ _ _ _ w3) as [[e|aiResponse] w4]; [discriminate|].
  destruct (DecisionMaker.decideActions _ _ _ _ _ (fst aiResponse) ag context _)
    as [e|actions]; [discriminate|].
  destruct (executeActions allSettled actions w4) as [[e|results] w5];
    [discriminate|].
  unfold insertMessage, ret. destruct (existsb _ (conversations w5));
    [|discriminate].
  intros H. injection H as <- <-. exists (messages w5). reflexivity.
Qed.

(** The [catch] of processMessage around the two stages. *)
Lemma processMessage_stages (input : ProcessMessageInput) (w : World Ext) :
  processMessage toLowerCase extractLinkTitle extractTimeProposals
    extractEscalationReason extractProductQuery now uuid buildContext
    buildSystemPrompt allSettled consumeCredits input w
  = match persistStage toLowerCase extractLinkTitle extractTimeProposals
            extractEscalationReason extractProductQuery now uuid buildContext
            buildSystemPrompt allSettled input w with
    | (inl e, w1) => (inl e, afterCatch input e w1)
    | (inr st, w1) =>
        match chargeStage consumeCredits input st w1 with
        | (inl e, w2) => (inl e, afterCatch input e w2)
        | (inr result, w2) => (inr result, w2)
        end
    end.
Proof.
  unfold processMessage, tryCatch. rewrite body_stages. unfold bind at 1.
  destruct (persistStage _ _ _ _ _ _ _ _ _ _ input w) as [[e|st] w1];
    [reflexivity|].
  destruct (chargeStage consumeCredits input st w1) as [[e|result] w2];
    reflexivity.
Qed.

(** C3.  processMessage, by the outcome of steps 1 to 8 and of the credit
    deduction.  Once the outbound message is persisted, a consumeCredits
    that throws makes processMessage log the error and throw it to the
    caller, who gets no response; the persisted message stays in the store
    and the assignment counters stay as they were.  The generated response
    is returned only when consumeCredits returns (and the store accepts the
    counters of step 11). *)
Theorem processMessage_ledger_failure
  (input : ProcessMessageInput) (w : World Ext) :
  match persistStage toLowerCase extractLinkTitle extractTimeProposals
          extractEscalationReason extractProductQuery now uuid buildContext
          buildSystemPrompt allSettled input w with
  | (inl e, w1) =>
      processMessage toLowerCase extractLinkTitle extractTimeProposals
        extractEscalationReason extractProductQuery now uuid buildContext
        buildSystemPrompt allSettled consumeCredits input w
      = (inl e, afterCatch input e w1)
  | (inr st, w1) =>
      (exists earlier, messages w1 = earlier ++ [outboundRow now input st])
      /\ match consumeCredits (organizationId input) (p_tokens st)
                 (conversationId input) (Agent.id (p_agent st))
                 (ext w1, log w1) with
         | (inl e, (x, entries)) =>
             processMessage toLowerCase extractLinkTitle extractTimeProposals
               extractEscalationReason extractProductQuery now uuid buildContext
               buildSystemPrompt allSettled consumeCredits input w
             = (inl e,
                afterCatch input e
                  (mkWorld (agents w1) (conversations w1) (assignments w1)
                     (messages w1) x entries))
         | (inr _, (x, entries)) =>
             if negb (truthy (Assignment.id (assignment (p_assigned st))))
                || statsFit (assignment (p_assigned st)) (p_tokens st)
             then
               exists w',
                 processMessage toLowerCase extractLinkTitle extractTimeProposals
                   extractEscalationReason extractProductQuery now uuid
                   buildContext buildSystemPrompt allSettled consumeCredits
                   input w
                 = (inr (mkResult (p_content st)
                           (reportActions (p_results st) (p_actions st))
                           (p_tokens st) (Agent.model (p_agent st))), w')
                 /\ messages w' = messages w1
             else
               processMessage toLowerCase extractLinkTitle extractTimeProposals
                 extractEscalationReason extractProductQuery now uuid
                 buildContext buildSystemPrompt allSettled consumeCredits
                 input w
               = (inl Db.outOfRange,
                  afterCatch input Db.outOfRange
                    (mkWorld (agents w1) (conversations w1) (assignments w1)
                       (messages w1) x entries))
         end
  end.
Proof.
  rewrite processMessage_stages.
  destruct (persistStage _ _ _ _ _ _ _ _ _ _ input w) as [[e|st] w1] eqn:Hp.
  { reflexivity. }
  split; [now apply (persistStage_row input w)|].
  unfold chargeStage, bind, onLedger, updateStats.
  destruct (consumeCredits _ _ _ _ (ext w1, log w1)) as [[e|u] [x entries]].
  { reflexivity. }
  destruct (truthy (Assignment.id (assignment (p_assigned st)))); cbn [negb orb].
  - destruct (statsFit _ _).
    + eexists. split; reflexivity.
    + reflexivity.
  - eexists. split; reflexivity.
Qed.

End Pipeline.

(** A message that triggers no action reaches step 8: the outbound row is
    the one message of the store. *)
Example persistStage_reaches_step_8 :
  match runPersist with
  | (inr st, w1) =>
      p_actions st = []
      /\ List.map (fun m => (Message.direction m, Message.role m,
                             Message.generatedByAi m)) (messages w1)
         = [(outbound, assistant, true)]
  | (inl _, _) => False
  end.
Proof. vm_compute. split; reflexivity. Qed.

End PipelineFacts.

(* ------------------------------------------------------------------ *)
(** ** Similarity engine: the edit distance *)

Module EditDistanceFacts.
Import Js Similarity EditDistance.

Lemma lev_nil_r (a : jsstring) : lev a [] = List.length a.
Proof. destruct a; reflexivity. Qed.

Lemma lev_cons (x y : codeUnit) (a b : jsstring) :
  lev (x :: a) (y :: b)
  = Nat.min (Nat.min (lev a (y :: b) + 1) (lev (x :: a) b + 1))
            (lev a b + if N.eqb x y then 0 else 1).
Proof. reflexivity. Qed.

Lemma rowOf_head (P Q rest : jsstring) :
  rowOf P Q rest = lev P Q :: tl (rowOf P Q rest).
Proof. destruct rest; reflexivity. Qed.

Lemma fillRow_rowOf (c : codeUnit) (P rest Q : jsstring) :
  fillRow c rest (rowOf P Q rest) (lev (c :: P) Q) = tl (rowOf (c :: P) Q rest).
Proof.
  revert Q. induction rest as [|d rest IH]; intros Q; [reflexivity|].
  cbn [rowOf tl]. rewrite (rowOf_head P (d :: Q) rest). cbn [fillRow].
  rewrite <- (rowOf_head P (d :: Q) rest), <- lev_cons, IH.
  now rewrite <- rowOf_head.
Qed.

Lemma nextRow_rowOf (c : codeUnit) (P s2 : jsstring) :
  nextRow (S (List.length P)) c s2 (rowOf P [] s2) = rowOf (c :: P) [] s2.
Proof.
  unfold nextRow. rewrite (rowOf_head (c :: P) [] s2). f_equal.
  change (S (List.length P)) with (lev (c :: P) []). apply fillRow_rowOf.
Qed.

Lemma rowsFrom_rowOf (s1 s2 P : jsstring) :
  rowsFrom (List.length P) s1 s2 (rowOf P [] s2) = rowOf (rev s1 ++ P) [] s2.
Proof.
  revert P. induction s1 as [|c s1 IH]; intros P; [reflexivity|].
  cbn [rowsFrom rev]. rewrite nextRow_rowOf.
  change (S (List.length P)) with (List.length (c :: P)).
  rewrite IH, <- app_assoc. reflexivity.
Qed.

Lemma rowOf_nil (Q rest : jsstring) :
  rowOf [] Q rest = seq (List.length Q) (S (List.length rest)).
Proof.
  revert Q. induction rest as [|d rest IH]; intros Q; [reflexivity|].
  cbn [rowOf]. rewrite IH. reflexivity.
Qed.

Lemma rowOf_last (P Q rest : jsstring) :
  nth (List.length rest) (rowOf P Q rest) 0%nat = lev P (rev rest ++ Q).
Proof.
  revert Q. induction rest as [|d rest IH]; intros Q; [reflexivity|].
  cbn [rowOf List.length nth rev]. rewrite IH, <- app_assoc. reflexivity.
Qed.

(** The matrix of levenshteinDistance holds the distances of the
    recurrence. *)
Lemma levenshteinDistance_lev (s1 s2 : jsstring) :
  levenshteinDistance s1 s2 = lev (rev s1) (rev s2).
Proof.
  unfold levenshteinDistance. cbv zeta.
  change (seq 0 (S (List.length s2)))
    with (seq (List.length (@nil codeUnit)) (S (List.length s2))).
  rewrite <- rowOf_nil.
  change 0%nat with (List.length (@nil codeUnit)) at 1.
  rewrite rowsFrom_rowOf, rowOf_last, !app_nil_r. reflexivity.
Qed.


Lemma lev_sym (a b : jsstring) : lev a b = lev b a.
Proof.
  revert b. induction a as [|x a IHa]; intros b.
  - now rewrite lev_nil_r.
  - induction b as [|y b IHb]; [reflexivity|].
    rewrite !lev_cons, IHb, (IHa (y :: b)), (IHa b), (N.eqb_sym x y).
    f_equal. apply Nat.min_comm.
Qed.

Lemma lev_refl (a : jsstring) : lev a a = 0%nat.
Proof.
  induction a as [|x a IH]; [reflexivity|].
  rewrite lev_cons, IH, N.eqb_refl. apply Nat.min_0_r.
Qed.

Lemma lev_bounds (a b : jsstring) :
  (List.length a - List.length b <= lev a b
   /\ List.length b - List.length a <= lev a b
   /\ lev a b <= Nat.max (List.length a) (List.length b))%nat.
Proof.
  revert b. induction a as [|x a IHa]; intros b.
  - simpl. lia.
  - induction b as [|y b IHb]; [simpl; lia|].
    rewrite lev_cons.
    pose proof (IHa (y :: b)) as H1. pose proof (IHa b) as H2.
    cbn [List.length] in *. destruct (N.eqb x y); lia.
Qed.

Lemma lev_zero (a b : jsstring) : lev a b = 0%nat -> a = b.
Proof.
  revert b. induction a as [|x a IHa]; intros [|y b]; try discriminate;
    [reflexivity|].
  rewrite lev_cons. intros H.
  destruct (N.eqb x y) eqn:E.
  - apply N.eqb_eq in E. subst. f_equal. apply IHa. lia.
  - lia.
Qed.

(** X1.  levenshteinDistance is the edit distance: against the empty
    string it is the length of the other string, and extending both strings
    by one code unit follows the recurrence of deletion, insertion and
    substitution. *)
Theorem levenshteinDistance_recurrence (s1 s2 : jsstring) (c e : codeUnit) :
  levenshteinDistance s1 [] = List.length s1
  /\ levenshteinDistance [] s2 = List.length s2
  /\ levenshteinDistance (s1 ++ [c]) (s2 ++ [e])
     = Nat.min (Nat.min (levenshteinDistance s1 (s2 ++ [e]) + 1)
                        (levenshteinDistance (s1 ++ [c]) s2 + 1))
               (levenshteinDistance s1 s2 + if N.eqb c e then 0 else 1).
Proof.
  rewrite !levenshteinDistance_lev, !rev_app_distr. cbn [rev app].
  rewrite lev_nil_r. cbn [lev]. rewrite !length_rev.
  split; [reflexivity|]. split; [reflexivity|]. apply lev_cons.
Qed.

(** X2.  levenshteinDistance is symmetric, it is 0 exactly when the two
    strings are equal, and it lies between the difference of the two lengths
    and the greater of them. *)
Theorem levenshteinDistance_symmetric_zero_bounded (s1 s2 : jsstring) :
  levenshteinDistance s1 s2 = levenshteinDistance s2 s1
  /\ (levenshteinDistance s1 s2 = 0%nat <-> s1 = s2)
  /\ (List.length s1 - List.length s2 <= levenshteinDistance s1 s2
      /\ List.length s2 - List.length s1 <= levenshteinDistance s1 s2
      /\ levenshteinDistance s1 s2 <= Nat.max (List.length s1) (List.length s2))%nat.
Proof.
  rewrite !levenshteinDistance_lev. split; [apply lev_sym|]. split.
  - split.
    + intros H. apply lev_zero in H.
      rewrite <- (rev_involutive s1), <- (rev_involutive s2). now f_equal.
    + intros ->. apply lev_refl.
  - pose proof (lev_bounds (rev s1) (rev s2)) as H.
    now rewrite !length_rev in H.
Qed.

Section WithHost.
Variable toLowerCase : jsstring -> jsstring.

(** X3.  calculateSimilarity is symmetric, and a string is fully similar
    to itself. *)
Theorem calculateSimilarity_symmetric_reflexive (a b : jsstring) :
  calculateSimilarity toLowerCase a b = calculateSimilarity toLowerCase b a
  /\ (calculateSimilarity toLowerCase a a == 1)%Q.
Proof.
  unfold calculateSimilarity. cbv zeta. split.
  - rewrite (Nat.max_comm (List.length b)).
    now rewrite !levenshteinDistance_lev, (lev_sym (rev (toLowerCase b))).
  - rewrite levenshteinDistance_lev, lev_refl.
    destruct (Nat.eqb _ 0); [reflexivity|]. simpl inject_Z.
    unfold Qdiv. rewrite Qmult_0_l. reflexivity.
Qed.

(** X4.  When lower-casing keeps the length of the two strings,
    calculateSimilarity lies in [0,1]. *)
Theorem calculateSimilarity_range (a b : jsstring) :
  List.length (toLowerCase a) = List.length a ->
  List.length (toLowerCase b) = List.length b ->
  (0 <= calculateSimilarity toLowerCase a b <= 1)%Q.
Proof.
  intros Ha Hb. split; [|apply DetectFacts.calculateSimilarity_le_1].
  unfold calculateSimilarity. cbv zeta.
  destruct (Nat.eqb _ 0) eqn:E; [discriminate|]. apply Nat.eqb_neq in E.
  pose proof (lev_bounds (rev (toLowerCase a)) (rev (toLowerCase b)))
    as (_ & _ & H). rewrite <- levenshteinDistance_lev, !length_rev, Ha, Hb in H.
  set (d := levenshteinDistance _ _) in *.
  set (m := Nat.max _ _) in *.
  assert (Hq : (inject_Z (Z.of_nat d) / inject_Z (Z.of_nat m) <= 1)%Q).
  { apply Qle_shift_div_r.
    - change 0%Q with (inject_Z 0). rewrite <- Zlt_Qlt. lia.
    - rewrite Qmult_1_l. rewrite <- Zle_Qle. lia. }
  set (q := (inject_Z (Z.of_nat d) / inject_Z (Z.of_nat m))%Q) in *.
  clearbody q. lra.
Qed.

End WithHost.

Lemma calculateSimilarity_range_witness :
  (0 <= calculateSimilarity lowerBasicLatin (js "Ana") (js "Anna") <= 1)%Q.
Proof.
  apply (calculateSimilarity_range lowerBasicLatin (js "Ana") (js "Anna"));
    reflexivity.
Defined.

Example similarity_ana_anna :
  Qred (calculateSimilarity lowerBasicLatin (js "Ana") (js "ANNA")) = (3 # 4)%Q.
Proof. reflexivity. Qed.

End EditDistanceFacts.

(* ------------------------------------------------------------------ *)
(** ** Identity resolver: what the detector returns *)

Module CandidateFacts.
Import Js StableSort Merger Candidates.

Section ByRationalKey.
Context {A : Type}.
Variable key : A -> Q.

Lemma insert_sorted_desc (x : A) (l : list A) :
  StronglySorted (fun a b => (key b <= key a)%Q) l ->
  StronglySorted (fun a b => (key b <= key a)%Q)
    (insert (fun x y => negb (Qle_bool (key y) (key x))) x l).
Proof.
  induction 1 as [|y l Hs IH Hy]; simpl.
  - constructor; constructor.
  - destruct (Qle_bool (key y) (key x)) eqn:E; simpl.
    + apply Qle_bool_iff in E. constructor; [now constructor|].
      constructor; [exact E|].
      eapply Forall_impl; [|exact Hy]. intros z Hz. simpl in Hz.
      eapply Qle_trans; eassumption.
    + constructor; [exact IH|].
      eapply Permutation_Forall; [apply StableSortFacts.insert_perm|].
      constructor; [|exact Hy].
      destruct (Qlt_le_dec (key x) (key y)) as [Hlt|Hle].
      * now apply Qlt_le_weak.
      * apply Qle_bool_iff in Hle. congruence.
Qed.

Lemma sortDescQ_sorted (l : list A) :
  StronglySorted (fun a b => (key b <= key a)%Q) (sortDescQ key l).
Proof.
  induction l as [|x l IH]; simpl; [constructor|].
  apply insert_sorted_desc. exact IH.
Qed.
End ByRationalKey.

Lemma fold_left_invariant_In {A B : Type} (P : A -> Prop) (f : A -> B -> A)
  (l : list B) (a : A) :
  P a -> (forall a b, In b l -> P a -> P (f a b)) -> P (fold_left f l a).
Proof.
  revert a. induction l as [|b l IH]; intros a Ha Hf; simpl; [exact Ha|].
  apply IH.
  - apply Hf; [now left | exact Ha].
  - intros a' b' Hb. apply Hf. now right.
Qed.

Lemma NoDup_map_filter {A B : Type} (f : A -> B) (p : A -> bool) (l : list A) :
  NoDup (List.map f l) -> NoDup (List.map f (filter p l)).
Proof.
  induction l as [|x l IH]; simpl; [auto|]. intros H. inversion H; subst.
  destruct (p x); simpl; [|auto]. constructor; [|auto].
  intros Hin. apply in_map_iff in Hin as (y & Hy & Hin).
  apply filter_In in Hin as [Hin _]. apply H2. rewrite <- Hy. now apply in_map.
Qed.

Lemma someId_false (candidates : list DuplicateCandidate) (x : Id) :
  someId candidates x = false -> ~ In x (List.map id candidates).
Proof.
  unfold someId. intros H Hin. apply in_map_iff in Hin as (c & Hc & Hin).
  assert (E : existsb (fun c => eqb (id c) x) candidates = true).
  { apply existsb_exists. exists c. split; [exact Hin|]. rewrite Hc.
    apply JsFacts.eqb_refl. }
  congruence.
Qed.

Lemma someId_true (candidates : list DuplicateCandidate) (x : Id) :
  someId candidates x = true -> exists c, In c candidates /\ id c = x.
Proof.
  unfold someId. intros H. apply existsb_exists in H as (c & Hin & Hc).
  exists c. split; [exact Hin|]. now apply JsFacts.eqb_eq.
Qed.

Lemma someId_app (l1 l2 : list DuplicateCandidate) (x : Id) :
  someId (l1 ++ l2) x = someId l1 x || someId l2 x.
Proof. unfold someId. apply existsb_app. Qed.

Lemma tidy_snoc (db : Db.t) (org : Id) (l : list DuplicateCandidate)
  (m : Contact.t) (q : Q) (r : MatchReason) :
  tidy db org l ->
  In m (filter (activeInOrg org) (Db.contacts db)) ->
  someId l (Contact.id m) = false ->
  tidy db org (l ++ [mkCandidate (Contact.id m) q r m]).
Proof.
  intros [Hf Hn] Hm Hs. apply filter_In in Hm as [Hin Hact]. split.
  - apply Forall_app. split; [exact Hf|]. constructor; [|constructor].
    repeat split; assumption.
  - intros Hu. rewrite List.map_app. simpl.
    apply (Permutation_NoDup (l := Contact.id m :: List.map id l)).
    + change (Contact.id m :: List.map id l)
        with ([Contact.id m] ++ List.map id l).
      apply Permutation_app_comm.
    + constructor; [now apply someId_false | now apply Hn].
Qed.

Section WithHost.
Variable toLowerCase : jsstring -> jsstring.

Lemma emailPass_tidy (db : Db.t) (org : Id) (p : Profile) :
  tidy db org (emailPass db org p).
Proof.
  unfold emailPass. destruct (email p) as [e|]; [|split; [constructor|constructor]].
  destruct (truthy e); [|split; [constructor|constructor]]. split.
  - apply Forall_forall. intros c Hc. apply in_map_iff in Hc as (m & <- & Hm).
    apply filter_In in Hm as [Hin Hm].
    apply andb_true_iff in Hm as [Hm Ha]. apply andb_true_iff in Hm as [Ho _].
    repeat split; [exact Hin|]. simpl. unfold activeInOrg. now rewrite Ho, Ha.
  - intros Hu. rewrite List.map_map. simpl. now apply NoDup_map_filter.
Qed.

Lemma phonePass_tidy (db : Db.t) (org : Id) (p : Profile)
  (candidates : list DuplicateCandidate) :
  tidy db org candidates -> tidy db org (phonePass db org p candidates).
Proof.
  intros H. unfold phonePass. destruct (phone p) as [ph|]; [|exact H].
  destruct (truthy ph); [|exact H].
  apply (fold_left_invariant_In (tidy db org)); [exact H|].
  intros cands m Hm Hc. unfold phoneStep.
  destruct (Contact.phone m) as [mph|]; [|exact Hc].
  destruct (truthy mph); [|exact Hc].
  destruct (eqb _ _); [|exact Hc].
  destruct (someId cands (Contact.id m)) eqn:E; [exact Hc|]. simpl.
  now apply tidy_snoc.
Qed.

Lemma namePass_tidy (db : Db.t) (org : Id) (p : Profile) (threshold : Q)
  (candidates : list DuplicateCandidate) :
  tidy db org candidates ->
  tidy db org (namePass toLowerCase db org p threshold candidates).
Proof.
  intros H. unfold namePass.
  destruct (firstName p) as [fn|], (lastName p) as [ln|]; try exact H.
  destruct (truthy fn && truthy ln); [|exact H].
  apply (fold_left_invariant_In (tidy db org)); [exact H|].
  intros cands m Hm Hc. unfold nameStep.
  destruct (someId cands (Contact.id m)) eqn:E; [exact Hc|].
  destruct (Qle_bool threshold _); [|exact Hc].
  now apply tidy_snoc.
Qed.

Lemma discovered_tidy (db : Db.t) (org : Id) (p : Profile) (threshold : Q) :
  tidy db org (discovered toLowerCase db org p threshold).
Proof. apply namePass_tidy, phonePass_tidy, emailPass_tidy. Qed.

(** X5.  detectDuplicateContacts returns its candidates by descending
    confidence, and every candidate is a row of the contact table that is
    active and belongs to the organization asked for. *)
Theorem detectDuplicateContacts_sorted_from_store
  (db : Db.t) (org : Id) (p : Profile) (threshold : Q) :
  StronglySorted byConfidence (detectDuplicateContacts toLowerCase db org p threshold)
  /\ Forall (fromStore db org)
            (detectDuplicateContacts toLowerCase db org p threshold).
Proof.
  split; [apply (sortDescQ_sorted confidence)|].
  apply Forall_forall. intros c Hc.
  apply StableSortFacts.sort_In in Hc.
  destruct (discovered_tidy db org p threshold) as [Hf _].
  rewrite Forall_forall in Hf. now apply Hf.
Qed.

(** X6.  When the contact keys are unique, detectDuplicateContacts lists
    no contact twice, whatever number of passes it matches in. *)
Theorem detectDuplicateContacts_no_contact_twice
  (db : Db.t) (org : Id) (p : Profile) (threshold : Q) :
  uniqueIds db ->
  NoDup (List.map id (detectDuplicateContacts toLowerCase db org p threshold)).
Proof.
  intros Hu. destruct (discovered_tidy db org p threshold) as [_ Hn].
  eapply Permutation_NoDup; [|apply Hn, Hu].
  apply Permutation_map. apply StableSortFacts.sort_perm.
Qed.

(** X7.  Every active contact of the organization whose email equals the
    (non-empty) email asked for is returned, with confidence 1 and as an
    exact email match. *)
Theorem detectDuplicateContacts_finds_same_email
  (db : Db.t) (org : Id) (p : Profile) (threshold : Q) (e : jsstring)
  (m : Contact.t) :
  email p = Some e -> truthy e = true ->
  In m (Db.contacts db) -> activeInOrg org m = true ->
  Contact.email m = Some e ->
  In (mkCandidate (Contact.id m) 1 ExactEmailMatch m)
     (detectDuplicateContacts toLowerCase db org p threshold).
Proof.
  intros Hp He Hin Hact Hm. unfold detectDuplicateContacts, StableSort.sortDescQ.
  apply StableSortFacts.sort_In. unfold discovered.
  apply MergeFacts.namePass_keeps, MergeFacts.phonePass_keeps.
  unfold emailPass. rewrite Hp, He.
  apply (in_map (fun m => mkCandidate (Contact.id m) 1 ExactEmailMatch m)).
  apply filter_In. split; [exact Hin|].
  unfold activeInOrg in Hact. apply andb_true_iff in Hact as [Ho Ha].
  rewrite Ho, Ha, Hm. simpl. now rewrite JsFacts.eqb_refl.
Qed.

Lemma phoneStep_keeps_id (n : jsstring) (cands : list DuplicateCandidate)
  (m : Contact.t) (x : Id) :
  someId cands x = true -> someId (phoneStep n cands m) x = true.
Proof.
  intros H. unfold phoneStep.
  destruct (Contact.phone m) as [mph|]; [|exact H].
  destruct (truthy mph); [|exact H].
  destruct (eqb _ _); [|exact H].
  destruct (negb _); [|exact H].
  rewrite someId_app, H. reflexivity.
Qed.

Lemma phoneStep_fold_found (n : jsstring) (l : list Contact.t) (m : Contact.t)
  (mph : jsstring) :
  In m l -> Contact.phone m = Some mph -> truthy mph = true ->
  Similarity.normalizePhoneNumber mph = n ->
  forall cands, someId (fold_left (phoneStep n) l cands) (Contact.id m) = true.
Proof.
  intros Hin Hph Ht Hn. induction l as [|a l IH]; [destruct Hin|].
  intros cands. simpl. destruct Hin as [->|Hin]; [|now apply IH].
  apply (DetectFacts.fold_left_invariant
           (fun c => someId c (Contact.id m) = true)).
  - unfold phoneStep. rewrite Hph, Ht, Hn, JsFacts.eqb_refl.
    destruct (someId cands (Contact.id m)) eqn:E; simpl; [exact E|].
    rewrite someId_app.
    assert (Hx : forall q r, someId [mkCandidate (Contact.id m) q r m]
                               (Contact.id m) = true).
    { intros q r. unfold someId. simpl. now rewrite JsFacts.eqb_refl. }
    rewrite Hx. apply orb_true_r.
  - intros c b. apply phoneStep_keeps_id.
Qed.

Lemma phonePass_confident (db : Db.t) (org : Id) (p : Profile) :
  Forall (fun c => (95 # 100 <= confidence c)%Q)
         (phonePass db org p (emailPass db org p)).
Proof.
  assert (He : Forall (fun c => (95 # 100 <= confidence c)%Q) (emailPass db org p)).
  { unfold emailPass. destruct (email p) as [e|]; [|constructor].
    destruct (truthy e); [|constructor].
    apply Forall_forall. intros c Hc. apply in_map_iff in Hc as (m & <- & _).
    simpl. discriminate. }
  unfold phonePass. destruct (phone p) as [ph|]; [|exact He].
  destruct (truthy ph); [|exact He].
  apply DetectFacts.fold_left_invariant; [exact He|].
  intros cands m Hc. unfold phoneStep.
  destruct (Contact.phone m) as [mph|]; [|exact Hc].
  destruct (truthy mph); [|exact Hc].
  destruct (eqb _ _); [|exact Hc].
  destruct (negb _); [|exact Hc].
  apply Forall_app. split; [exact Hc|]. constructor; [|constructor].
  simpl. apply Qle_refl.
Qed.

(** X8.  Every active contact of the organization whose phone number
    normalizes to the same digits as the (non-empty) phone asked for is
    returned, with a confidence of at least 0.95. *)
Theorem detectDuplicateContacts_finds_same_phone
  (db : Db.t) (org : Id) (p : Profile) (threshold : Q) (ph mph : jsstring)
  (m : Contact.t) :
  phone p = Some ph -> truthy ph = true ->
  In m (Db.contacts db) -> activeInOrg org m = true ->
  Contact.phone m = Some mph -> truthy mph = true ->
  Similarity.normalizePhoneNumber mph = Similarity.normalizePhoneNumber ph ->
  exists c,
    In c (detectDuplicateContacts toLowerCase db org p threshold)
    /\ id c = Contact.id m /\ (95 # 100 <= confidence c)%Q.
Proof.
  intros Hp Ht Hin Hact Hm Hmt Hn.
  assert (Hs : someId (phonePass db org p (emailPass db org p)) (Contact.id m)
               = true).
  { unfold phonePass. rewrite Hp, Ht.
    apply (phoneStep_fold_found _ _ m mph); try assumption.
    apply filter_In. now split. }
  apply someId_true in Hs as (c & Hc & Hid).
  exists c. split; [|split; [exact Hid|]].
  - unfold detectDuplicateContacts, StableSort.sortDescQ.
    apply StableSortFacts.sort_In. unfold discovered.
    now apply MergeFacts.namePass_keeps.
  - pose proof (phonePass_confident db org p) as Hf.
    rewrite Forall_forall in Hf. now apply Hf.
Qed.

End WithHost.

Lemma detectDuplicateContacts_no_contact_twice_witness :
  NoDup (List.map id
           (detectDuplicateContacts lowerBasicLatin Examples.lookalikes (js "org")
              (mkProfile (Some (js "ana@x.com")) (Some (js "+1 555-123-4567"))
                         (Some (js "Ana")) (Some (js "Lopez")))
              (7 # 10))).
Proof.
  apply (detectDuplicateContacts_no_contact_twice lowerBasicLatin
           Examples.lookalikes).
  unfold uniqueIds. vm_compute.
  repeat (constructor; [simpl; intuition discriminate|]). constructor.
Defined.

Lemma detectDuplicateContacts_finds_same_email_witness :
  In (mkCandidate (js "e") 1 ExactEmailMatch
        (Contact.mk (js "e") (js "org") (js "Ana") (js "Lopez")
           (Some (js "ana@x.com")) None None 0 None None None None 1 (Some 0)
           None None active None [] 0))
     (detectDuplicateContacts lowerBasicLatin Examples.lookalikes (js "org")
        (mkProfile (Some (js "ana@x.com")) None None None) (7 # 10)).
Proof.
  apply (detectDuplicateContacts_finds_same_email lowerBasicLatin
           Examples.lookalikes (js "org")
           (mkProfile (Some (js "ana@x.com")) None None None) (7 # 10)
           (js "ana@x.com")
           (Contact.mk (js "e") (js "org") (js "Ana") (js "Lopez")
              (Some (js "ana@x.com")) None None 0 None None None None 1 (Some 0)
              None None active None [] 0)).
  - reflexivity.
  - reflexivity.
  - left. reflexivity.
  - reflexivity.
  - reflexivity.
Defined.

Lemma detectDuplicateContacts_finds_same_phone_witness :
  exists c,
    In c (detectDuplicateContacts lowerBasicLatin Examples.lookalikes (js "org")
            (mkProfile None (Some (js "+1 555-123-4567")) None None) (7 # 10))
    /\ id c = js "f" /\ (95 # 100 <= confidence c)%Q.
Proof.
  apply (detectDuplicateContacts_finds_same_phone lowerBasicLatin
           Examples.lookalikes (js "org")
           (mkProfile None (Some (js "+1 555-123-4567")) None None) (7 # 10)
           (js "+1 555-123-4567") (js "5551234567")
           (Contact.mk (js "f") (js "org") (js "Anna") (js "Lopes") None
              (Some (js "5551234567")) None 0 None None None None 1 (Some 0)
              None None active None [] 0)).
  - reflexivity.
  - reflexivity.
  - right. left. reflexivity.
  - reflexivity.
  - reflexivity.
  - reflexivity.
  - reflexivity.
Defined.

End CandidateFacts.

(* ------------------------------------------------------------------ *)
(** ** Identity resolver: tags and custom fields *)

Module MergeFieldFacts.
Import Js Merger Tables.

Lemma arrayIncludes_In (l : list jsstring) (x : jsstring) :
  arrayIncludes l x = true <-> In x l.
Proof.
  unfold arrayIncludes. rewrite existsb_exists. split.
  - intros (y & Hy & E). apply JsFacts.eqb_eq in E. now subst.
  - intros H. exists x. split; [exact H | apply JsFacts.eqb_refl].
Qed.

Lemma setAdd_spec (acc : list jsstring) (x : jsstring) :
  (NoDup acc -> NoDup (setAdd acc x))
  /\ (forall y, In y (setAdd acc x) <-> In y acc \/ y = x).
Proof.
  unfold setAdd. destruct (arrayIncludes acc x) eqn:E.
  - apply arrayIncludes_In in E. split; [auto|].
    intros y. split; [now left|]. intros [H| ->]; assumption.
  - assert (Hn : ~ In x acc).
    { intros H. apply arrayIncludes_In in H. congruence. }
    split.
    + intros Hd. apply (Permutation_NoDup (l := x :: acc)).
      * change (x :: acc) with ([x] ++ acc). apply Permutation_app_comm.
      * now constructor.
    + intros y. rewrite in_app_iff. simpl. intuition.
Qed.

Lemma fold_setAdd_spec (l acc : list jsstring) :
  (NoDup acc -> NoDup (fold_left setAdd l acc))
  /\ (forall y, In y (fold_left setAdd l acc) <-> In y acc \/ In y l).
Proof.
  revert acc. induction l as [|x l IH]; intros acc; simpl.
  - split; [auto|]. intros y. intuition.
  - destruct (IH (setAdd acc x)) as [Hd Hi].
    destruct (setAdd_spec acc x) as [Hd' Hi']. split.
    + auto.
    + intros y. rewrite Hi, Hi'. intuition.
Qed.

Section WithHost.
Variable toLowerCase : jsstring -> jsstring.

Lemma mergeTags_fold (tagArrays : list (option Json.text)) (acc : list jsstring) :
  let result :=
    fold_left (fun allTags tags =>
                 fold_left setAdd (tagStrings toLowerCase tags) allTags)
              tagArrays acc in
  (NoDup acc -> NoDup result)
  /\ (forall y, In y result
                <-> In y acc
                    \/ exists tags, In tags tagArrays
                                    /\ In y (tagStrings toLowerCase tags)).
Proof.
  revert acc. induction tagArrays as [|t ts IH]; intros acc; simpl.
  - split; [auto|]. intros y. split; [now left|].
    intros [H|(t & [] & _)]. exact H.
  - destruct (IH (fold_left setAdd (tagStrings toLowerCase t) acc)) as [Hd Hi].
    destruct (fold_setAdd_spec (tagStrings toLowerCase t) acc) as [Hd' Hi'].
    split; [auto|]. intros y. simpl in Hi. rewrite Hi, Hi'. split.
    + intros [[H|H]|(t' & Ht & H)]; [now left | right | right].
      * exists t. split; [now left | exact H].
      * exists t'. split; [now right | exact H].
    + intros [H|(t' & [<-|Ht] & H)]; [now left; left | now left; right |].
      right. now exists t'.
Qed.

(** X9.  mergeTags returns every tag once: the result has no repeated
    entry, and it holds exactly the trimmed, lower-cased string elements of
    the tag columns that parse to an array. *)
Theorem mergeTags_distinct_union (tagArrays : list (option Json.text)) :
  NoDup (mergeTags toLowerCase tagArrays)
  /\ (forall tag,
        In tag (mergeTags toLowerCase tagArrays)
        <-> exists tags, In tags tagArrays
                         /\ In tag (tagStrings toLowerCase tags)).
Proof.
  destruct (mergeTags_fold tagArrays []) as [Hd Hi]. split.
  - apply Hd. constructor.
  - intros tag. unfold mergeTags. simpl in Hi. rewrite Hi. split.
    + intros [[]|H]. exact H.
    + intros H. now right.
Qed.

End WithHost.

Lemma lookup_app (k : jsstring) (a b : list (jsstring * Json.t)) :
  lookup k (a ++ b)
  = match lookup k a with Some v => Some v | None => lookup k b end.
Proof.
  unfold lookup. induction a as [|[k' v'] a IH]; simpl; [reflexivity|].
  destruct (eqb k' k); [reflexivity | exact IH].
Qed.

Lemma assignField_lookup (merged : list (jsstring * Json.t)) (k0 : jsstring)
  (v : Json.t) (k : jsstring) :
  lookup k (assignField merged k0 v)
  = if eqb k0 k then Some v else lookup k merged.
Proof.
  unfold lookup. induction merged as [|[k1 v1] rest IH]; simpl.
  - destruct (eqb k0 k); reflexivity.
  - destruct (eqb k1 k0) eqn:E; simpl.
    + apply JsFacts.eqb_eq in E. subst k1.
      destruct (eqb k0 k); reflexivity.
    + destruct (eqb k1 k) eqn:E1; simpl.
      * destruct (eqb k0 k) eqn:E0; [|reflexivity].
        apply JsFacts.eqb_eq in E0, E1. subst.
        rewrite JsFacts.eqb_refl in E. discriminate.
      * exact IH.
Qed.

Lemma assignField_keys (merged : list (jsstring * Json.t)) (k0 : jsstring)
  (v : Json.t) :
  (forall k, In k (List.map fst (assignField merged k0 v))
             <-> In k (List.map fst merged) \/ k = k0)
  /\ (NoDup (List.map fst merged)
      -> NoDup (List.map fst (assignField merged k0 v))).
Proof.
  induction merged as [|[k1 v1] rest [IHi IHd]]; simpl.
  - split; [intros k; intuition | intros _; repeat constructor; intros []].
  - destruct (eqb k1 k0) eqn:E; simpl.
    + apply JsFacts.eqb_eq in E. subst k1. split; [intros k; intuition|auto].
    + split.
      * intros k. rewrite IHi. intuition.
      * intros Hd. inversion Hd; subst. constructor; [|auto].
        rewrite IHi. intros [H| ->]; [auto|].
        rewrite JsFacts.eqb_refl in E. discriminate.
Qed.

Lemma assignAll_spec (entries merged : list (jsstring * Json.t)) :
  let result :=
    fold_left (fun acc kv => assignField acc (fst kv) (snd kv)) entries merged in
  (forall k, lookup k result
             = match lookup k (rev entries) with
               | Some v => Some v
               | None => lookup k merged
               end)
  /\ (NoDup (List.map fst merged) -> NoDup (List.map fst result)).
Proof.
  revert merged. induction entries as [|[k0 v0] entries IH]; intros merged; simpl.
  - split; [reflexivity | auto].
  - destruct (IH (assignField merged k0 v0)) as [Hl Hd]. split.
    + intros k. cbv zeta in Hl. rewrite Hl, lookup_app.
      destruct (lookup k (rev entries)); [reflexivity|].
      rewrite assignField_lookup.
      unfold lookup at 2. simpl. destruct (eqb k0 k); reflexivity.
    + intros H. apply Hd. now apply assignField_keys.
Qed.

Lemma mergeCustomFields_step (merged : list (jsstring * Json.t))
  (fields : option Json.text) :
  match fields with
  | Some (Json.Parses parsed) =>
      match ownEntries parsed with
      | Some entries =>
          fold_left (fun acc kv => assignField acc (fst kv) (snd kv))
                    entries merged
      | None => merged
      end
  | _ => merged
  end
  = fold_left (fun acc kv => assignField acc (fst kv) (snd kv))
              (entriesOf fields) merged.
Proof.
  unfold entriesOf. destruct fields as [[|parsed]|]; try reflexivity.
  destruct (ownEntries parsed); reflexivity.
Qed.

Lemma mergeCustomFields_fold (fieldObjects : list (option Json.text))
  (merged : list (jsstring * Json.t)) :
  let result :=
    fold_left
      (fun merged fields =>
         match fields with
         | Some (Json.Parses parsed) =>
             match ownEntries parsed with
             | Some entries =>
                 fold_left (fun acc kv => assignField acc (fst kv) (snd kv))
                           entries merged
             | None => merged
             end
         | _ => merged
         end)
      fieldObjects merged in
  (forall k, lookup k result
             = match lookup k (rev (flat_map entriesOf fieldObjects)) with
               | Some v => Some v
               | None => lookup k merged
               end)
  /\ (NoDup (List.map fst merged) -> NoDup (List.map fst result)).
Proof.
  revert merged. induction fieldObjects as [|f fs IH]; intros merged.
  - split; [reflexivity | auto].
  - cbn [fold_left flat_map]. rewrite mergeCustomFields_step.
    destruct (assignAll_spec (entriesOf f) merged) as [Hl Hd].
    destruct (IH (fold_left (fun acc kv => assignField acc (fst kv) (snd kv))
                            (entriesOf f) merged)) as [Hl' Hd'].
    split.
    + intros k. cbv zeta in Hl'. rewrite Hl', rev_app_distr, lookup_app.
      destruct (lookup k (rev (flat_map entriesOf fs))); [reflexivity|].
      apply Hl.
    + intros H. apply Hd'. now apply Hd.
Qed.

(** X10.  mergeCustomFields gives every key once, and the value of a key
    is the one written last: a later column (a duplicate) overrides an
    earlier one (the primary), and a later entry of a column an earlier
    entry.  The key __proto__ is left aside: Object.assign hands it to the
    prototype setter, which creates no property. *)
Theorem mergeCustomFields_last_wins (fieldObjects : list (option Json.text)) :
  NoDup (List.map fst (mergeCustomFields fieldObjects))
  /\ (forall k, k <> js "__proto__" ->
                lookup k (mergeCustomFields fieldObjects)
                = lookup k (rev (flat_map entriesOf fieldObjects))).
Proof.
  destruct (mergeCustomFields_fold fieldObjects []) as [Hl Hd]. split.
  - apply Hd. constructor.
  - intros k _. unfold mergeCustomFields. cbv zeta in Hl. rewrite Hl.
    destruct (lookup k (rev (flat_map entriesOf fieldObjects))); reflexivity.
Qed.

End MergeFieldFacts.

(* ------------------------------------------------------------------ *)
(** ** Identity resolver: the merge for any list of duplicates *)

Module MergeOutcomeFacts.
Import Js Merger Tables Examples MergeExamples.

Lemma repoint_movedTo (p : Id) (ids : list Id) (rows : list Db.Linked) :
  Forall2 (movedTo p ids) rows (Db.repoint p ids rows).
Proof.
  induction rows as [|r rows IH]; simpl; constructor; [|exact IH].
  unfold movedTo. destruct (Db.inArray (Db.contactId r) ids) eqn:E; simpl.
  - apply MergeFacts.inArray_In in E. repeat split; auto. intros H. contradiction.
  - assert (Hn : ~ In (Db.contactId r) ids).
    { intros H. apply MergeFacts.inArray_In in H. congruence. }
    repeat split; auto. intros H. contradiction.
Qed.

Lemma filter_nil_absent (db : Db.t) (ids : list Id) :
  filter (fun c => Db.inArray (Contact.id c) ids) (Db.contacts db) = [] ->
  forall d, In d ids -> Db.findContact db d = None.
Proof.
  intros Hf d Hd. destruct (Db.findContact db d) as [c|] eqn:E; [|reflexivity].
  exfalso. unfold Db.findContact in E. apply find_some in E as [Hin Hc].
  apply JsFacts.eqb_eq in Hc.
  assert (H : In c (filter (fun c => Db.inArray (Contact.id c) ids)
                           (Db.contacts db))).
  { apply filter_In. split; [exact Hin|]. apply MergeFacts.inArray_In.
    now rewrite Hc. }
  rewrite Hf in H. contradiction.
Qed.

Section WithHost.
Variable toLowerCase : jsstring -> jsstring.

Lemma afterMerge_id (now : Z) (primary : Contact.t) (p : Id) (ids : list Id)
  (db : Db.t) (score : Z) (c : Contact.t) :
  Contact.id (afterMerge toLowerCase now primary p ids db score c) = Contact.id c.
Proof.
  unfold afterMerge. cbv zeta.
  repeat match goal with
         | |- context [if ?b then _ else _] => destruct b
         end; reflexivity.
Qed.

(** The outcome of a merge that finds its primary and a duplicate. *)
Lemma mergeContacts_commit (now : Z) (p : Id) (ids : list Id) (db : Db.t)
  (primary : Contact.t) :
  Db.findContact db p = Some primary ->
  filter (fun c => Db.inArray (Contact.id c) ids) (Db.contacts db) <> [] ->
  Db.int4 (mergedInteractionCount primary
             (filter (fun c => Db.inArray (Contact.id c) ids) (Db.contacts db)))
  && Db.int4 (mergedLifetimeValue primary
                (filter (fun c => Db.inArray (Contact.id c) ids) (Db.contacts db)))
  = true ->
  let duplicates :=
    filter (fun c => Db.inArray (Contact.id c) ids) (Db.contacts db) in
  let c1 := setMergedFields toLowerCase now primary duplicates ids primary in
  let result := if Db.inArray p ids then Contact.setMerged p now c1 else c1 in
  mergeContacts toLowerCase now p ids db
  = (inr result,
     Db.mk (List.map (afterMerge toLowerCase now primary p ids db
                        (Scoring.scoreOf now result))
                     (Db.contacts db))
           (Db.repoint p ids (Db.conversations db))
           (Db.repoint p ids (Db.contactAgreements db))
           (Db.repoint p ids (Db.contactNotes db))
           (Db.repoint p ids (Db.contactSources db))
           (Db.repoint p ids (Db.agentAssignments db))
           (Db.repoint p ids (Db.formSubmissions db))
           (Db.repoint p ids (Db.voiceCalls db))).
Proof.
  intros Hp Hd Hfit. cbv zeta.
  pose proof (MergeFacts.findContact_id _ _ _ Hp) as Hid.
  unfold mergeContacts, mergeContactsTx. rewrite Hp.
  destruct (filter _ (Db.contacts db)) as [|dup0 dups] eqn:Ef; [congruence|].
  rewrite <- Ef in *. clear Hd.
  set (duplicates := filter _ (Db.contacts db)) in *.
  rewrite Hfit. cbn [negb].
  set (g1 := setMergedFields toLowerCase now primary duplicates ids).
  set (db1 := Db.updateContacts _ g1 db).
  set (db2 := Db.mk (Db.contacts db1) _ _ _ _ _ _ _).
  set (db3 := Db.updateContacts _ (Contact.setMerged p now) db2).
  assert (F3 : Db.findContact db3 p
     = Some (if Db.inArray p ids then Contact.setMerged p now (g1 primary)
             else g1 primary)).
  { subst db3. rewrite MergeFacts.findContact_update by reflexivity.
    change (Db.findContact db2 p) with (Db.findContact db1 p).
    subst db1. rewrite MergeFacts.findContact_update by reflexivity.
    rewrite Hp. cbn [option_map]. rewrite Hid, JsFacts.eqb_refl.
    change (Contact.id (g1 primary)) with (Contact.id primary).
    now rewrite Hid. }
  rewrite F3.
  unfold Scoring.recalculateHeatScore, Scoring.calculateHeatScore.
  rewrite F3. f_equal.
  unfold Db.updateContacts. subst db3 db2 db1. unfold Db.updateContacts.
  cbn [Db.contacts Db.conversations Db.contactAgreements Db.contactNotes
       Db.contactSources Db.agentAssignments Db.formSubmissions Db.voiceCalls].
  f_equal. rewrite !List.map_map. apply map_ext. intros c. reflexivity.
Qed.

(** X11.  A failed mergeContacts leaves the store as it was (nothing is
    written in part), and it fails only for one of three reasons: the
    primary contact is absent, none of the listed duplicates exists, or the
    summed interactionCount or the summed lifetimeValue of the primary and
    the duplicates found does not fit the integer column. *)
Theorem mergeContacts_failure_causes
  (now : Z) (p : Id) (ids : list Id) (db db' : Db.t) (e : Error) :
  mergeContacts toLowerCase now p ids db = (inl e, db') ->
  db' = db
  /\ (Db.findContact db p = None
      \/ (forall d, In d ids -> Db.findContact db d = None)
      \/ exists primary,
           Db.findContact db p = Some primary
           /\ let duplicates :=
                filter (fun c => Db.inArray (Contact.id c) ids) (Db.contacts db) in
              Db.int4 (mergedInteractionCount primary duplicates) = false
              \/ Db.int4 (mergedLifetimeValue primary duplicates) = false).
Proof.
  intros H. destruct (Db.findContact db p) as [primary|] eqn:Hp.
  - destruct (filter (fun c => Db.inArray (Contact.id c) ids) (Db.contacts db))
      as [|c cs] eqn:Ef.
    + unfold mergeContacts, mergeContactsTx in H. rewrite Hp, Ef in H.
      inversion H; subst. split; [reflexivity|]. right. left.
      now apply filter_nil_absent.
    + destruct (Db.int4 (mergedInteractionCount primary (c :: cs))
                && Db.int4 (mergedLifetimeValue primary (c :: cs))) eqn:Hfit.
      * rewrite (mergeContacts_commit now p ids db primary Hp) in H;
          [discriminate | rewrite Ef; discriminate | rewrite Ef; exact Hfit].
      * unfold mergeContacts, mergeContactsTx in H. rewrite Hp, Ef, Hfit in H.
        cbn [negb] in H. inversion H; subst. split; [reflexivity|].
        right. right. exists primary. split; [reflexivity|]. cbv zeta.
        now apply andb_false_iff in Hfit.
  - unfold mergeContacts, mergeContactsTx in H. rewrite Hp in H.
    inversion H; subst. split; [reflexivity | now left].
Qed.

Lemma mergeContacts_inr (now : Z) (p : Id) (ids : list Id) (db db' : Db.t)
  (result : Contact.t) :
  mergeContacts toLowerCase now p ids db = (inr result, db') ->
  exists primary,
    Db.findContact db p = Some primary
    /\ filter (fun c => Db.inArray (Contact.id c) ids) (Db.contacts db) <> []
    /\ Db.int4 (mergedInteractionCount primary
                  (filter (fun c => Db.inArray (Contact.id c) ids) (Db.contacts db)))
       && Db.int4 (mergedLifetimeValue primary
                     (filter (fun c => Db.inArray (Contact.id c) ids)
                        (Db.contacts db)))
       = true.
Proof.
  intros H. unfold mergeContacts, mergeContactsTx in H.
  destruct (Db.findContact db p) as [primary|]; [|discriminate].
  exists primary. split; [reflexivity|].
  destruct (filter _ (Db.contacts db)) as [|c cs]; [discriminate|].
  split; [discriminate|].
  destruct (Db.int4 _ && Db.int4 _); [reflexivity | discriminate].
Qed.

(** X12.  A successful mergeContacts deletes and creates no contact: the
    contact table holds the same keys as before, each as often, and every
    contact that is neither the primary nor listed as a duplicate is still
    in the table as it was. *)
Theorem mergeContacts_keeps_every_contact
  (now : Z) (p : Id) (ids : list Id) (db db' : Db.t) (result : Contact.t) :
  mergeContacts toLowerCase now p ids db = (inr result, db') ->
  Permutation (List.map Contact.id (Db.contacts db'))
              (List.map Contact.id (Db.contacts db))
  /\ forall c, In c (Db.contacts db) -> Contact.id c <> p ->
               ~ In (Contact.id c) ids -> In c (Db.contacts db').
Proof.
  intros H. destruct (mergeContacts_inr _ _ _ _ _ _ H) as (primary & Hp & Hd & Hfit).
  rewrite (mergeContacts_commit now p ids db primary Hp Hd Hfit) in H.
  inversion H; subst. clear H. cbn [Db.contacts].
  set (f := afterMerge _ _ _ _ _ _ _).
  assert (Hf : forall c, Contact.id (f c) = Contact.id c).
  { intros c. apply afterMerge_id. }
  split.
  - rewrite List.map_map. rewrite (map_ext _ _ Hf). apply Permutation_refl.
  - intros c Hin Hc Hn. apply in_map_iff. exists c. split; [|exact Hin].
    unfold f, afterMerge. cbv zeta.
    apply JsFacts.eqb_neq in Hc. rewrite Hc.
    destruct (Db.inArray (Contact.id c) ids) eqn:E.
    + apply MergeFacts.inArray_In in E. contradiction.
    + now rewrite Hc.
Qed.

(** X13.  A successful mergeContacts moves the references of all seven
    linked tables: every row keeps its key, a row that referred to a listed
    duplicate refers to the primary, every other row is unchanged; so, when
    the primary is not itself listed, no row refers to a listed duplicate
    any more. *)
Theorem mergeContacts_moves_every_reference
  (now : Z) (p : Id) (ids : list Id) (db db' : Db.t) (result : Contact.t) :
  mergeContacts toLowerCase now p ids db = (inr result, db') ->
  Forall2 (Forall2 (movedTo p ids)) (linkedTables db) (linkedTables db')
  /\ (~ In p ids ->
      Forall (Forall (fun r => ~ In (Db.contactId r) ids)) (linkedTables db')).
Proof.
  intros H. destruct (mergeContacts_inr _ _ _ _ _ _ H) as (primary & Hp & Hd & Hfit).
  rewrite (mergeContacts_commit now p ids db primary Hp Hd Hfit) in H.
  inversion H; subst. clear H. unfold linkedTables.
  cbn [Db.conversations Db.contactAgreements Db.contactNotes Db.contactSources
       Db.agentAssignments Db.formSubmissions Db.voiceCalls].
  split.
  - repeat (constructor; [apply repoint_movedTo|]). constructor.
  - intros Hn.
    assert (Hr : forall rows,
               Forall (fun r => ~ In (Db.contactId r) ids) (Db.repoint p ids rows)).
    { intros rows. apply Forall_forall. intros r Hr.
      unfold Db.repoint in Hr. apply in_map_iff in Hr as (o & <- & _).
      destruct (Db.inArray (Db.contactId o) ids) eqn:E; simpl; [exact Hn|].
      intros Hin. apply MergeFacts.inArray_In in Hin. congruence. }
    repeat (constructor; [apply Hr|]). constructor.
Qed.

(** X14.  mergeContacts returns the primary as the transaction left it,
    before its heat score is recalculated: the returned row still carries
    the heat score from before the merge, while the stored row carries the
    recalculated one, and they differ in nothing else.  The returned list of
    merged ids is the previous list followed by the ids passed. *)
Theorem mergeContacts_returns_row_before_rescoring
  (now : Z) (p : Id) (ids : list Id) (db db' : Db.t) (primary result : Contact.t) :
  Db.findContact db p = Some primary ->
  mergeContacts toLowerCase now p ids db = (inr result, db') ->
  Db.findContact db' p
  = Some (Contact.setHeatScore (Scoring.scoreOf now result) now result)
  /\ Contact.heatScore result = Contact.heatScore primary
  /\ Contact.mergedContactIds result = Contact.mergedContactIds primary ++ ids.
Proof.
  intros Hp H.
  destruct (mergeContacts_inr _ _ _ _ _ _ H) as (primary' & Hp' & Hd & Hfit).
  rewrite Hp in Hp'. inversion Hp'; subst primary'. clear Hp'.
  pose proof (MergeFacts.findContact_id _ _ _ Hp) as Hid.
  rewrite (mergeContacts_commit now p ids db primary Hp Hd Hfit) in H.
  inversion H; subst result db'. clear H. split; [|split].
  - unfold Db.findContact. cbn [Db.contacts].
    rewrite MergeFacts.find_by_id_map.
    + fold (Db.findContact db p). rewrite Hp. cbn [option_map]. f_equal.
      unfold afterMerge. cbv zeta. rewrite Hid, JsFacts.eqb_refl.
      change (Contact.id (setMergedFields _ _ _ _ _ primary))
        with (Contact.id primary).
      rewrite Hid. destruct (Db.inArray p ids).
      * change (Contact.id (Contact.setMerged _ _ ?k)) with (Contact.id k).
        change (Contact.id (setMergedFields _ _ _ _ _ primary))
          with (Contact.id primary).
        now rewrite Hid, JsFacts.eqb_refl.
      * change (Contact.id (setMergedFields _ _ _ _ _ primary))
          with (Contact.id primary).
        now rewrite Hid, JsFacts.eqb_refl.
    + intros c. apply afterMerge_id.
  - destruct (Db.inArray p ids); reflexivity.
  - destruct (Db.inArray p ids); reflexivity.
Qed.

Lemma filter_none {A : Type} (f : A -> bool) (l : list A) :
  (forall x, In x l -> f x = false) -> filter f l = [].
Proof.
  induction l as [|x l IH]; intros H; simpl; [reflexivity|].
  rewrite (H x (or_introl eq_refl)). apply IH. intros y Hy. apply H. now right.
Qed.

Lemma fuzzyConfidence_plain (p : Profile) (m : Contact.t) (avg : Q) :
  truthyOpt (email p) = false -> truthyOpt (phone p) = false ->
  fuzzyConfidence p m avg = (avg * (7 # 10))%Q.
Proof.
  intros He Hph. unfold fuzzyConfidence.
  destruct (email p) as [e|], (phone p) as [ph|]; simpl in He, Hph;
    try rewrite He; try rewrite Hph; simpl;
    destruct (Contact.email m), (Contact.phone m); reflexivity.
Qed.

Lemma discovered_name_only (db : Db.t) (org : Id) (p : Profile) (threshold : Q) :
  truthyOpt (email p) = false -> truthyOpt (phone p) = false ->
  Forall (fun c => (confidence c <= 7 # 10)%Q)
         (discovered toLowerCase db org p threshold).
Proof.
  intros He Hph. unfold discovered.
  assert (E1 : emailPass db org p = []).
  { unfold emailPass. destruct (email p) as [e|]; [|reflexivity].
    simpl in He. now rewrite He. }
  assert (E2 : phonePass db org p [] = []).
  { unfold phonePass. destruct (phone p) as [ph|]; [|reflexivity].
    simpl in Hph. now rewrite Hph. }
  rewrite E1, E2. unfold namePass.
  destruct (firstName p) as [fn|], (lastName p) as [ln|]; try constructor.
  destruct (truthy fn && truthy ln); [|constructor].
  apply DetectFacts.fold_left_invariant; [constructor|].
  intros cands m Hc. unfold nameStep.
  destruct (someId cands (Contact.id m)); [exact Hc|].
  destruct (Qle_bool threshold _); [|exact Hc].
  apply Forall_app. split; [exact Hc|]. constructor; [|constructor].
  cbn [confidence]. rewrite (fuzzyConfidence_plain p m _ He Hph).
  set (avg := ((_ + _) / 2)%Q).
  assert (Ha : (avg <= 1)%Q).
  { apply DetectFacts.average_le_1; apply DetectFacts.calculateSimilarity_le_1. }
  clearbody avg. lra.
Qed.

Lemma autoMergeStep_name_only (now : Z) (org : Id) (state : nat * Db.t)
  (c : Contact.t) :
  truthyOpt (Contact.email c) = false -> truthyOpt (Contact.phone c) = false ->
  autoMergeStep toLowerCase now org state c = state.
Proof.
  intros He Hph. destruct state as [count db]. unfold autoMergeStep.
  rewrite filter_none; [reflexivity|].
  intros d Hd. unfold detectDuplicateContacts, StableSort.sortDescQ in Hd.
  apply StableSortFacts.sort_In in Hd.
  pose proof (discovered_name_only db org (profileOf c) (9 # 10) He Hph) as Hf.
  rewrite Forall_forall in Hf. specialize (Hf d Hd).
  destruct (Qle_bool (95 # 100) (confidence d)) eqn:E; [|reflexivity].
  apply Qle_bool_iff in E. lra.
Qed.

(** X15.  autoMergeHighConfidenceDuplicates merges nothing on the
    similarity of names alone: when no active contact of the organization
    has an email or a phone, it returns 0 and leaves the store as it was. *)
Theorem autoMerge_needs_email_or_phone (now : Z) (org : Id) (db : Db.t) :
  (forall c, In c (Db.contacts db) -> activeInOrg org c = true ->
             truthyOpt (Contact.email c) = false
             /\ truthyOpt (Contact.phone c) = false) ->
  autoMergeHighConfidenceDuplicates toLowerCase now org db = (0%nat, db).
Proof.
  intros H. unfold autoMergeHighConfidenceDuplicates.
  apply (CandidateFacts.fold_left_invariant_In (fun s => s = (0%nat, db)));
    [reflexivity|].
  intros s c Hc ->. apply filter_In in Hc as [Hin Hact].
  destruct (H c Hin Hact) as [He Hph]. now apply autoMergeStep_name_only.
Qed.

End WithHost.

Lemma mergeContacts_failure_causes_witness :
  snd (mergeContacts lowerBasicLatin 0 (js "p") [js "d1"; js "d2"] heavyTrio)
  = heavyTrio
  /\ (Db.findContact heavyTrio (js "p") = None
      \/ (forall d, In d [js "d1"; js "d2"] -> Db.findContact heavyTrio d = None)
      \/ exists primary,
           Db.findContact heavyTrio (js "p") = Some primary
           /\ let duplicates :=
                filter (fun c => Db.inArray (Contact.id c) [js "d1"; js "d2"])
                  (Db.contacts heavyTrio) in
              Db.int4 (mergedInteractionCount primary duplicates) = false
              \/ Db.int4 (mergedLifetimeValue primary duplicates) = false).
Proof.
  apply (mergeContacts_failure_causes lowerBasicLatin 0 (js "p")
           [js "d1"; js "d2"] heavyTrio
           (snd (mergeContacts lowerBasicLatin 0 (js "p") [js "d1"; js "d2"]
                   heavyTrio))
           Db.outOfRange).
  vm_compute. reflexivity.
Defined.

(** Three existing contacts, the primary active, with 2000000000
    interactions each: the merge is refused and nothing is written. *)
Example mergeContacts_out_of_range :
  mergeContacts lowerBasicLatin 0 (js "p") [js "d1"; js "d2"] heavyTrio
  = (inl Db.outOfRange, heavyTrio).
Proof. vm_compute. reflexivity. Qed.

Lemma mergeContacts_keeps_every_contact_witness :
  Permutation (List.map Contact.id (Db.contacts (snd mergedTrio)))
              (List.map Contact.id (Db.contacts activeTrio))
  /\ forall c, In c (Db.contacts activeTrio) -> Contact.id c <> js "p" ->
               ~ In (Contact.id c) [js "d1"] -> In c (Db.contacts (snd mergedTrio)).
Proof.
  apply (mergeContacts_keeps_every_contact lowerBasicLatin 0 (js "p") [js "d1"]
           activeTrio (snd mergedTrio) mergedTrioResult).
  vm_compute. reflexivity.
Defined.

Lemma mergeContacts_moves_every_reference_witness :
  Forall (Forall (fun r => ~ In (Db.contactId r) [js "d1"]))
         (linkedTables (snd mergedTrio)).
Proof.
  apply (mergeContacts_moves_every_reference lowerBasicLatin 0 (js "p")
           [js "d1"] activeTrio (snd mergedTrio) mergedTrioResult).
  - vm_compute. reflexivity.
  - simpl. intuition discriminate.
Defined.

Lemma mergeContacts_returns_row_before_rescoring_witness :
  Db.findContact (snd mergedTrio) (js "p")
  = Some (Contact.setHeatScore (Scoring.scoreOf 0 mergedTrioResult) 0
            mergedTrioResult)
  /\ Contact.heatScore mergedTrioResult
     = Contact.heatScore (person "p" None active 1)
  /\ Contact.mergedContactIds mergedTrioResult
     = Contact.mergedContactIds (person "p" None active 1) ++ [js "d1"].
Proof.
  apply (mergeContacts_returns_row_before_rescoring lowerBasicLatin 0 (js "p")
           [js "d1"] activeTrio (snd mergedTrio) (person "p" None active 1)
           mergedTrioResult).
  - reflexivity.
  - vm_compute. reflexivity.
Defined.

(** The merge of the example: the stored primary scores 10, the returned
    row still 0. *)
Example mergedTrio_scores :
  option_map Contact.heatScore (Db.findContact (snd mergedTrio) (js "p")) = Some 10
  /\ Contact.heatScore mergedTrioResult = 0.
Proof. split; vm_compute; reflexivity. Qed.

Lemma autoMerge_needs_email_or_phone_witness :
  autoMergeHighConfidenceDuplicates lowerBasicLatin 0 (js "org") activeTrio
  = (0%nat, activeTrio).
Proof.
  apply (autoMerge_needs_email_or_phone lowerBasicLatin 0 (js "org") activeTrio).
  intros c [<-|[<-|[<-|[]]]] _; split; reflexivity.
Defined.

End MergeOutcomeFacts.

(* ------------------------------------------------------------------ *)
(** ** Heat scorer: monotonicity and the maintenance jobs *)

Module ScoringJobFacts.
Import Js Scoring ScoringJobs Merger.

Lemma recencyScore_mono (now t t' : Z) (c c' : Contact.t) :
  Contact.lastInteractionAt c = Some t ->
  Contact.lastInteractionAt c' = Some t' ->
  t <= t' <= now ->
  recencyScore now c <= recencyScore now c'.
Proof.
  intros Hc Hc' Ht. unfold recencyScore. rewrite Hc, Hc'. cbv zeta.
  assert (H0 : 0 <= (now - t') / (1000 * 60 * 60 * 24))
    by (apply Z.div_pos; lia).
  assert (H1 : (now - t') / (1000 * 60 * 60 * 24)
               <= (now - t) / (1000 * 60 * 60 * 24))
    by (apply Z.div_le_mono; lia).
  set (d := (now - t) / _) in *. set (d' := (now - t') / _) in *.
  clearbody d d'.
  repeat match goal with
         | |- context [?a =? ?b] => destruct (Z.eqb_spec a b)
         | |- context [?a <=? ?b] => destruct (Z.leb_spec a b)
         end; lia.
Qed.

Lemma recencyScore_none (now : Z) (c c' : Contact.t) :
  Contact.lastInteractionAt c = None -> recencyScore now c <= recencyScore now c'.
Proof.
  intros Hc. unfold recencyScore. rewrite Hc.
  destruct (Contact.lastInteractionAt c'); [|lia]. cbv zeta.
  repeat match goal with
         | |- context [?a =? ?b] => destruct (Z.eqb_spec a b)
         | |- context [?a <=? ?b] => destruct (Z.leb_spec a b)
         end; lia.
Qed.

Lemma frequencyScore_mono (c c' : Contact.t) :
  Contact.interactionCount c <= Contact.interactionCount c' ->
  frequencyScore c <= frequencyScore c'.
Proof.
  intros H. unfold frequencyScore. cbv zeta.
  repeat match goal with
         | |- context [?a <=? ?b] => destruct (Z.leb_spec a b)
         end; lia.
Qed.

Lemma valueScore_mono (c c' : Contact.t) :
  orZero (Contact.lifetimeValue c) <= orZero (Contact.lifetimeValue c') ->
  valueScore c <= valueScore c'.
Proof.
  intros H. unfold valueScore. cbv zeta.
  change (match Contact.lifetimeValue c with Some v => v | None => 0 end)
    with (orZero (Contact.lifetimeValue c)).
  change (match Contact.lifetimeValue c' with Some v => v | None => 0 end)
    with (orZero (Contact.lifetimeValue c')).
  repeat match goal with
         | |- context [?a <=? ?b] => destruct (Z.leb_spec a b)
         end; lia.
Qed.

(** X16.  calculateHeatScore is monotone: of two contacts with the same
    average response time, the one with at least as many interactions, at
    least as much lifetime value and an interaction at least as recent (and
    not in the future) scores at least as high. *)
Theorem calculateHeatScore_monotone (now : Z) (db db' : Db.t) (cid cid' : Id)
  (c c' : Contact.t) (t t' : Z) :
  Db.findContact db cid = Some c -> Db.findContact db' cid' = Some c' ->
  Contact.averageResponseTime c = Contact.averageResponseTime c' ->
  Contact.interactionCount c <= Contact.interactionCount c' ->
  orZero (Contact.lifetimeValue c) <= orZero (Contact.lifetimeValue c') ->
  Contact.lastInteractionAt c = Some t ->
  Contact.lastInteractionAt c' = Some t' ->
  t <= t' <= now ->
  exists s s',
    calculateHeatScore now db cid = inr s
    /\ calculateHeatScore now db' cid' = inr s' /\ s <= s'.
Proof.
  intros Hc Hc' Ha Hi Hv Ht Ht' Hle. unfold calculateHeatScore.
  rewrite Hc, Hc'. eexists _, _. split; [reflexivity|]. split; [reflexivity|].
  unfold scoreOf. cbv zeta.
  pose proof (recencyScore_mono now t t' c c' Ht Ht' Hle).
  pose proof (frequencyScore_mono c c' Hi).
  pose proof (valueScore_mono c c' Hv).
  assert (He : engagementScore c = engagementScore c').
  { unfold engagementScore. now rewrite Ha. }
  lia.
Qed.

Lemma updateContacts_twice (p : Contact.t -> bool) (f : Contact.t -> Contact.t)
  (db : Db.t) :
  (forall c, p (f c) = p c) -> (forall c, f (f c) = f c) ->
  Db.updateContacts p f (Db.updateContacts p f db) = Db.updateContacts p f db.
Proof.
  intros Hp Hf. unfold Db.updateContacts. simpl. f_equal.
  rewrite List.map_map. apply map_ext. intros c.
  destruct (p c) eqn:E; [now rewrite Hp, E, Hf | now rewrite E].
Qed.

Lemma scoreOf_setHeatScore (now s t : Z) (c : Contact.t) :
  scoreOf now (Contact.setHeatScore s t c) = scoreOf now c.
Proof. reflexivity. Qed.

(** X17.  A successful recalculateHeatScore returns a score in [0,100],
    stores it on the contact so that calculateHeatScore returns it again, and
    is idempotent: recalculating at the same instant gives the same score
    and the same store.  The linked tables are not touched. *)
Theorem recalculateHeatScore_stores_and_is_idempotent
  (now : Z) (db db' : Db.t) (cid : Id) (s : Z) :
  recalculateHeatScore now db cid = inr (s, db') ->
  0 <= s <= 100
  /\ option_map Contact.heatScore (Db.findContact db' cid) = Some s
  /\ calculateHeatScore now db' cid = inr s
  /\ recalculateHeatScore now db' cid = inr (s, db')
  /\ Tables.linkedTables db' = Tables.linkedTables db.
Proof.
  unfold recalculateHeatScore, calculateHeatScore.
  destruct (Db.findContact db cid) as [c|] eqn:E; [|discriminate].
  intros H. inversion H; subst. clear H.
  pose proof (MergeFacts.findContact_id _ _ _ E) as Hid.
  rewrite MergeFacts.findContact_update by reflexivity. rewrite E.
  cbn [option_map]. rewrite Hid, JsFacts.eqb_refl.
  split; [apply ScoringFacts.scoreOf_range|].
  split; [reflexivity|]. split; [reflexivity|]. split; [|reflexivity].
  rewrite scoreOf_setHeatScore. f_equal. f_equal.
  apply updateContacts_twice; reflexivity.
Qed.

Lemma sum_bounds (l : list Z) (a : Z) :
  Forall (fun r => 0 < r < 86400) l ->
  a + Z.of_nat (List.length l)
  <= fold_left (fun sum time => sum + time) l a
  <= a + 86399 * Z.of_nat (List.length l).
Proof.
  revert a. induction l as [|r l IH]; intros a H; simpl fold_left.
  - simpl. lia.
  - inversion H; subst. specialize (IH (a + r) H3).
    cbn [List.length]. lia.
Qed.

Lemma responseStep_bounds (state : list Z * option Z) (message : Message.t) :
  Forall (fun r => 0 < r < 86400) (fst state) ->
  Forall (fun r => 0 < r < 86400) (fst (responseStep state message)).
Proof.
  destruct state as [times last]. simpl. intros H.
  destruct (Message.direction message); [exact H|].
  destruct last as [t|]; [|exact H]. cbv zeta. cbn [fst].
  destruct (0 <? _) eqn:E1; [|exact H].
  destruct (_ <? 86400) eqn:E2; [|exact H]. simpl.
  apply Forall_app. split; [exact H|]. constructor; [|constructor].
  apply Z.ltb_lt in E1, E2. lia.
Qed.

Lemma conversationStep_bounds (messages : list Message.t) (times : list Z)
  (conversation : Db.Linked) :
  Forall (fun r => 0 < r < 86400) times ->
  Forall (fun r => 0 < r < 86400) (conversationStep messages times conversation).
Proof.
  intros H. unfold conversationStep.
  apply (DetectFacts.fold_left_invariant
           (fun st => Forall (fun r => 0 < r < 86400) (fst st)));
    [exact H|].
  intros st m. apply responseStep_bounds.
Qed.

(** X18.  calculateAverageResponseTime either finds no response time,
    returns null and writes nothing, or returns an average that is positive
    and below 24 hours and stores it; a stored average therefore always earns
    engagement points in calculateHeatScore. *)
Theorem calculateAverageResponseTime_range (now : Z) (messages : list Message.t)
  (db : Db.t) (cid : Id) :
  match calculateAverageResponseTime now messages db cid with
  | (None, db') => db' = db
  | (Some avg, db') =>
      0 < avg < 86400
      /\ forall c, Db.findContact db' cid = Some c ->
                   Contact.averageResponseTime c = Some avg
                   /\ 5 <= engagementScore c
  end.
Proof.
  unfold calculateAverageResponseTime. cbv zeta.
  set (times := fold_left (conversationStep messages) _ []).
  assert (Hb : Forall (fun r => 0 < r < 86400) times).
  { apply DetectFacts.fold_left_invariant; [constructor|].
    intros a b. apply conversationStep_bounds. }
  destruct times as [|r rest] eqn:E; [reflexivity|]. rewrite <- E in *.
  assert (Hlen : 0 < Z.of_nat (List.length times)) by (rewrite E; simpl; lia).
  clear E r rest.
  pose proof (sum_bounds times 0 Hb) as Hs.
  set (total := fold_left _ times 0) in *.
  set (n := Z.of_nat (List.length times)) in *.
  assert (Havg : 0 < total / n < 86400).
  { split.
    - apply Z.div_str_pos. lia.
    - apply Z.div_lt_upper_bound; lia. }
  split; [exact Havg|].
  intros c Hc. rewrite MergeFacts.findContact_update in Hc by reflexivity.
  destruct (Db.findContact db cid) as [c0|] eqn:E0; [|discriminate].
  pose proof (MergeFacts.findContact_id _ _ _ E0) as Hid.
  cbn [option_map] in Hc. rewrite Hid, JsFacts.eqb_refl in Hc.
  inversion Hc; subst c. clear Hc. split; [reflexivity|].
  unfold engagementScore. cbn [setAverageResponseTime Contact.averageResponseTime].
  clearbody total n. set (a := total / n) in *. clearbody a.
  destruct a as [|a|a]; try lia.
  repeat match goal with
         | |- context [?x <? ?y] => destruct (Z.ltb_spec x y)
         end; lia.
Qed.

Lemma find_id_map (l : list Contact.t) (x : Id) :
  In x (List.map Contact.id l) ->
  exists c, find (fun c => eqb (Contact.id c) x) l = Some c.
Proof.
  induction l as [|a l IH]; simpl; [intros []|].
  destruct (eqb (Contact.id a) x) eqn:E; [eauto|].
  intros [H|H]; [|auto]. subst. rewrite JsFacts.eqb_refl in E. discriminate.
Qed.

Lemma NoDup_map_inj {A B : Type} (f : A -> B) (l : list A) (a b : A) :
  NoDup (List.map f l) -> In a l -> In b l -> f a = f b -> a = b.
Proof.
  induction l as [|x l IH]; simpl; [intros _ []|].
  intros Hd Ha Hb E. inversion Hd; subst.
  destruct Ha as [->|Ha], Hb as [->|Hb]; auto.
  - exfalso. apply H1. rewrite E. now apply in_map.
  - exfalso. apply H1. rewrite <- E. now apply in_map.
Qed.

Lemma filter_map_length (org : Id) (f : Contact.t -> Contact.t)
  (l : list Contact.t) :
  (forall c, activeInOrg org (f c) = activeInOrg org c) ->
  List.length (filter (activeInOrg org) (List.map f l))
  = List.length (filter (activeInOrg org) l).
Proof.
  intros Hf. induction l as [|c l IH]; simpl; [reflexivity|].
  rewrite Hf. destruct (activeInOrg org c); simpl; now rewrite IH.
Qed.

Lemma batchStep_invariant (org : Id) (db0 : Db.t) (now : Z) (k : Contact.t)
  (rest : list Contact.t) (updated : nat) (db : Db.t) :
  In k (Db.contacts db0) -> activeInOrg org k = true ->
  batchInvariant org db0 (k :: rest) db ->
  exists db',
    batchStep now (updated, db) k = (S updated, db')
    /\ batchInvariant org db0 rest db'.
Proof.
  intros Hk Hact (Hids & Hlt & Hlen & Hrange & Hout).
  unfold batchStep, recalculateHeatScore, calculateHeatScore, Db.findContact.
  destruct (find_id_map (Db.contacts db) (Contact.id k)) as [c Hc].
  { rewrite Hids. now apply in_map. }
  rewrite Hc. eexists. split; [reflexivity|].
  set (f := fun c0 : Contact.t =>
              if eqb (Contact.id c0) (Contact.id k)
              then Contact.setHeatScore (scoreOf now c) now c0 else c0).
  assert (Hfid : forall c0, Contact.id (f c0) = Contact.id c0).
  { intros c0. unfold f. destruct (eqb _ _); reflexivity. }
  assert (Hfact : forall c0, activeInOrg org (f c0) = activeInOrg org c0).
  { intros c0. unfold f. destruct (eqb _ _); reflexivity. }
  unfold batchInvariant, activeContacts, Db.updateContacts.
  cbn [Db.contacts]. fold f. split; [|split; [|split; [|split]]].
  - rewrite List.map_map, <- Hids. apply map_ext. exact Hfid.
  - exact Hlt.
  - rewrite filter_map_length by exact Hfact. exact Hlen.
  - apply Forall_forall. intros c' Hc'.
    apply in_map_iff in Hc' as (c0 & <- & Hc0). rewrite Hfact. intros Ha.
    rewrite Forall_forall in Hrange. specialize (Hrange c0 Hc0 Ha).
    unfold f. destruct (eqb (Contact.id c0) (Contact.id k)) eqn:E.
    + left. apply ScoringFacts.scoreOf_range.
    + destruct Hrange as [H|[H|H]]; [now left | | now right].
      rewrite H, JsFacts.eqb_refl in E. discriminate.
  - intros Hu c0 Hc0 Hna. specialize (Hout Hu c0 Hc0 Hna).
    apply in_map_iff. exists c0. split; [|exact Hout].
    unfold f. destruct (eqb (Contact.id c0) (Contact.id k)) eqn:E; [|reflexivity].
    apply JsFacts.eqb_eq in E.
    assert (c0 = k) by (eapply NoDup_map_inj; eauto). subst. congruence.
Qed.

Lemma batchLoop_invariant (org : Id) (db0 : Db.t) (clock : nat -> Z)
  (rest : list Contact.t) :
  forall (i updated : nat) (db : Db.t),
  Forall (fun k => In k (Db.contacts db0) /\ activeInOrg org k = true) rest ->
  batchInvariant org db0 rest db ->
  exists db',
    batchLoop clock i rest (updated, db)
    = ((updated + List.length rest)%nat, db')
    /\ batchInvariant org db0 [] db'.
Proof.
  induction rest as [|k rest IH]; intros i updated db Hrest Hinv.
  - exists db. simpl. rewrite Nat.add_0_r. now split.
  - inversion Hrest as [|? ? [Hk Hact] Hrest']; subst.
    destruct (batchStep_invariant org db0 (clock i) k rest updated db Hk Hact Hinv)
      as (db1 & Hs & Hinv1).
    destruct (IH (S i) (S updated) db1 Hrest' Hinv1) as (db' & Hl & Hinv').
    exists db'. split; [|exact Hinv'].
    cbn [batchLoop]. rewrite Hs, Hl. cbn [List.length]. f_equal. lia.
Qed.

Lemma batch_outcome (clock : nat -> Z) (org : Id) (db : Db.t) :
  exists db',
    batchRecalculateHeatScores clock org db
    = (List.length (activeContacts org db), db')
    /\ batchInvariant org db [] db'.
Proof.
  unfold batchRecalculateHeatScores. cbv zeta.
  apply (batchLoop_invariant org db clock
           (filter (activeInOrg org) (Db.contacts db)) 0 0 db).
  - apply Forall_forall. intros k Hk. now apply filter_In in Hk.
  - repeat split; try reflexivity.
    + apply Forall_forall. intros c Hc Ha. right.
      apply in_map. apply filter_In. now split.
    + intros _ c Hc _. exact Hc.
Qed.

(** X19.  batchRecalculateHeatScores reports exactly the number of active
    contacts of the organization (no recalculation fails), keeps the keys of
    the contact table and the linked tables, and leaves every active contact
    of the organization with a heat score in [0,100]. *)
Theorem batchRecalculateHeatScores_updates_every_active_contact
  (clock : nat -> Z) (org : Id) (db : Db.t) :
  let (updated, db') := batchRecalculateHeatScores clock org db in
  updated = List.length (activeContacts org db)
  /\ List.map Contact.id (Db.contacts db') = List.map Contact.id (Db.contacts db)
  /\ Tables.linkedTables db' = Tables.linkedTables db
  /\ Forall (fun c => 0 <= Contact.heatScore c <= 100) (activeContacts org db').
Proof.
  destruct (batch_outcome clock org db) as (db' & -> & Hids & Hlt & _ & Hr & _).
  split; [reflexivity|]. split; [exact Hids|]. split; [exact Hlt|].
  apply Forall_forall. intros c Hc. apply filter_In in Hc as [Hin Ha].
  rewrite Forall_forall in Hr. destruct (Hr c Hin Ha) as [H|[]]. exact H.
Qed.

(** X20.  When the contact keys are unique, batchRecalculateHeatScores
    leaves every contact that is not an active contact of the organization
    exactly as it was. *)
Theorem batchRecalculateHeatScores_touches_no_other_contact
  (clock : nat -> Z) (org : Id) (db : Db.t) (c : Contact.t) :
  uniqueIds db -> In c (Db.contacts db) -> activeInOrg org c = false ->
  In c (Db.contacts (snd (batchRecalculateHeatScores clock org db))).
Proof.
  intros Hu Hc Ha.
  destruct (batch_outcome clock org db) as (db' & -> & _ & _ & _ & _ & Hout).
  now apply Hout.
Qed.

Lemma count_total (l : list Contact.t) (d : Distribution) :
  let r := fold_left count l d in
  (hot r + warm r + cold r = hot d + warm d + cold d + List.length l)%nat.
Proof.
  revert d. induction l as [|c l IH]; intros d; cbn [fold_left List.length].
  - cbv zeta. lia.
  - cbv zeta in *. rewrite IH. unfold count.
    destruct (80 <=? _); [simpl; lia|]. destruct (50 <=? _); simpl; lia.
Qed.

(** X21.  getHeatScoreDistribution puts every active contact of the
    organization in exactly one bucket: the three counts add up to the
    number of active contacts, which is also the count that
    batchRecalculateHeatScores reports, before and after the batch. *)
Theorem getHeatScoreDistribution_total (clock : nat -> Z) (org : Id) (db : Db.t) :
  let total d := (hot d + warm d + cold d)%nat in
  total (getHeatScoreDistribution org db) = List.length (activeContacts org db)
  /\ total (getHeatScoreDistribution org
              (snd (batchRecalculateHeatScores clock org db)))
     = fst (batchRecalculateHeatScores clock org db).
Proof.
  cbv zeta. unfold getHeatScoreDistribution. split.
  - pose proof (count_total (filter (activeInOrg org) (Db.contacts db))
                  (mkDistribution 0 0 0)) as H.
    cbv zeta in H. rewrite H. reflexivity.
  - destruct (batch_outcome clock org db) as (db' & -> & _ & _ & Hlen & _).
    cbn [fst snd].
    pose proof (count_total (filter (activeInOrg org) (Db.contacts db'))
                  (mkDistribution 0 0 0)) as H.
    cbv zeta in H. rewrite H. exact Hlen.
Qed.

Lemma calculateHeatScore_monotone_witness :
  exists s s',
    calculateHeatScore 0
      (Examples.store
         [Contact.mk (js "v") (js "org") (js "Ana") (js "Lopez") None None None
            0 None None None (Some (-172800000)) 2 (Some 500) (Some 60) None
            active None [] 0] [])
      (js "v") = inr s
    /\ calculateHeatScore 0 (Examples.store [Examples.warmContact] []) (js "w")
       = inr s'
    /\ s <= s'.
Proof.
  apply (calculateHeatScore_monotone 0 _ _ (js "v") (js "w")
           (Contact.mk (js "v") (js "org") (js "Ana") (js "Lopez") None None None
              0 None None None (Some (-172800000)) 2 (Some 500) (Some 60) None
              active None [] 0)
           Examples.warmContact (-172800000) 0); try reflexivity;
    simpl; lia.
Defined.

Lemma recalculateHeatScore_stores_and_is_idempotent_witness :
  0 <= 100 <= 100
  /\ option_map Contact.heatScore
       (Db.findContact
          (Examples.store [Contact.setHeatScore 100 0 Examples.warmContact] [])
          (js "w"))
     = Some 100
  /\ calculateHeatScore 0
       (Examples.store [Contact.setHeatScore 100 0 Examples.warmContact] [])
       (js "w")
     = inr 100
  /\ recalculateHeatScore 0
       (Examples.store [Contact.setHeatScore 100 0 Examples.warmContact] [])
       (js "w")
     = inr (100,
            Examples.store [Contact.setHeatScore 100 0 Examples.warmContact] [])
  /\ Tables.linkedTables
       (Examples.store [Contact.setHeatScore 100 0 Examples.warmContact] [])
     = Tables.linkedTables (Examples.store [Examples.warmContact] []).
Proof.
  apply (recalculateHeatScore_stores_and_is_idempotent 0
           (Examples.store [Examples.warmContact] [])
           (Examples.store [Contact.setHeatScore 100 0 Examples.warmContact] [])
           (js "w") 100).
  vm_compute. reflexivity.
Defined.

Lemma batchRecalculateHeatScores_touches_no_other_contact_witness :
  In (Examples.person "p" None inactive 1)
     (Db.contacts
        (snd (batchRecalculateHeatScores (fun _ => 0) (js "org")
                Examples.inactivePrimaryTrio))).
Proof.
  apply (batchRecalculateHeatScores_touches_no_other_contact (fun _ => 0)
           (js "org") Examples.inactivePrimaryTrio).
  - unfold uniqueIds. vm_compute.
    repeat (constructor; [simpl; intuition discriminate|]). constructor.
  - left. reflexivity.
  - reflexivity.
Defined.

End ScoringJobFacts.

(* ------------------------------------------------------------------ *)
(** ** Agent router: assignments *)

Module AssignmentFacts.
Import Js StableSort AgentManager Assignments.

Lemma filter_length_le1_find {A : Type} (p : A -> bool) (l : list A) (x : A) :
  (List.length (filter p l) <= 1)%nat -> find p l = Some x ->
  filter p l = [x].
Proof.
  induction l as [|a l IH]; simpl; [discriminate|].
  destruct (p a) eqn:E.
  - intros Hl H. inversion H; subst. simpl in Hl.
    destruct (filter p l); [reflexivity | simpl in Hl; lia].
  - exact IH.
Qed.

Lemma find_none_filter {A : Type} (p : A -> bool) (l : list A) :
  find p l = None -> filter p l = [].
Proof.
  induction l as [|a l IH]; simpl; [reflexivity|].
  destruct (p a); [discriminate | exact IH].
Qed.

Lemma openIn_close (now : Z) (reason : jsstring) (c : Id) (r : Row) :
  openIn c (close now reason r) = false.
Proof. unfold openIn, close, isOpen. simpl. apply andb_false_r. Qed.

Lemma filter_map_closed (now : Z) (reason : jsstring) (c : Id) (hit : Row -> bool)
  (l : list Row) :
  List.length
    (filter (openIn c) (List.map (fun r => if hit r then close now reason r else r) l))
  = List.length (filter (fun r => openIn c r && negb (hit r)) l).
Proof.
  induction l as [|r l IH]; simpl; [reflexivity|].
  destruct (hit r) eqn:E; simpl.
  - rewrite openIn_close, andb_false_r. exact IH.
  - rewrite andb_true_r. destruct (openIn c r); simpl; now rewrite IH.
Qed.

Lemma filter_and_length {A : Type} (p q : A -> bool) (l : list A) :
  (List.length (filter (fun x => p x && q x) l) <= List.length (filter p l))%nat.
Proof.
  induction l as [|a l IH]; simpl; [lia|].
  destruct (p a), (q a); simpl; lia.
Qed.

Lemma filter_keep_closed (now : Z) (reason : jsstring) (c : Id) (x : Row)
  (l : list Row) :
  filter (openIn c) l = [x] ->
  filter (openIn c)
    (List.map (fun r => if eqb (Assignment.id (row r)) (Assignment.id (row x))
                        then close now reason r else r) l)
  = [].
Proof.
  intros H.
  assert (Hall : forall r, In r l -> openIn c r = true -> r = x).
  { intros r Hr Ho.
    assert (Hin : In r (filter (openIn c) l)) by now apply filter_In.
    rewrite H in Hin. destruct Hin as [<-|[]]. reflexivity. }
  clear H. induction l as [|r l IH]; simpl; [reflexivity|].
  destruct (eqb (Assignment.id (row r)) (Assignment.id (row x))) eqn:E.
  - rewrite openIn_close. apply IH. intros r' Hr'. apply Hall. now right.
  - destruct (openIn c r) eqn:Eo.
    + rewrite (Hall r (or_introl eq_refl) Eo) in E.
      rewrite JsFacts.eqb_refl in E. discriminate.
    + apply IH. intros r' Hr'. apply Hall. now right.
Qed.

Lemma assign_outcome
  (now : Z) (uuid : Id) (conversations : list Conversation.t)
  (agents : list Agent.t) (contacts : list Contact.t)
  (conversationId agentId contactId : Id) (table : list Row) :
  oneOpenEach table ->
  referenced conversations agents contacts conversationId agentId contactId
  = true ->
  exists assignment table',
    assignAgentToConversation now uuid conversations agents contacts
      conversationId agentId contactId table
    = (inr assignment, table')
    /\ openFor conversationId table' = [assignment]
    /\ Assignment.agentId (row assignment) = agentId
    /\ Assignment.contactId (row assignment) = contactId
    /\ oneOpenEach table'
    /\ Permutation (List.map (fun r => Assignment.id (row r)) table')
                   (uuid :: List.map (fun r => Assignment.id (row r)) table).
Proof.
  intros Hone Href. unfold assignAgentToConversation. cbv zeta. rewrite Href.
  set (inserted := mkRow _ now None).
  eexists _, _. split; [reflexivity|].
  assert (Hins : openIn conversationId inserted = true).
  { unfold openIn, inserted. simpl. now rewrite JsFacts.eqb_refl. }
  destruct (find (openIn conversationId) table) as [existing|] eqn:Ef.
  - pose proof (filter_length_le1_find _ _ _ (Hone conversationId) Ef) as Hx.
    split; [|split; [reflexivity|split; [reflexivity|split]]].
    + unfold openFor. rewrite filter_app.
      rewrite (filter_keep_closed now _ conversationId existing table Hx).
      simpl. now rewrite Hins.
    + intros c. unfold openFor. rewrite filter_app, length_app.
      destruct (eqb conversationId c) eqn:Ec.
      * apply JsFacts.eqb_eq in Ec. subst c.
        rewrite (filter_keep_closed now _ conversationId existing table Hx).
        simpl. rewrite Hins. simpl. lia.
      * assert (Hi : openIn c inserted = false).
        { unfold openIn, inserted. simpl. now rewrite Ec. }
        simpl. rewrite Hi. simpl. rewrite Nat.add_0_r.
        rewrite (filter_map_closed now _ c
                   (fun r => eqb (Assignment.id (row r))
                                 (Assignment.id (row existing)))).
        etransitivity; [apply filter_and_length | apply (Hone c)].
    + rewrite List.map_app, List.map_map. simpl.
      rewrite (map_ext (fun r => Assignment.id (row (if eqb (Assignment.id (row r))
                                   (Assignment.id (row existing))
                              then close now (js "Reassigned to different agent") r
                              else r)))
                       (fun r => Assignment.id (row r)))
        by (intros r; destruct (eqb _ _); reflexivity).
      symmetry. apply Permutation_cons_append.
  - apply find_none_filter in Ef.
    split; [|split; [reflexivity|split; [reflexivity|split]]].
    + unfold openFor. rewrite filter_app, Ef. simpl. now rewrite Hins.
    + intros c. unfold openFor. rewrite filter_app, length_app.
      destruct (eqb conversationId c) eqn:Ec.
      * apply JsFacts.eqb_eq in Ec. subst c. rewrite Ef. simpl.
        rewrite Hins. simpl. lia.
      * assert (Hi : openIn c inserted = false).
        { unfold openIn, inserted. simpl. now rewrite Ec. }
        simpl. rewrite Hi. simpl. rewrite Nat.add_0_r. apply (Hone c).
    + rewrite List.map_app. simpl. symmetry. apply Permutation_cons_append.
Qed.

Lemma filter_head_find {A : Type} (p : A -> bool) (l : list A) (x : A)
  (xs : list A) :
  filter p l = x :: xs -> find p l = Some x.
Proof.
  induction l as [|a l IH]; simpl; [discriminate|].
  destruct (p a); [intros H; now inversion H | exact IH].
Qed.

(** X22.  assignAgentToConversation keeps the rule that a conversation has
    at most one open assignment.  If the rule holds before the call and the
    conversation, the agent and the contact exist, the call succeeds, the
    conversation has exactly one open assignment afterwards, the returned
    one for the agent and contact given, which is the one
    getCurrentAssignment then reports, the rule still holds for every
    conversation, and the table holds the keys it held and the new one: no
    row is deleted.  If one of the three does not exist, the store refuses
    the row and the table is left as it was. *)
Theorem assignAgentToConversation_one_open_assignment
  (now : Z) (uuid : Id) (conversations : list Conversation.t)
  (agents : list Agent.t) (contacts : list Contact.t)
  (conversationId agentId contactId : Id) (table : list Row) :
  oneOpenEach table ->
  if referenced conversations agents contacts conversationId agentId contactId
  then
    exists assignment table',
      assignAgentToConversation now uuid conversations agents contacts
        conversationId agentId contactId table
      = (inr assignment, table')
      /\ openFor conversationId table' = [assignment]
      /\ option_map fst (getCurrentAssignment agents conversationId table')
         = Some assignment
      /\ Assignment.agentId (row assignment) = agentId
      /\ Assignment.contactId (row assignment) = contactId
      /\ oneOpenEach table'
      /\ Permutation (List.map (fun r => Assignment.id (row r)) table')
                     (uuid :: List.map (fun r => Assignment.id (row r)) table)
  else
    assignAgentToConversation now uuid conversations agents contacts
      conversationId agentId contactId table
    = (inl Db.foreignKey, table).
Proof.
  intros Hone.
  destruct (referenced conversations agents contacts conversationId agentId
              contactId) eqn:Href.
  - destruct (assign_outcome now uuid conversations agents contacts
                conversationId agentId contactId table Hone Href)
      as (assignment & table' & H & Ho & Ha & Hc & Hone' & Hids).
    exists assignment, table'. repeat (split; [assumption|]).
    split; [|repeat (split; [assumption|]); assumption].
    unfold getCurrentAssignment.
    now rewrite (filter_head_find _ _ _ _ Ho).
  - unfold assignAgentToConversation. cbv zeta. now rewrite Href.
Qed.

Lemma map_hit_none (hit : Row -> bool) (f : Row -> Row) (l : list Row) :
  filter hit l = [] -> List.map (fun r => if hit r then f r else r) l = l.
Proof.
  induction l as [|r l IH]; simpl; [reflexivity|].
  destruct (hit r); [discriminate|]. intros H. now rewrite IH.
Qed.

(** X23.  unassignAgent succeeds exactly when an open assignment with the
    given key exists; a failed call changes nothing; after a successful call
    no assignment with that key is open, so a second call fails. *)
Theorem unassignAgent_only_once
  (now now' : Z) (assignmentId : Id) (reason reason' : option jsstring)
  (table : list Row) :
  match unassignAgent now assignmentId reason table with
  | (inl _, table') =>
      table' = table
      /\ forall r, In r table -> Assignment.id (row r) = assignmentId ->
                   isOpen (row r) = false
  | (inr assignment, table') =>
      Assignment.id (row assignment) = assignmentId
      /\ Assignment.unassignedAt (row assignment) = Some now
      /\ In assignment table'
      /\ unassignAgent now' assignmentId reason' table'
         = (inl (Err "Assignment not found or already unassigned"), table')
  end.
Proof.
  unfold unassignAgent. cbv zeta.
  set (hit := fun r : Row => eqb (Assignment.id (row r)) assignmentId
                             && isOpen (row r)).
  set (set1 := close now _). set (set2 := close now' _).
  change (fun r : Row => if eqb (Assignment.id (row r)) assignmentId
                            && isOpen (row r) then set1 r else r)
    with (fun r : Row => if hit r then set1 r else r).
  change (fun r : Row => if eqb (Assignment.id (row r)) assignmentId
                            && isOpen (row r) then set2 r else r)
    with (fun r : Row => if hit r then set2 r else r).
  destruct (filter hit table) as [|x xs] eqn:Ef; cbn [List.map].
  - split; [now apply map_hit_none|].
    intros r Hr Hid. destruct (isOpen (row r)) eqn:Eo; [|reflexivity].
    assert (Hin : In r (filter hit table)).
    { apply filter_In. split; [exact Hr|]. unfold hit.
      now rewrite Hid, JsFacts.eqb_refl, Eo. }
    rewrite Ef in Hin. contradiction.
  - assert (Hx : In x (filter hit table)) by (rewrite Ef; now left).
    apply filter_In in Hx as [Hin Hh].
    assert (Hc : forall r, hit (set1 r) = false).
    { intros r. unfold hit, set1, close, isOpen. simpl. apply andb_false_r. }
    assert (Hnone : filter hit (List.map (fun r => if hit r then set1 r else r) table)
                    = []).
    { clear - Hc. induction table as [|r l IH]; simpl; [reflexivity|].
      destruct (hit r) eqn:E; [now rewrite Hc | now rewrite E]. }
    split; [|split; [reflexivity|split]].
    + unfold hit in Hh. apply andb_true_iff in Hh as [Hh _].
      now apply JsFacts.eqb_eq in Hh.
    + apply in_map_iff. exists x. split; [|exact Hin]. cbv beta.
      now rewrite Hh.
    + rewrite Hnone. cbn [List.map]. f_equal. now apply map_hit_none.
Qed.




Lemma assignAgentToConversation_one_open_assignment_witness :
  exists assignment table',
    assignAgentToConversation 5 (js "n")
      [Conversation.mk (js "conv") (js "c") (js "web")] [Examples.linkAgent] [Examples.coldContact]
      (js "conv") (js "agent") (js "c")
      [mkRow (Assignment.mk (js "o") (js "conv") (js "old") (js "c") None 2 300)
             1 None]
    = (inr assignment, table')
    /\ openFor (js "conv") table' = [assignment].
Proof.
  pose proof (assignAgentToConversation_one_open_assignment 5 (js "n")
                [Conversation.mk (js "conv") (js "c") (js "web")] [Examples.linkAgent]
                [Examples.coldContact] (js "conv") (js "agent") (js "c")
                [mkRow (Assignment.mk (js "o") (js "conv") (js "old") (js "c")
                          None 2 300) 1 None]) as H.
  change (referenced _ _ _ _ _ _) with true in H.
  destruct H as (assignment & table' & H & Ho & _).
  - intros c. unfold openFor. simpl. destruct (openIn c _); simpl; lia.
  - exists assignment, table'. now split.
Defined.

End AssignmentFacts.

(* ------------------------------------------------------------------ *)
(** ** Decision engine: what decideActions returns *)

Module DecisionOutcomeFacts.
Import Js DecisionMaker Handlers.

Lemma takeNonSpace_split (s : jsstring) :
  exists rest, s = takeNonSpace s ++ rest.
Proof.
  induction s as [|c s [rest IH]]; simpl; [now exists []|].
  destruct (isWhiteSpace c); [now exists (c :: s)|].
  exists rest. simpl. now rewrite <- IH.
Qed.

Lemma noSpace_app (a b : jsstring) :
  noSpace (a ++ b) = noSpace a && noSpace b.
Proof. unfold noSpace. apply forallb_app. Qed.

Lemma scheme_url (scheme s : jsstring) :
  startsWith scheme (js "http") = true -> noSpace scheme = true ->
  startsWith s scheme = true ->
  let body := takeNonSpace (skipn (List.length scheme) s) in
  startsWith (scheme ++ body) (js "http") = true
  /\ noSpace (scheme ++ body) = true
  /\ startsWith s (scheme ++ body) = true.
Proof.
  intros Hh Hn Hs body. split; [|split].
  - apply (JsFacts.startsWith_prefix (js "http") []). rewrite app_nil_r.
    apply DecisionFacts.startsWith_split in Hh. rewrite Hh at 1.
    rewrite <- app_assoc. apply JsFacts.startsWith_app.
  - rewrite noSpace_app, Hn. apply DecisionFacts.takeNonSpace_noSpace.
  - apply DecisionFacts.startsWith_split in Hs.
    destruct (takeNonSpace_split (skipn (List.length scheme) s)) as [rest Hr].
    fold body in Hr. rewrite Hs at 1. rewrite Hr, app_assoc.
    apply JsFacts.startsWith_app.
Qed.

Lemma matchUrlAt_sound (s m : jsstring) :
  matchUrlAt s = Some m ->
  startsWith m (js "http") = true /\ noSpace m = true /\ startsWith s m = true.
Proof.
  unfold matchUrlAt.
  destruct (startsWith s (js "https://")) eqn:E1.
  - pose proof (scheme_url (js "https://") s eq_refl eq_refl E1) as H.
    cbv zeta in H. change (List.length (js "https://")) with 8%nat in H.
    destruct (takeNonSpace (skipn 8 s)); [discriminate|].
    intros Hm. inversion Hm; subst. exact H.
  - destruct (startsWith s (js "http://")) eqn:E2; [|discriminate].
    pose proof (scheme_url (js "http://") s eq_refl eq_refl E2) as H.
    cbv zeta in H. change (List.length (js "http://")) with 7%nat in H.
    destruct (takeNonSpace (skipn 7 s)); [discriminate|].
    intros Hm. inversion Hm; subst. exact H.
Qed.

Lemma includes_cons (c : codeUnit) (s p : jsstring) :
  includes s p = true -> includes (c :: s) p = true.
Proof. intros H. cbn [includes]. rewrite H. apply orb_true_r. Qed.

Lemma scanUrls_sound (s : jsstring) :
  forall skip m, In m (scanUrls skip s) ->
  startsWith m (js "http") = true /\ noSpace m = true /\ includes s m = true.
Proof.
  induction s as [|c s IH]; intros skip m; [intros []|].
  cbn [scanUrls]. destruct skip as [|k].
  - destruct (matchUrlAt (c :: s)) as [u|] eqn:E.
    + intros [<-|Hin].
      * destruct (matchUrlAt_sound _ _ E) as (H1 & H2 & H3).
        split; [exact H1|]. split; [exact H2|].
        now apply JsFacts.includes_startsWith.
      * destruct (IH _ _ Hin) as (H1 & H2 & H3).
        split; [exact H1|]. split; [exact H2|]. now apply includes_cons.
    + intros Hin. destruct (IH _ _ Hin) as (H1 & H2 & H3).
      split; [exact H1|]. split; [exact H2|]. now apply includes_cons.
  - intros Hin. destruct (IH _ _ Hin) as (H1 & H2 & H3).
    split; [exact H1|]. split; [exact H2|]. now apply includes_cons.
Qed.

Lemma accepted_send_link (text c url title : jsstring) :
  In url (extractUrls text) ->
  accepted text (mkAction (js "send-link") (SendLink c url title) 5).
Proof.
  intros H. destruct (scanUrls_sound text 0 url H) as (H1 & H2 & H3).
  unfold accepted. cbn [type params paramsUrl]. split; [|now split].
  change (validate (js "send-link") (SendLink c url title))
    with (Some (startsWith url (js "http"))).
  now rewrite H1.
Qed.

Lemma accepted_others (text c d : jsstring) (items : list unit)
  (times tags : list jsstring) :
  accepted text (mkAction (js "send-document") (SendDocument c d) 7)
  /\ accepted text (mkAction (js "create-quote") (CreateQuote c d items) 9)
  /\ accepted text (mkAction (js "schedule-meeting") (ScheduleMeeting c d times) 8)
  /\ accepted text (mkAction (js "transfer-to-human")
                      (TransferToHuman c d (js "high")) 10)
  /\ accepted text (mkAction (js "create-note") (CreateNote c d true) 3)
  /\ accepted text (mkAction (js "update-tags") (UpdateTags c tags) 2)
  /\ accepted text (mkAction (js "search-product") (SearchProduct c d) 6).
Proof. repeat split. Qed.

Section WithHost.
Variable toLowerCase : jsstring -> jsstring.
Variable extractLinkTitle : jsstring -> jsstring -> jsstring.
Variable extractTimeProposals : jsstring -> list jsstring.
Variable extractEscalationReason : jsstring -> jsstring.
Variable extractProductQuery : jsstring -> option jsstring.

Ltac gate :=
  match goal with
  | |- Forall _ (if ?a ?x && _ then _ else _) =>
      destruct (a x) eqn:?; cbn [andb]; [|constructor]
  | |- Forall _ (if ?a ?x then _ else _) =>
      destruct (a x) eqn:?; [|constructor]
  end.

Ltac pieces tac :=
  repeat match goal with
    | |- Forall _ (if ?c then _ else _) => destruct c
    | |- Forall _ (match ?x with _ => _ end) => destruct x
    | |- Forall _ [] => constructor
    | |- Forall _ (_ :: _) => constructor; [tac|]
    end.

Lemma emitted_allowed (allowed : jsstring -> bool) (text : jsstring)
  (context : ContactContext) (conversationId : Id) :
  Forall (fun a => allowed (type a) = true)
         (emitted toLowerCase extractLinkTitle extractTimeProposals
            extractEscalationReason extractProductQuery
            allowed text context conversationId).
Proof.
  unfold emitted. cbv zeta.
  repeat (apply Forall_app; split); gate.
  - destruct (_ || _); [|constructor].
    apply Forall_forall. intros a Ha. apply in_map_iff in Ha as (u & <- & _).
    assumption.
  - pieces assumption.
  - pieces assumption.
  - pieces assumption.
  - pieces assumption.
  - pieces assumption.
  - pieces assumption.
  - pieces assumption.
Qed.

Lemma emitted_accepted (allowed : jsstring -> bool) (text : jsstring)
  (context : ContactContext) (conversationId : Id) :
  Forall (accepted text)
         (emitted toLowerCase extractLinkTitle extractTimeProposals
            extractEscalationReason extractProductQuery
            allowed text context conversationId).
Proof.
  unfold emitted. cbv zeta.
  repeat (apply Forall_app; split).
  - destruct (_ && _); [|constructor].
    apply Forall_forall. intros a Ha. apply in_map_iff in Ha as (u & <- & Hu).
    now apply accepted_send_link.
  - pieces ltac:(apply (accepted_others text conversationId
                          (detectDocumentType toLowerCase text) [] [] [])).
  - pieces ltac:(apply (accepted_others text conversationId (contactId context)
                          (extractQuoteItems text) [] [])).
  - pieces ltac:(apply (accepted_others text conversationId (contactId context)
                          [] (extractTimeProposals text) [])).
  - pieces ltac:(apply (accepted_others text conversationId
                          (extractEscalationReason text) [] [] [])).
  - pieces ltac:(apply (accepted_others text (contactId context) text [] [] [])).
  - destruct (allowed _); [|constructor].
    destruct (extractTags toLowerCase text context) as [|t ts]; constructor;
      [|constructor].
    apply (accepted_others text (contactId context) [] [] [] (t :: ts)).
  - destruct (_ && _); [|constructor].
    destruct (extractProductQuery text) as [q|]; [|constructor].
    destruct (truthy q); constructor; [|constructor].
    apply (accepted_others text q conversationId [] [] []).
Qed.

(** X25.  decideActions returns its actions by descending priority, and
    only actions of a type the agent allows: an agent with no allowed
    actions gets none.  It fails only when the allowedActions column holds
    a document that is neither an array nor a string. *)
Theorem decideActions_sorted_and_allowed (aiResponse : jsstring)
  (agent : Agent.t) (context : ContactContext) (conversationId : Id) :
  match allowedOf (Agent.allowedActions agent),
        decideActions toLowerCase extractLinkTitle extractTimeProposals
          extractEscalationReason extractProductQuery
          aiResponse agent context conversationId with
  | Some allowed, inr actions =>
      StronglySorted (StableSort.descending priority) actions
      /\ Forall (fun a => allowed (type a) = true) actions
      /\ (Agent.allowedActions agent = None -> actions = [])
  | None, inl _ => True
  | _, _ => False
  end.
Proof.
  unfold decideActions.
  destruct (allowedOf (Agent.allowedActions agent)) as [allowed|] eqn:Ea;
    [|exact I].
  assert (Hall : Forall (fun a => allowed (type a) = true)
                   (StableSort.sortDescZ priority
                      (emitted toLowerCase extractLinkTitle extractTimeProposals
                         extractEscalationReason extractProductQuery
                         allowed aiResponse context conversationId))).
  { apply Forall_forall. intros a Ha. apply StableSortFacts.sort_In in Ha.
    pose proof (emitted_allowed allowed aiResponse context conversationId) as H.
    rewrite Forall_forall in H. now apply H. }
  split; [apply StableSortFacts.sortDescZ_sorted|]. split; [exact Hall|].
  intros Hn. rewrite Hn in Ea. inversion Ea; subst.
  destruct (StableSort.sortDescZ priority _) as [|a l]; [reflexivity|].
  inversion Hall; subst. discriminate.
Qed.

(** X26.  Every action decideActions returns is accepted by the validate
    of the handler registered under its type; in particular the URL of a
    send-link action starts with http, holds no whitespace and is a piece of
    the AI response. *)
Theorem decideActions_passes_validate (aiResponse : jsstring)
  (agent : Agent.t) (context : ContactContext) (conversationId : Id) :
  match decideActions toLowerCase extractLinkTitle extractTimeProposals
          extractEscalationReason extractProductQuery
          aiResponse agent context conversationId with
  | inr actions => Forall (accepted aiResponse) actions
  | inl _ => True
  end.
Proof.
  unfold decideActions.
  destruct (allowedOf (Agent.allowedActions agent)) as [allowed|]; [|exact I].
  apply Forall_forall. intros a Ha. apply StableSortFacts.sort_In in Ha.
  pose proof (emitted_accepted allowed aiResponse context conversationId) as H.
  rewrite Forall_forall in H. now apply H.
Qed.

Lemma flat_map_filter {A B : Type} (p : A -> bool) (f : A -> B) (l : list A) :
  flat_map (fun e => if p e then [f e] else []) l = List.map f (filter p l).
Proof.
  induction l as [|a l IH]; simpl; [reflexivity|].
  destruct (p a); simpl; now rewrite IH.
Qed.

(** X27.  detectIntent returns names of its seven phrase tables only, each
    at most once; so the intents file, price, cost, appointment, call and
    stock, which decideActions also asks for, are never among them. *)
Theorem detectIntent_names (response : jsstring) :
  Forall (fun name => In name intentNames) (detectIntent toLowerCase response)
  /\ NoDup (detectIntent toLowerCase response)
  /\ Forall (fun name => arrayIncludes (detectIntent toLowerCase response) name
                         = false)
            unknownIntents.
Proof.
  unfold detectIntent. cbv zeta. rewrite flat_map_filter.
  set (p := fun entry : jsstring * list jsstring => existsb _ (snd entry)).
  assert (Hin : Forall (fun name => In name intentNames)
                       (List.map fst (filter p intentPatterns))).
  { apply Forall_forall. intros name Hn. apply in_map_iff in Hn as (e & <- & He).
    apply filter_In in He as [He _]. unfold intentNames. now apply in_map. }
  split; [exact Hin|]. split.
  - apply CandidateFacts.NoDup_map_filter. vm_compute.
    repeat (constructor; [simpl; intuition discriminate|]). constructor.
  - apply Forall_forall. intros name Hn.
    destruct (arrayIncludes _ name) eqn:E; [|reflexivity]. exfalso.
    apply MergeFieldFacts.arrayIncludes_In in E.
    rewrite Forall_forall in Hin. specialize (Hin name E).
    vm_compute in Hn, Hin.
    repeat (destruct Hn as [<-|Hn]; [intuition discriminate|]).
    exact Hn.
Qed.

End WithHost.

End DecisionOutcomeFacts.

(* ------------------------------------------------------------------ *)
(** ** Pipeline: agent lookup, failures and the log *)

Module EngineFacts.
Import Js Core Assignments Failures.

Section Pipeline.
Variable Ext : Type.
Variable toLowerCase : jsstring -> jsstring.
Variable extractLinkTitle : jsstring -> jsstring -> jsstring.
Variable extractTimeProposals : jsstring -> list jsstring.
Variable extractEscalationReason : jsstring -> jsstring.
Variable extractProductQuery : jsstring -> option jsstring.
Variable now : Z.
Variable uuid : Id.
Variable buildContext : Id -> Id -> Ext -> Error + DecisionMaker.ContactContext.
Variable buildSystemPrompt : Agent.t -> DecisionMaker.ContactContext -> jsstring.
Variable allSettled :
  list DecisionMaker.Action -> World Ext -> list (Error + Json.t) * World Ext.
Variable consumeCredits :
  Id -> Z -> Id -> Id -> Ext * list LogEntry
  -> (Error + unit) * (Ext * list LogEntry).

Lemma find_app_none {A : Type} (p : A -> bool) (l : list A) (x : A) :
  find p l = None -> p x = true -> find p (l ++ [x]) = Some x.
Proof.
  induction l as [|a l IH]; simpl; intros Hf Hx; [now rewrite Hx|].
  destruct (p a); [discriminate | now apply IH].
Qed.

(** X28.  getOrAssignAgent returns an open assignment of the conversation
    that is stored, writes nothing when one exists already or when it fails,
    and is idempotent: a second call returns the same assignment and leaves
    the store as it is.  A conversation with at most one open assignment
    keeps at most one. *)
Theorem getOrAssignAgent_idempotent (conversationId organizationId : Id)
  (w : World Ext) :
  match getOrAssignAgent uuid conversationId organizationId w with
  | (inl _, w') => w' = w /\ openRows conversationId (assignments w) = []
  | (inr assigned, w') =>
      In (assignment assigned) (openRows conversationId (assignments w'))
      /\ (openRows conversationId (assignments w) <> [] -> w' = w)
      /\ (exists again,
            getOrAssignAgent uuid conversationId organizationId w'
            = (inr again, w')
            /\ assignment again = assignment assigned)
      /\ forall c, (List.length (openRows c (assignments w)) <= 1)%nat ->
                   (List.length (openRows c (assignments w')) <= 1)%nat
  end.
Proof.
  unfold getOrAssignAgent, openRows.
  set (p := fun a : Assignment.t =>
              eqb (Assignment.conversationId a) conversationId && isOpen a).
  change (fun a : Assignment.t =>
            eqb (Assignment.conversationId a) conversationId
            && match Assignment.unassignedAt a with
               | None => true | Some _ => false end) with p.
  destruct (find p (assignments w)) as [existing|] eqn:Ef.
  - pose proof (find_some _ _ Ef) as [Hin Hp].
    split; [now apply filter_In|]. split; [reflexivity|].
    split; [|auto]. rewrite Ef. eexists. split; reflexivity.
  - pose proof (AssignmentFacts.find_none_filter _ _ Ef) as Hnone.
    destruct (find _ (conversations w)) as [conversation|]; [|now split].
    destruct (AgentManager.selectBestAgent _ _ _) as [selectedAgent|];
      [|now split].
    cbn [assignment assignments agents conversations].
    set (row := Assignment.mk uuid conversationId (Agent.id selectedAgent)
                  (Conversation.contactId conversation) None 0 0).
    assert (Hrow : p row = true).
    { unfold p, row, isOpen. simpl. now rewrite JsFacts.eqb_refl. }
    split; [|split; [|split]].
    + apply filter_In. split; [apply in_or_app; right; now left | exact Hrow].
    + rewrite Hnone. congruence.
    + rewrite (find_app_none p _ row Ef Hrow). eexists. split; reflexivity.
    + intros c Hc. rewrite filter_app, length_app. cbn [filter].
      destruct (eqb (Assignment.conversationId row) c && isOpen row) eqn:E.
      * assert (Hcc : c = conversationId).
        { apply andb_true_iff in E as [E _]. apply JsFacts.eqb_eq in E.
          now rewrite <- E. }
        subst c. fold p. rewrite Hnone. simpl. lia.
      * simpl. lia.
Qed.

Lemma getOrAssignAgent_log (conversationId organizationId : Id) (w : World Ext) :
  let (r, w') := getOrAssignAgent uuid conversationId organizationId w in
  log w' = log w
  /\ match r with
     | inl e => e = Err "Conversation not found" \/ e = Err "No suitable agent found"
     | inr _ => True
     end.
Proof.
  unfold getOrAssignAgent.
  destruct (find _ (assignments w)); [now split|].
  destruct (find _ (conversations w)); [|split; [reflexivity | now left]].
  destruct (AgentManager.selectBestAgent _ _ _);
    [now split | split; [reflexivity | now right]].
Qed.

(** X29.  processMessage ends every failure by logging an error entry for
    the conversation, with the error it rethrows: that entry is the last of
    the log.  A failure is never that of an action handler: it comes from
    the agent lookup, the context builder, the allowed-actions column, the
    store refusing the outbound message or the assignment counters, or the
    credit deduction.  A success returns the placeholder response around
    the user's message and reports the 150 credits of the model call. *)
Theorem processMessage_failures_logged (input : ProcessMessageInput)
  (w : World Ext) :
  match processMessage toLowerCase extractLinkTitle extractTimeProposals
          extractEscalationReason extractProductQuery now uuid buildContext
          buildSystemPrompt allSettled consumeCredits input w with
  | (inl e, w') =>
      (exists earlier,
         log w' = earlier
                  ++ [LogError e (conversationId input) "Failed to process message"])
      /\ cause Ext buildContext consumeCredits input e
  | (inr result, w') =>
      creditsUsed result = 150
      /\ response result
         = js "This is a placeholder AI response. The actual AI integration will be implemented in production. User message was: "
           ++ [34%N] ++ messageContent input ++ [34%N]
  end.
Proof.
  unfold processMessage, tryCatch, processMessageBody, bind at 1.
  pose proof (getOrAssignAgent_log (conversationId input) (organizationId input) w)
    as Hg.
  destruct (getOrAssignAgent uuid (conversationId input) (organizationId input) w)
    as [[e|assigned] w1]; destruct Hg as [_ He].
  { unfold bind, writeLog, throw. cbn [log]. split; [eexists; reflexivity|].
    unfold cause. destruct He as [->| ->]; auto. }
  destruct (agent assigned) as [ag|].
  2:{ unfold throw, bind, writeLog. cbn [log]. split; [eexists; reflexivity|].
      unfold cause. auto 6. }
  unfold bind at 1. unfold onExt at 1.
  destruct (buildContext (contactId input) (conversationId input) (ext w1))
    as [e|context] eqn:Ec.
  { unfold bind, writeLog, throw. cbn [log]. split; [eexists; reflexivity|].
    unfold cause. do 6 right. left. now exists (ext w1). }
  unfold bind at 1. unfold bind at 1. unfold callAIModel, bind at 1, writeLog, ret.
  cbn [agents conversations assignments messages ext log].
  unfold bind at 1.
  destruct (DecisionMaker.decideActions _ _ _ _ _ _ ag context _)
    as [e|actions] eqn:Ed.
  { unfold bind, throw. cbn [log]. split; [eexists; reflexivity|].
    unfold DecisionMaker.decideActions in Ed.
    destruct (DecisionMaker.allowedOf _); [discriminate|].
    inversion Ed; subst. unfold cause. auto 6. }
  unfold bind at 1, executeActions.
  match goal with
  | |- context [allSettled actions ?w2] =>
      destruct (allSettled actions w2) as [results w4]
  end.
  unfold bind at 1, insertMessage. cbn [Message.conversationId].
  destruct (existsb _ (conversations w4)).
  2:{ unfold bind, throw. cbn [log]. split; [eexists; reflexivity|].
      unfold cause. auto 6. }
  unfold bind at 1, onLedger.
  cbn [agents conversations assignments messages ext log].
  destruct (consumeCredits _ _ _ _ (ext w4, log w4)) as [[e|[]] [x' entries]] eqn:Ecc.
  { unfold bind, throw. cbn [log]. split; [eexists; reflexivity|].
    unfold cause. do 7 right. eauto. }
  unfold bind at 1, updateStats.
  destruct (truthy (Assignment.id (assignment assigned))).
  - destruct (statsFit _ _).
    + unfold setAssignments, ret. cbn [creditsUsed response]. split; reflexivity.
    + unfold bind, throw. cbn [log]. split; [eexists; reflexivity|].
      unfold cause. auto 7.
  - unfold ret. cbn [creditsUsed response]. split; reflexivity.
Qed.

End Pipeline.

End EngineFacts.

(* ------------------------------------------------------------------ *)
(** ** Contact queries: findOrCreateContact *)

Module QueriesFacts.
Import Js Queries.

Lemma find_hd {A : Type} (p : A -> bool) (l : list A) :
  find p l = hd_error (filter p l).
Proof.
  induction l as [|a l IH]; simpl; [reflexivity|].
  destruct (p a); [reflexivity | exact IH].
Qed.

(** Where at most one row matches, every choice is that row. *)
Lemma findFirst_unique {A : Type} (first : Choice) (p : A -> bool) (l : list A) :
  chooses first -> (List.length (filter p l) <= 1)%nat ->
  findFirst first p l = find p l.
Proof.
  intros Hc Hl. unfold findFirst. rewrite find_hd.
  specialize (Hc A (filter p l)).
  destruct (filter p l) as [|x [|y rest]]; simpl in *.
  - destruct (first A []); [contradiction | reflexivity].
  - destruct (first A [x]) as [z|]; [|discriminate].
    destruct Hc as [->|[]]. reflexivity.
  - lia.
Qed.

Lemma byColumn_unique (first : Choice) (org : Id)
  (column : Contact.t -> option jsstring) (value : option jsstring)
  (l : list Contact.t) :
  chooses first -> atMostOne org column value l ->
  byColumn (findFirst first) org column value l
  = byColumn (@find _) org column value l.
Proof.
  intros Hc Hu. unfold byColumn, atMostOne in *. destruct value as [v|];
    [|reflexivity].
  destruct (truthy v); [|reflexivity]. apply findFirst_unique; auto.
Qed.

Lemma lookup_unique (first : Choice) (org : Id) (data : ContactData.t)
  (l : list Contact.t) :
  chooses first ->
  atMostOne org Contact.email (ContactData.email data) l ->
  atMostOne org Contact.phone (ContactData.phone data) l ->
  lookup (findFirst first) org data l = lookup (@find _) org data l.
Proof.
  intros Hc He Hp. unfold lookup. now rewrite !byColumn_unique.
Qed.

Lemma find_map_same {A : Type} (p : A -> bool) (f : A -> A) (l : list A) :
  (forall a, p (f a) = p a) ->
  find p (List.map f l) = option_map f (find p l).
Proof.
  intros H. induction l as [|a l IH]; simpl; [reflexivity|].
  rewrite H. destruct (p a); [reflexivity | exact IH].
Qed.

Lemma filter_map_same {A : Type} (p : A -> bool) (f : A -> A) (l : list A) :
  (forall a, p (f a) = p a) ->
  filter p (List.map f l) = List.map f (filter p l).
Proof.
  intros H. induction l as [|a l IH]; simpl; [reflexivity|].
  rewrite H. destruct (p a); simpl; now rewrite IH.
Qed.

Lemma find_app_new {A : Type} (p : A -> bool) (l : list A) (x : A) :
  find p l = None -> p x = true -> find p (l ++ [x]) = Some x.
Proof.
  induction l as [|a l IH]; simpl; intros Hf Hx; [now rewrite Hx|].
  destruct (p a); [discriminate | now apply IH].
Qed.

Lemma find_none_nil {A : Type} (p : A -> bool) (l : list A) :
  find p l = None -> filter p l = [].
Proof.
  induction l as [|a l IH]; simpl; [reflexivity|].
  destruct (p a); [discriminate | exact IH].
Qed.

Lemma activeWith_touch (org : Id) (column : Contact.t -> option jsstring)
  (value : jsstring) (now : Z) (x : Id) (c : Contact.t) :
  (forall k, column (touch now k) = column k) ->
  activeWith org column value
    (if eqb (Contact.id c) x then touch now c else c)
  = activeWith org column value c.
Proof.
  intros H. destruct (eqb (Contact.id c) x); [|reflexivity].
  unfold activeWith. now rewrite H.
Qed.

Lemma touched_id (now : Z) (x : Id) (c : Contact.t) :
  Contact.id (if eqb (Contact.id c) x then touch now c else c) = Contact.id c.
Proof. destruct (eqb _ _); reflexivity. Qed.

Lemma byColumn_touched (org : Id) (column : Contact.t -> option jsstring)
  (value : option jsstring) (now : Z) (x : Id) (l : list Contact.t) :
  (forall k, column (touch now k) = column k) ->
  byColumn (@find _) org column value
    (List.map (fun c => if eqb (Contact.id c) x then touch now c else c) l)
  = option_map (fun c => if eqb (Contact.id c) x then touch now c else c)
               (byColumn (@find _) org column value l).
Proof.
  intros H. unfold byColumn. destruct value as [v|]; [|reflexivity].
  destruct (truthy v); [|reflexivity].
  apply find_map_same. intros c. now apply activeWith_touch.
Qed.

Lemma lookup_touched (org : Id) (data : ContactData.t) (now : Z) (x : Id)
  (l : list Contact.t) :
  lookup (@find _) org data
    (List.map (fun c => if eqb (Contact.id c) x then touch now c else c) l)
  = option_map (fun c => if eqb (Contact.id c) x then touch now c else c)
               (lookup (@find _) org data l).
Proof.
  unfold lookup. rewrite !byColumn_touched by reflexivity.
  destruct (byColumn (@find _) org Contact.email _ l); reflexivity.
Qed.

Lemma atMostOne_touched (org : Id) (column : Contact.t -> option jsstring)
  (value : option jsstring) (now : Z) (x : Id) (l : list Contact.t) :
  (forall k, column (touch now k) = column k) ->
  atMostOne org column value l ->
  atMostOne org column value
    (List.map (fun c => if eqb (Contact.id c) x then touch now c else c) l).
Proof.
  intros H Hu. unfold atMostOne in *. destruct value as [v|]; [|exact I].
  intros Hv. rewrite filter_map_same by (intros c; now apply activeWith_touch).
  rewrite length_map. now apply Hu.
Qed.

Lemma byColumn_inserted (org : Id) (column : Contact.t -> option jsstring)
  (value : option jsstring) (l : list Contact.t) (c : Contact.t) :
  truthyOpt value = true -> byColumn (@find _) org column value l = None ->
  Contact.organizationId c = org -> Contact.status c = active ->
  column c = value ->
  byColumn (@find _) org column value (l ++ [c]) = Some c.
Proof.
  unfold byColumn. destruct value as [v|]; [|discriminate]. simpl.
  intros -> Hl Ho Hs Hc. apply find_app_new; [exact Hl|].
  unfold activeWith. rewrite Ho, Hs, Hc. simpl. now rewrite !JsFacts.eqb_refl.
Qed.

Lemma byColumn_falsy (org : Id) (column : Contact.t -> option jsstring)
  (value : option jsstring) (l : list Contact.t) :
  truthyOpt value = false -> byColumn (@find _) org column value l = None.
Proof.
  unfold byColumn. destruct value as [v|]; [|reflexivity]. simpl.
  now intros ->.
Qed.

Lemma lookup_inserted (org : Id) (data : ContactData.t) (l : list Contact.t)
  (c : Contact.t) :
  truthyOpt (ContactData.email data) = true
  \/ truthyOpt (ContactData.phone data) = true ->
  lookup (@find _) org data l = None ->
  Contact.organizationId c = org -> Contact.status c = active ->
  Contact.email c = ContactData.email data ->
  Contact.phone c = ContactData.phone data ->
  lookup (@find _) org data (l ++ [c]) = Some c.
Proof.
  intros Ht Hl Ho Hs He Hp. unfold lookup in *.
  destruct (byColumn (@find _) org Contact.email (ContactData.email data) l) eqn:E1;
    [discriminate|].
  destruct (truthyOpt (ContactData.email data)) eqn:Te.
  - now rewrite (byColumn_inserted org Contact.email _ l c Te E1 Ho Hs He).
  - rewrite (byColumn_falsy org Contact.email _ _ Te).
    destruct Ht as [Ht|Ht]; [discriminate|].
    now apply byColumn_inserted.
Qed.

Lemma atMostOne_inserted (org : Id) (column : Contact.t -> option jsstring)
  (value : option jsstring) (l : list Contact.t) (c : Contact.t) :
  byColumn (@find _) org column value l = None ->
  atMostOne org column value (l ++ [c]).
Proof.
  unfold byColumn, atMostOne. destruct value as [v|]; [|trivial].
  intros Hf Hv. rewrite Hv in Hf. apply find_none_nil in Hf.
  rewrite filter_app, Hf. simpl. destruct (activeWith org column v c); simpl; lia.
Qed.

Lemma lookup_none (org : Id) (data : ContactData.t) (l : list Contact.t) :
  lookup (@find _) org data l = None ->
  byColumn (@find _) org Contact.email (ContactData.email data) l = None
  /\ byColumn (@find _) org Contact.phone (ContactData.phone data) l = None.
Proof.
  unfold lookup.
  destruct (byColumn (@find _) org Contact.email _ l); [discriminate|]. auto.
Qed.

Lemma byColumn_active (org : Id) (column : Contact.t -> option jsstring)
  (value : option jsstring) (l : list Contact.t) (c : Contact.t) :
  byColumn (@find _) org column value l = Some c ->
  In c l /\ Merger.activeInOrg org c = true.
Proof.
  unfold byColumn. destruct value as [v|]; [|discriminate].
  destruct (truthy v); [|discriminate].
  intros Hf. apply find_some in Hf as [Hin Hc]. split; [exact Hin|].
  unfold activeWith in Hc. apply andb_true_iff in Hc as [Hc Ha].
  apply andb_true_iff in Hc as [Ho _]. unfold Merger.activeInOrg.
  now rewrite Ho, Ha.
Qed.

Lemma lookup_active (org : Id) (data : ContactData.t) (l : list Contact.t)
  (c : Contact.t) :
  lookup (@find _) org data l = Some c ->
  In c l /\ Merger.activeInOrg org c = true.
Proof.
  unfold lookup.
  destruct (byColumn (@find _) org Contact.email _ l) as [c0|] eqn:E.
  - intros H. inversion H; subst. now apply byColumn_active in E.
  - apply byColumn_active.
Qed.

Lemma room_fits (k n : Z) : 0 <= k -> room (k + 1) n -> Db.int4 (n + 1) = true.
Proof.
  unfold room, Db.int4. intros Hk [H0 H1].
  apply andb_true_iff. split; apply Z.leb_le; lia.
Qed.

Lemma room_next (k n : Z) : room (k + 1) n -> room k (n + 1).
Proof. unfold room. lia. Qed.

Lemma room_less (k n : Z) : room (k + 1) n -> room k n.
Proof. unfold room. lia. Qed.

Lemma fits_reached {A : Type} (count : A -> Z) (hit : A -> bool) (k : Z)
  (l : list A) :
  0 <= k -> Forall (fun a => room (k + 1) (count a)) l ->
  forallb (fun a => Db.int4 (count a + 1)) (filter hit l) = true.
Proof.
  intros Hk H. apply forallb_forall. intros a Ha. apply filter_In in Ha as [Ha _].
  rewrite Forall_forall in H. now apply (room_fits k), H.
Qed.

Lemma room_raised {A : Type} (count : A -> Z) (hit : A -> bool) (f : A -> A)
  (k : Z) (l : list A) :
  (forall a, count (f a) = count a + 1) ->
  Forall (fun a => room (k + 1) (count a)) l ->
  Forall (fun a => room k (count a)) (List.map (fun a => if hit a then f a else a) l).
Proof.
  intros Hf H. apply Forall_forall. intros b Hb.
  apply in_map_iff in Hb as (a & <- & Ha). rewrite Forall_forall in H.
  specialize (H a Ha). destruct (hit a); [rewrite Hf; now apply room_next|].
  now apply room_less.
Qed.

Lemma room_kept {A : Type} (count : A -> Z) (k : Z) (l : list A) (x : A) :
  0 <= k <= 1 -> count x = 1 ->
  Forall (fun a => room (k + 1) (count a)) l ->
  Forall (fun a => room k (count a)) (l ++ [x]).
Proof.
  intros Hk Hx H. apply Forall_app. split.
  - eapply Forall_impl; [|exact H]. intros a. apply room_less.
  - constructor; [|constructor]. rewrite Hx. unfold room. lia.
Qed.

(** The call, by the contact the lookups find. *)
Lemma findOrCreateContact_by_lookup (first : Choice) (now : Z) (cu su org : Id)
  (data : ContactData.t) (store : Store) :
  findOrCreateContact first now cu su org data store
  = match lookup (findFirst first) org data (contacts store) with
    | Some existing =>
        if forallb (fun c => Db.int4 (Contact.interactionCount c + 1))
             (filter (fun c => eqb (Contact.id c) (Contact.id existing))
                     (contacts store))
        then
          match findFirst first (sameSource (Contact.id existing) data)
                  (sources store) with
          | None =>
              (inr existing,
               mkStore (organizations store)
                 (List.map (fun c => if eqb (Contact.id c) (Contact.id existing)
                                     then touch now c else c) (contacts store))
                 (sources store
                  ++ [newSource now su (Contact.id existing) data]))
          | Some es =>
              if forallb (fun s => Db.int4 (Source.interactionCount s + 1))
                   (filter (fun s => eqb (Source.id s) (Source.id es))
                           (sources store))
              then
                (inr existing,
                 mkStore (organizations store)
                   (List.map (fun c => if eqb (Contact.id c) (Contact.id existing)
                                       then touch now c else c) (contacts store))
                   (List.map (fun s => if eqb (Source.id s) (Source.id es)
                                       then seen now s else s) (sources store)))
              else (inl Db.outOfRange, store)
          end
        else (inl Db.outOfRange, store)
    | None =>
        if existsb (eqb org) (organizations store) then
          (inr (created now cu org data),
           mkStore (organizations store)
             (contacts store ++ [created now cu org data])
             (sources store ++ [newSource now su cu data]))
        else (inl Db.foreignKey, store)
    end.
Proof.
  unfold findOrCreateContact, lookup, byColumn, created. cbv zeta.
  destruct (ContactData.email data) as [e|], (ContactData.phone data) as [ph|];
    repeat match goal with
           | |- context [truthy ?x] => destruct (truthy x)
           | |- context [findFirst first ?p (contacts store)] =>
               destruct (findFirst first p (contacts store))
           end; reflexivity.
Qed.

(** The outcome of a call on a store in which at most one contact matches
    and the counters have room. *)
Lemma findOrCreateContact_outcome (first : Choice) (now : Z) (cu su org : Id)
  (data : ContactData.t) (store : Store) (k : Z) :
  chooses first -> 0 <= k <= 1 ->
  atMostOne org Contact.email (ContactData.email data) (contacts store) ->
  atMostOne org Contact.phone (ContactData.phone data) (contacts store) ->
  Forall (fun c => room (k + 1) (Contact.interactionCount c)) (contacts store) ->
  Forall (fun s => room (k + 1) (Source.interactionCount s)) (sources store) ->
  existsb (eqb org) (organizations store) = true ->
  exists c store',
    findOrCreateContact first now cu su org data store = (inr c, store')
    /\ organizations store' = organizations store
    /\ match lookup (@find _) org data (contacts store) with
       | Some existing =>
           c = existing
           /\ contacts store'
              = List.map (fun c => if eqb (Contact.id c) (Contact.id existing)
                                   then touch now c else c) (contacts store)
       | None =>
           c = created now cu org data
           /\ contacts store' = contacts store ++ [created now cu org data]
       end
    /\ Forall (fun c => room k (Contact.interactionCount c)) (contacts store')
    /\ Forall (fun s => room k (Source.interactionCount s)) (sources store').
Proof.
  intros Hc Hk He Hp Hcs Hss Horg.
  rewrite findOrCreateContact_by_lookup, (lookup_unique first org data _ Hc He Hp).
  assert (Hk0 : 0 <= k) by lia.
  destruct (lookup (@find _) org data (contacts store)) as [existing|].
  - rewrite (fits_reached Contact.interactionCount _ k _ Hk0 Hcs).
    assert (Hcs' : Forall (fun c => room k (Contact.interactionCount c))
                     (List.map (fun c => if eqb (Contact.id c) (Contact.id existing)
                                         then touch now c else c) (contacts store))).
    { apply (room_raised Contact.interactionCount); [reflexivity | exact Hcs]. }
    destruct (findFirst first _ (sources store)) as [es|].
    + rewrite (fits_reached Source.interactionCount _ k _ Hk0 Hss).
      eexists _, _. split; [reflexivity|]. cbn [organizations contacts sources].
      repeat split; try assumption.
      apply (room_raised Source.interactionCount); [reflexivity | exact Hss].
    + eexists _, _. split; [reflexivity|]. cbn [organizations contacts sources].
      repeat split; try assumption.
      apply (room_kept Source.interactionCount); [exact Hk | reflexivity | exact Hss].
  - rewrite Horg. eexists _, _. split; [reflexivity|].
    cbn [organizations contacts sources]. repeat split.
    + apply (room_kept Contact.interactionCount); [exact Hk | reflexivity | exact Hcs].
    + apply (room_kept Source.interactionCount); [exact Hk | reflexivity | exact Hss].
Qed.

(** X30.  findOrCreateContact does not create a second contact for the
    same person.  Let the data carry an email or a phone, the organization
    exist, at most one active contact of the organization carry that email
    and at most one that phone, and every interaction counter have room for
    two more.  Then, whichever rows the store returns first, the call
    returns an active contact of the organization, and a second call with
    the same data returns the contact with the same key and adds no contact
    row. *)
Theorem findOrCreateContact_same_contact
  (first first' : Choice) (now now' : Z) (cu su cu' su' org : Id)
  (data : ContactData.t) (store : Store) :
  chooses first -> chooses first' ->
  truthyOpt (ContactData.email data) = true
  \/ truthyOpt (ContactData.phone data) = true ->
  existsb (eqb org) (organizations store) = true ->
  atMostOne org Contact.email (ContactData.email data) (contacts store) ->
  atMostOne org Contact.phone (ContactData.phone data) (contacts store) ->
  Forall (fun c => room 2 (Contact.interactionCount c)) (contacts store) ->
  Forall (fun s => room 2 (Source.interactionCount s)) (sources store) ->
  exists c1 store1 c2 store2,
    findOrCreateContact first now cu su org data store = (inr c1, store1)
    /\ findOrCreateContact first' now' cu' su' org data store1 = (inr c2, store2)
    /\ Merger.activeInOrg org c1 = true
    /\ Contact.id c2 = Contact.id c1
    /\ Permutation (List.map Contact.id (contacts store2))
                   (List.map Contact.id (contacts store1)).
Proof.
  intros Hc Hc' Ht Horg He Hp Hcs Hss.
  destruct (findOrCreateContact_outcome first now cu su org data store 1 Hc
              ltac:(lia) He Hp Hcs Hss Horg)
    as (c1 & store1 & E1 & Ho1 & Hl1 & Hcs1 & Hss1).
  assert (H1 : lookup (@find _) org data (contacts store1) = Some c1
               \/ exists c0, lookup (@find _) org data (contacts store1)
                             = Some (touch now c0)
                             /\ Contact.id c0 = Contact.id c1
                             /\ c1 = c0).
  { destruct (lookup (@find _) org data (contacts store)) as [existing|] eqn:El.
    - destruct Hl1 as [-> ->]. right. exists existing.
      rewrite lookup_touched, El. cbn [option_map].
      now rewrite JsFacts.eqb_refl.
    - destruct Hl1 as [-> ->]. left.
      now apply lookup_inserted. }
  assert (Ha : Merger.activeInOrg org c1 = true).
  { destruct (lookup (@find _) org data (contacts store)) as [existing|] eqn:El.
    - destruct Hl1 as [-> _]. now apply (lookup_active _ _ _ _ El).
    - destruct Hl1 as [-> _]. unfold Merger.activeInOrg, created. simpl.
      now rewrite JsFacts.eqb_refl. }
  assert (He1 : atMostOne org Contact.email (ContactData.email data)
                  (contacts store1)
                /\ atMostOne org Contact.phone (ContactData.phone data)
                     (contacts store1)).
  { destruct (lookup (@find _) org data (contacts store)) as [existing|] eqn:El.
    - destruct Hl1 as [_ ->]. split; now apply atMostOne_touched.
    - destruct Hl1 as [_ ->]. apply lookup_none in El as [E1' E2'].
      split; now apply atMostOne_inserted. }
  destruct He1 as [He1 Hp1].
  rewrite <- Ho1 in Horg.
  destruct (findOrCreateContact_outcome first' now' cu' su' org data store1 0 Hc'
              ltac:(lia) He1 Hp1 Hcs1 Hss1 Horg)
    as (c2 & store2 & E2 & _ & Hl2 & _ & _).
  exists c1, store1, c2, store2. split; [exact E1|]. split; [exact E2|].
  split; [exact Ha|].
  assert (Hids : forall x,
             List.map Contact.id
               (List.map (fun c => if eqb (Contact.id c) x then touch now' c else c)
                         (contacts store1))
             = List.map Contact.id (contacts store1)).
  { intros x. rewrite List.map_map. apply map_ext. intros c. apply touched_id. }
  destruct H1 as [H1|(c0 & H1 & Hid & _)]; rewrite H1 in Hl2;
    destruct Hl2 as [-> ->]; (split; [|rewrite Hids; apply Permutation_refl]).
  - reflexivity.
  - exact Hid.
Qed.

Lemma findOrCreateContact_same_contact_witness :
  exists c1 store1 c2 store2,
    findOrCreateContact inListOrder 1 (js "c1") (js "s1") (js "org")
      (ContactData.mk (Some (js "ana@x.com")) None (js "Ana") (js "Lopez")
         (js "form") None None)
      (mkStore [js "org"] [] [])
    = (inr c1, store1)
    /\ findOrCreateContact inListOrder 2 (js "c2") (js "s2") (js "org")
         (ContactData.mk (Some (js "ana@x.com")) None (js "Ana") (js "Lopez")
            (js "form") None None)
         store1
       = (inr c2, store2)
    /\ Merger.activeInOrg (js "org") c1 = true
    /\ Contact.id c2 = Contact.id c1
    /\ Permutation (List.map Contact.id (contacts store2))
                   (List.map Contact.id (contacts store1)).
Proof.
  assert (Hc : chooses inListOrder).
  { intros A [|x l]; simpl; auto. }
  apply (findOrCreateContact_same_contact inListOrder inListOrder 1 2 (js "c1")
           (js "s1") (js "c2") (js "s2") (js "org")
           (ContactData.mk (Some (js "ana@x.com")) None (js "Ana") (js "Lopez")
              (js "form") None None)
           (mkStore [js "org"] [] []) Hc Hc).
  - left. reflexivity.
  - reflexivity.
  - simpl. intros _. apply Nat.le_0_l.
  - exact I.
  - constructor.
  - constructor.
Defined.

(** Two active contacts with the same email: which of them a call returns
    is the choice of the store. *)
Example findOrCreateContact_twins :
  let twins :=
    mkStore [js "org"]
      [Examples.person "a" (Some "ana@x.com"%string) active 1;
       Examples.person "b" (Some "ana@x.com"%string) active 1] [] in
  let data :=
    ContactData.mk (Some (js "ana@x.com")) None (js "Ana") (js "Lopez")
      (js "form") None None in
  option_map Contact.id
    (match fst (findOrCreateContact inListOrder 1 (js "c") (js "s") (js "org")
                  data twins) with
     | inr c => Some c | inl _ => None end)
  = Some (js "a")
  /\ option_map Contact.id
       (match fst (findOrCreateContact (fun A l => hd_error (rev l)) 1 (js "c")
                     (js "s") (js "org") data twins) with
        | inr c => Some c | inl _ => None end)
     = Some (js "b").
Proof. split; vm_compute; reflexivity. Qed.

End QueriesFacts.
